(** * JavSP metadata pipeline: crawler orchestration, merge and naming

    A shallow embedding of [parallel_crawler], [info_summary] and
    [generate_names] of [javsp/__main__.py], with the properties of the
    design document stated against it; then of the loop that calls
    them, [RunNormalMode], with [download_cover], of the notifier of
    [javsp/telegram_notify.py] and of the scanner of
    [tools/video_scanner.py], with further properties of the code. *)
From Stdlib Require Import ZArith String Ascii Lia.
From stdpp Require Import gmap strings list pretty.

#[global] Set Warnings "-clear-no-such-hyp".

(** ** Python values, exceptions and dictionaries *)

(** The values a [MovieInfo] attribute holds: [None], a boolean, a
    string, a list (tags, people, cover candidates) or a [str -> str]
    dictionary (the per-person image map), kept in insertion order.
    Equality is that of Python on all of them but the dictionaries,
    which Python compares whatever the order; the values the merge
    compares, cover URLs and identifiers, are strings. *)
#[warnings="-register-all"]
Inductive pyval :=
| PNone
| PBool (b : bool)
| PStr (s : string)
| PList (l : list pyval)
| PDict (d : list (string * string)).

Definition pyval_eq_dec : forall a b : pyval, {a = b} + {a <> b}.
Proof.
  fix IH 1. intros a b. decide equality.
  - apply Bool.bool_dec.
  - apply String.string_dec.
  - apply (List.list_eq_dec IH).
  - apply (List.list_eq_dec (fun x y => decide (x = y))).
Defined.

#[global] Instance pyval_eqdec : EqDecision pyval := pyval_eq_dec.

(** Python truthiness: [bool(v)]. *)
Definition truthy (v : pyval) : bool :=
  match v with
  | PNone => false
  | PBool b => b
  | PStr s => negb (bool_decide (s = ""))
  | PList l => negb (bool_decide (l = []))
  | PDict d => negb (bool_decide (d = []))
  end.

(** [v is None]. *)
Definition is_none (v : pyval) : bool :=
  match v with PNone => true | _ => false end.

(** ** Strings

    A Python string is a sequence of code points.  It is kept here as
    its UTF-8 encoding: a code point begins at a byte that is no
    continuation byte ([10xxxxxx]) and goes on over the continuation
    bytes that follow it.  Lengths, indices and slices count code
    points. *)

Definition is_continuation (c : ascii) : bool :=
  let n := nat_of_ascii c in ((128 <=? n) && (n <? 192))%nat.

Definition begins_with_continuation (u : string) : bool :=
  match u with
  | String c _ => is_continuation c
  | EmptyString => false
  end.

(** [list(s)]: the code points of a string, each with its bytes. *)
Fixpoint code_points (s : string) : list string :=
  match s with
  | EmptyString => []
  | String c r =>
      match code_points r with
      | u :: us =>
          if begins_with_continuation u then String c u :: us
          else String c EmptyString :: u :: us
      | [] => [String c EmptyString]
      end
  end.

(** [len(s)]. *)
Definition str_len (s : string) : nat := length (code_points s).

(** [sep.join(l)]. *)
Fixpoint join (sep : string) (l : list string) : string :=
  match l with
  | [] => EmptyString
  | [x] => x
  | x :: r => x +:+ sep +:+ join sep r
  end.

(** [s[:n]] and [s[n:]] for [0 <= n]. *)
Definition str_take (n : nat) (s : string) : string :=
  join "" (take n (code_points s)).

Definition str_drop (n : nat) (s : string) : string :=
  join "" (drop n (code_points s)).

(** [ord(c)]: the number a code point encodes. *)
Definition lead_bits (c : ascii) : N :=
  let n := N_of_ascii c in
  if (n <? 128)%N then n
  else if (n <? 224)%N then (n mod 32)%N
  else if (n <? 240)%N then (n mod 16)%N
  else (n mod 8)%N.

Definition ord (u : string) : N :=
  match u with
  | EmptyString => 0%N
  | String c r =>
      foldl (fun acc b => (acc * 64 + N_of_ascii b mod 64)%N)
            (lead_bits c) (list_ascii_of_string r)
  end.

(** [c.isspace()]: the white space of Unicode. *)
Definition is_space (u : string) : bool :=
  let n := ord u in
  ((9 <=? n) && (n <=? 13) || (28 <=? n) && (n <=? 32)
   || (n =? 133) || (n =? 160) || (n =? 5760)
   || (8192 <=? n) && (n <=? 8202)
   || (n =? 8232) || (n =? 8233) || (n =? 8239) || (n =? 8287)
   || (n =? 12288))%N.

Fixpoint drop_spaces (us : list string) : list string :=
  match us with
  | u :: r => if is_space u then drop_spaces r else us
  | [] => []
  end.

(** [s.strip()]: the white space at both ends is taken off. *)
Definition strip_points (us : list string) : list string :=
  rev (drop_spaces (rev (drop_spaces us))).

Definition strip (s : string) : string :=
  join "" (strip_points (code_points s)).

Inductive exn :=
| ValueError | TypeError | AttributeError | KeyError | UnboundLocalError.

(** A call either returns or raises. *)
Inductive result (A : Type) :=
| Ok (a : A)
| Raise (e : exn).
Arguments Ok {A} a.
Arguments Raise {A} e.

#[global] Instance result_ret : MRet result := fun A a => Ok a.
#[global] Instance result_bind : MBind result :=
  fun A B f m => match m with Ok a => f a | Raise e => Raise e end.

(** A [dict] with string keys, in insertion order: assigning to a key
    that is present keeps its position. *)
Fixpoint dict_get {V} (k : string) (d : list (string * V)) : option V :=
  match d with
  | [] => None
  | (k', v) :: r => if decide (k = k') then Some v else dict_get k r
  end.

Fixpoint dict_set {V} (k : string) (v : V) (d : list (string * V))
  : list (string * V) :=
  match d with
  | [] => [(k, v)]
  | (k', v') :: r =>
      if decide (k = k') then (k', v) :: r else (k', v') :: dict_set k v r
  end.

(** [list.remove(x)]: drops the first occurrence, [ValueError] when
    there is none. *)
Fixpoint list_remove (x : pyval) (l : list pyval) : result (list pyval) :=
  match l with
  | [] => Raise ValueError
  | y :: r => if decide (x = y) then Ok r
              else r' ← list_remove x r; Ok (y :: r')
  end.

(** ** Records *)

(** A [MovieInfo] instance is its attribute dictionary.  The
    constructor sets every declared data attribute, [None] unless told
    otherwise, so an attribute without an entry reads as [None]. *)
Abbreviation MovieInfo := (gmap string pyval).

Definition getattr (o : MovieInfo) (a : string) : pyval :=
  default PNone (o !! a).
Definition setattr (o : MovieInfo) (a : string) (v : pyval) : MovieInfo :=
  <[a := v]> o.
Definition hasattr (o : MovieInfo) (a : string) : bool :=
  bool_decide (is_Some (o !! a)).
Definition delattr (o : MovieInfo) (a : string) : MovieInfo :=
  delete a o.

Definition of_opt (o : option string) : pyval :=
  match o with Some s => PStr s | None => PNone end.

(** The item ([javsp.datatype.Movie]). *)
Record Movie := {
  mv_dvdid : option string;
  mv_cid : option string;
  mv_data_src : string;
  mv_hard_sub : bool;
  mv_uncensored : bool;
  mv_attr_str : string;
  mv_files : list string;
  mv_info : option MovieInfo;
  mv_save_dir : option string;
  mv_basename : option string;
  mv_nfo_file : option string;
  mv_fanart_file : option string;
  mv_poster_file : option string;
}.

Definition set_info (m : Movie) (i : option MovieInfo) : Movie :=
  {| mv_dvdid := mv_dvdid m; mv_cid := mv_cid m;
     mv_data_src := mv_data_src m; mv_hard_sub := mv_hard_sub m;
     mv_uncensored := mv_uncensored m; mv_attr_str := mv_attr_str m;
     mv_files := mv_files m; mv_info := i;
     mv_save_dir := mv_save_dir m; mv_basename := mv_basename m;
     mv_nfo_file := mv_nfo_file m; mv_fanart_file := mv_fanart_file m;
     mv_poster_file := mv_poster_file m |}.

Definition set_ids (m : Movie) (dvdid cid : option string) (src : string)
  : Movie :=
  {| mv_dvdid := dvdid; mv_cid := cid; mv_data_src := src;
     mv_hard_sub := mv_hard_sub m;
     mv_uncensored := mv_uncensored m; mv_attr_str := mv_attr_str m;
     mv_files := mv_files m; mv_info := mv_info m;
     mv_save_dir := mv_save_dir m; mv_basename := mv_basename m;
     mv_nfo_file := mv_nfo_file m; mv_fanart_file := mv_fanart_file m;
     mv_poster_file := mv_poster_file m |}.

Definition set_paths (m : Movie)
  (save_dir basename nfo fanart poster : option string) : Movie :=
  {| mv_dvdid := mv_dvdid m; mv_cid := mv_cid m;
     mv_data_src := mv_data_src m; mv_hard_sub := mv_hard_sub m;
     mv_uncensored := mv_uncensored m; mv_attr_str := mv_attr_str m;
     mv_files := mv_files m; mv_info := mv_info m;
     mv_save_dir := save_dir; mv_basename := basename;
     mv_nfo_file := nfo; mv_fanart_file := fanart;
     mv_poster_file := poster |}.

(** Modelled from the spec: the [MovieInfo] constructor
    ([javsp.datatype] is not part of the sources at hand).  A record is
    created fresh with every field unknown; [MovieInfo(movie)] copies
    the two identifiers of the item, [MovieInfo(dvdid)] takes the
    standard identifier alone. *)
Definition MovieInfo_of_movie (m : Movie) : MovieInfo :=
  {[ "dvdid" := of_opt (mv_dvdid m); "cid" := of_opt (mv_cid m) ]}.

Definition MovieInfo_of_dvdid (dvdid : option string) : MovieInfo :=
  {[ "dvdid" := of_opt dvdid; "cid" := PNone ]}.

Module UseJavDBCover.
Inductive t := yes | no | fallback.
End UseJavDBCover.

(** ** The Reconciler: [info_summary] *)

(** What [info_summary] reads of the configuration. *)
Record MergeCfg := {
  remove_trailing_actor_name : bool;
  respect_site_avid : bool;
  use_javdb_cover : UseJavDBCover.t;
  normalize_actress_name : bool;
  required_keys : list string;
}.

(** The state of the priority walk: the record under construction and
    the two cover candidate lists. *)
Record walk := {
  final_info : MovieInfo;
  covers : list pyval;
  big_covers : list pyval;
}.

Definition TAG_HARD_SUB : string := "内嵌字幕".
Definition TAG_UNCENSORED : string := "无码流出/破解".

Section Reconciler.
(** [attrs]: the public attribute names [dir(final_info)] lists.
    [remove_trail_actor_in_title] belongs to [javsp.func];
    [actressAliasMap] is the module-level alias table. *)
Variable attrs : list string.
Variable remove_trail_actor_in_title : pyval -> pyval -> pyval.
Variable actressAliasMap : list (string * list string).
Variable cfg : MergeCfg.

Fixpoint resolve_alias_in (m : list (string * list string)) (name : string)
  : string :=
  match m with
  | [] => name
  | (fixedName, aliases) :: r =>
      if bool_decide (name ∈ aliases) then fixedName
      else resolve_alias_in r name
  end.

Definition resolve_alias (name : string) : string :=
  resolve_alias_in actressAliasMap name.

(** [resolve_alias] on a list element: only a string can be found
    among the aliases. *)
Definition resolve_alias_val (v : pyval) : pyval :=
  match v with PStr s => PStr (resolve_alias s) | _ => v end.

(** Tags of javdb first. *)
Definition seed_genre (all_info : list (string * MovieInfo))
  (fin : MovieInfo) : MovieInfo :=
  match dict_get "javdb" all_info with
  | Some data =>
      if truthy (getattr data "genre")
      then setattr fin "genre" (getattr data "genre") else fin
  | None => fin
  end.

(** The trailing actress name leaves the title of every source. *)
Definition strip_title (data : MovieInfo) : MovieInfo :=
  setattr data "title"
    (remove_trail_actor_in_title (getattr data "title")
                                 (getattr data "actress")).

Definition strip_titles (all_info : list (string * MovieInfo))
  : list (string * MovieInfo) :=
  if remove_trailing_actor_name cfg
  then map (fun nd => (nd.1, strip_title nd.2)) all_info
  else all_info.

(** One attribute of one source. *)
Definition absorb_attr (data : MovieInfo) (st : walk) (attr : string)
  : walk :=
  let incoming := getattr data attr in
  let current := getattr (final_info st) attr in
  if decide (attr = "cover") then
    if truthy incoming && negb (bool_decide (incoming ∈ covers st))
    then {| final_info := final_info st;
            covers := covers st ++ [incoming];
            big_covers := big_covers st |}
    else st
  else if decide (attr = "big_cover") then
    if truthy incoming && negb (bool_decide (incoming ∈ big_covers st))
    then {| final_info := final_info st;
            covers := covers st;
            big_covers := big_covers st ++ [incoming] |}
    else st
  else if decide (attr = "uncensored") then
    if is_none current && negb (is_none incoming)
    then {| final_info := setattr (final_info st) attr incoming;
            covers := covers st; big_covers := big_covers st |}
    else st
  else
    if negb (truthy current) && truthy incoming
    then {| final_info := setattr (final_info st) attr incoming;
            covers := covers st; big_covers := big_covers st |}
    else st.

Definition absorb_source (st : walk) (nd : string * MovieInfo) : walk :=
  foldl (absorb_attr nd.2) st attrs.

(** The walk over the sources, in the order of the dictionary. *)
Definition absorb_all (all_info : list (string * MovieInfo)) (st : walk)
  : walk :=
  foldl absorb_source st all_info.

(** *** The identifier of the sites *)

Definition hashable (v : pyval) : bool :=
  match v with PList _ | PDict _ => false | _ => true end.

(** [id_weight.setdefault(k, []).append(name)]. *)
Fixpoint setdefault_append (k : pyval) (name : string)
  (g : list (pyval * list string)) : list (pyval * list string) :=
  match g with
  | [] => [(k, [name])]
  | (k', ns) :: r =>
      if decide (k = k') then (k', ns ++ [name]) :: r
      else (k', ns) :: setdefault_append k name r
  end.

(** The attribute the sites vote on. *)
Definition id_attr (movie : Movie) : string :=
  if truthy (of_opt (mv_dvdid movie)) then "dvdid" else "cid".

Fixpoint id_weight (movie : Movie) (all_info : list (string * MovieInfo))
  (g : list (pyval * list string)) : result (list (pyval * list string)) :=
  match all_info with
  | [] => Ok g
  | (name, data) :: r =>
      if truthy (getattr data "title") then
        let k := getattr data (id_attr movie) in
        if hashable k then id_weight movie r (setdefault_append k name g)
        else Raise TypeError
      else id_weight movie r g
  end.

(** [sorted(..., key=lambda x: len(x[1]), reverse=True)]: stable, so
    groups of equal size keep their order. *)
Fixpoint insert_desc (x : pyval * list string)
  (l : list (pyval * list string)) : list (pyval * list string) :=
  match l with
  | [] => [x]
  | y :: r =>
      if (length y.2 <=? length x.2)%nat then x :: y :: r
      else y :: insert_desc x r
  end.

Definition sorted_desc (l : list (pyval * list string))
  : list (pyval * list string) :=
  foldr insert_desc [] l.

Definition respect_avid (movie : Movie)
  (all_info : list (string * MovieInfo)) (fin : MovieInfo)
  : result MovieInfo :=
  if respect_site_avid cfg then
    g ← id_weight movie all_info [];
    match sorted_desc g with
    | [] => Ok fin
    | (final_id, _) :: _ => Ok (setattr fin (id_attr movie) final_id)
    end
  else Ok fin.

(** *** Covers *)

Definition javdb_cover (all_info : list (string * MovieInfo)) : pyval :=
  match dict_get "javdb" all_info with
  | Some data => getattr data "cover"
  | None => PNone
  end.

Definition adjust_covers (x : pyval) (cs : list pyval)
  : result (list pyval) :=
  if is_none x then Ok cs
  else match use_javdb_cover cfg with
       | UseJavDBCover.fallback => cs' ← list_remove x cs; Ok (cs' ++ [x])
       | UseJavDBCover.no => list_remove x cs
       | UseJavDBCover.yes => Ok cs
       end.

Definition set_covers (fin : MovieInfo) (cs bcs : list pyval) : MovieInfo :=
  let f1 := setattr (setattr fin "covers" (PList cs)) "big_covers" (PList bcs) in
  let f2 := match cs with c :: _ => setattr f1 "cover" c | [] => f1 end in
  match bcs with c :: _ => setattr f2 "big_cover" c | [] => f2 end.

(** *** Tags and aliases *)

(** [final_info.genre.append(tag)]. *)
Definition genre_append (tag : string) (fin : MovieInfo) : result MovieInfo :=
  match getattr fin "genre" with
  | PList l => Ok (setattr fin "genre" (PList (l ++ [PStr tag])))
  | _ => Raise AttributeError
  end.

Definition fix_genre (movie : Movie) (fin : MovieInfo) : result MovieInfo :=
  let f0 := if is_none (getattr fin "genre")
            then setattr fin "genre" (PList []) else fin in
  f1 ← (if mv_hard_sub movie then genre_append TAG_HARD_SUB f0 else Ok f0);
  if mv_uncensored movie then genre_append TAG_UNCENSORED f1 else Ok f1.

(** Iterating a value. *)
Definition py_iter (v : pyval) : result (list pyval) :=
  match v with
  | PList l => Ok l
  | PStr s => Ok (map PStr (code_points s))
  | PDict d => Ok (map (fun kv => PStr kv.1) d)
  | _ => Raise TypeError
  end.

Definition fix_aliases (fin : MovieInfo) : result MovieInfo :=
  if normalize_actress_name cfg && truthy (getattr fin "actress_pics") then
    l ← py_iter (getattr fin "actress");
    let f1 := setattr fin "actress" (PList (map resolve_alias_val l)) in
    match getattr f1 "actress_pics" with
    | PDict d =>
        Ok (setattr f1 "actress_pics"
              (PDict (foldl (fun acc kv => dict_set (resolve_alias kv.1) kv.2 acc)
                            [] d)))
    | _ => Raise AttributeError
    end
  else Ok fin.

(** *** The whole merge *)

(** Everything before the check of the required fields. *)
Definition merged_info (movie : Movie) (all_info : list (string * MovieInfo))
  : result MovieInfo :=
  let fin0 := seed_genre all_info (MovieInfo_of_movie movie) in
  let all_info' := strip_titles all_info in
  let st := absorb_all all_info'
              {| final_info := fin0; covers := []; big_covers := [] |} in
  fin1 ← respect_avid movie all_info' (final_info st);
  cs ← adjust_covers (javdb_cover all_info') (covers st);
  let fin2 := set_covers fin1 cs (big_covers st) in
  fin3 ← fix_genre movie fin2;
  fix_aliases fin3.

(** The loop over [required_keys]: the first empty one ends it. *)
Fixpoint has_required (keys : list string) (fin : MovieInfo) : bool :=
  match keys with
  | [] => true
  | attr :: r => if negb (truthy (getattr fin attr)) then false
                 else has_required r fin
  end.

Definition info_summary (movie : Movie) (all_info : list (string * MovieInfo))
  : result (bool * Movie) :=
  fin ← merged_info movie all_info;
  if has_required (required_keys cfg) fin
  then Ok (true, set_info movie (Some fin))
  else Ok (false, movie).

End Reconciler.

(** ** The Orchestrator: [parallel_crawler] *)

(** How one call [parser(info)] ends: it returns, or raises an exception
    that one of the handlers of [wrapper] catches. *)
Inductive outcome :=
| Returned
| MovieNotFoundError
| MovieDuplicateError
| SiteAccessError      (* SiteBlocked, SitePermissionError, CredentialError *)
| RequestException
| OtherException.

#[global] Instance outcome_eqdec : EqDecision outcome.
Proof. solve_decision. Defined.

(** A site adapter ([parse_data] of a module under [javsp.web]): the
    record as the call number [cnt] leaves it, and how the call ends. *)
Definition Adapter : Type := nat -> MovieInfo -> MovieInfo * outcome.

(** The loop [for cnt in range(retry)], from attempt [cnt] with [left]
    attempts to go.  Returns the record and the outcome of every call
    made, oldest first. *)
Fixpoint wrapper_from (parser : Adapter) (cnt left : nat) (info : MovieInfo)
  : MovieInfo * list outcome :=
  match left with
  | O => (info, [])
  | S left' =>
      let '(info', o) := parser cnt info in
      match o with
      | Returned => (setattr info' "success" (PBool true), [o])
      | MovieNotFoundError | MovieDuplicateError | SiteAccessError =>
          (info', [o])
      | RequestException | OtherException =>
          let '(info'', os) := wrapper_from parser (S cnt) left' info' in
          (info'', o :: os)
      end
  end.

Definition wrapper (parser : Adapter) (info : MovieInfo) (retry : nat)
  : MovieInfo * list outcome :=
  wrapper_from parser 0 retry info.

(** The logging call of each handler. *)
Inductive loglevel := LDebug | LError | LException.

Definition logged (o : outcome) : loglevel :=
  match o with
  | Returned | MovieNotFoundError | RequestException => LDebug
  | SiteAccessError => LError
  | MovieDuplicateError | OtherException => LException
  end.

(** [selection k] is [Cfg().crawler.selection[k]], for the kinds of
    item the selection has a list for (its class is not among the
    sources; the lookup is taken to return); [network_retry] is
    [Cfg().network.retry]. *)
Record CrawlCfg := {
  selection : string -> list string;
  network_retry : nat;
}.

Section Orchestrator.
(** [parse_data] and the presence of [parse_data_raw] for each module
    of [sys.modules]. *)
Variable parse_data : string -> Adapter.
Variable has_parse_data_raw : string -> bool.
Variable cfg : CrawlCfg.

Definition second_try (movie : Movie) : bool :=
  bool_decide (mv_data_src movie = "cid") && truthy (of_opt (mv_dvdid movie)).

(** Lines 173-182: one fresh record per configured crawler. *)
Definition init_all_info (movie : Movie) : list (string * MovieInfo) :=
  let all_info :=
    foldl (fun d i => dict_set i (MovieInfo_of_movie movie) d) []
          (selection cfg (mv_data_src movie)) in
  if second_try movie then
    foldl (fun d i => dict_set i (MovieInfo_of_dvdid (mv_dvdid movie)) d)
          (map (fun kv => (kv.1, setattr kv.2 "dvdid" PNone)) all_info)
          (selection cfg "normal")
  else all_info.

(** Lines 183-199: every worker writes the record it was handed and no
    other, so the threads are run one after the other; the records are
    read once all of them are done: every thread is taken to end
    before its [join] times out.  [parse_data] stands for the functions
    that line 186 finds; the lookups themselves are those of
    [start_workers] below. *)
Definition run_worker (kv : string * MovieInfo) : string * MovieInfo :=
  let retry := if has_parse_data_raw kv.1 then 1 else network_retry cfg in
  (kv.1, (wrapper (parse_data kv.1) kv.2 retry).1).

Definition run_workers (all_info : list (string * MovieInfo))
  : list (string * MovieInfo) :=
  map run_worker all_info.

(** [[all_info[i].title for i in keys]]. *)
Fixpoint titles_of (all_info : list (string * MovieInfo)) (keys : list string)
  : result (list pyval) :=
  match keys with
  | [] => Ok []
  | i :: r =>
      match dict_get i all_info with
      | Some data => ts ← titles_of all_info r; Ok (getattr data "title" :: ts)
      | None => Raise KeyError
      end
  end.

(** Lines 200-210. *)
Definition update_data_src (movie : Movie)
  (all_info : list (string * MovieInfo))
  : result (Movie * list (string * MovieInfo)) :=
  if second_try movie then
    titles ← titles_of all_info (selection cfg (mv_data_src movie));
    if existsb truthy titles then
      Ok (set_ids movie None (mv_cid movie) (mv_data_src movie),
          filter (fun kv => kv.1 ∈ selection cfg "cid") all_info)
    else
      Ok (set_ids movie (mv_dvdid movie) None "normal",
          filter (fun kv => kv.1 ∉ selection cfg "cid") all_info)
  else Ok (movie, all_info).

(** Lines 211-214. *)
Definition drop_failed (all_info : list (string * MovieInfo))
  : list (string * MovieInfo) :=
  map (fun kv => (kv.1, delattr kv.2 "success"))
      (filter (fun kv => hasattr kv.2 "success" = true) all_info).

(** Lines 215-216: [{k[4:]: v for k, v in all_info.items()}]. *)
Definition strip_keys (all_info : list (string * MovieInfo))
  : list (string * MovieInfo) :=
  foldl (fun d kv => dict_set (str_drop 4 kv.1) kv.2 d) [] all_info.

Definition parallel_crawler (movie : Movie)
  : result (Movie * list (string * MovieInfo)) :=
  let joined := run_workers (init_all_info movie) in
  '(movie', kept) ← update_data_src movie joined;
  Ok (movie', strip_keys (drop_failed kept)).

End Orchestrator.

(** ** The Namer: [generate_names] *)

(** *** Strings *)

Definition newline : ascii := ascii_of_nat 10.

(** [''.join(c for c in path if c not in {'\n'})]. *)
Fixpoint legalize_path (path : string) : string :=
  match path with
  | EmptyString => EmptyString
  | String c r =>
      if decide (c = newline) then legalize_path r
      else String c (legalize_path r)
  end.

(** [s[:stop]]: a negative [stop] counts from the end. *)
Definition py_slice_to (s : string) (stop : Z) : string :=
  if (0 <=? stop)%Z then str_take (Z.to_nat stop) s
  else str_take (Z.to_nat (Z.of_nat (str_len s) + stop)) s.

(** [str.upper] on the characters below 128; the bytes of the other
    characters are left as they are, so the model is that of
    [str.upper] for labels whose cased letters are all below 128. *)
Definition upper_char (c : ascii) : ascii :=
  let n := nat_of_ascii c in
  if ((97 <=? n) && (n <=? 122))%nat then ascii_of_nat (n - 32) else c.

Fixpoint upper (s : string) : string :=
  match s with
  | EmptyString => EmptyString
  | String c r => String (upper_char c) (upper r)
  end.

(** [s.replace(old, '')]; [skip] characters of a match are still to be
    dropped. *)
Fixpoint remove_all_from (old : string) (skip : nat) (s : string) : string :=
  match s with
  | EmptyString => EmptyString
  | String c r =>
      match skip with
      | S k => remove_all_from old k r
      | O => if String.prefix old s
             then remove_all_from old (String.length old - 1) r
             else String c (remove_all_from old 0 r)
      end
  end.

Definition remove_all (old s : string) : string :=
  if decide (old = EmptyString) then s else remove_all_from old 0 s.

(** The strings of a list, [TypeError] when an element is no string. *)
Fixpoint strs_of (l : list pyval) : result (list string) :=
  match l with
  | [] => Ok []
  | PStr s :: r => ss ← strs_of r; Ok (s :: ss)
  | _ :: _ => Raise TypeError
  end.

(** [len(v)]. *)
Definition py_len (v : pyval) : result nat :=
  match v with
  | PList l => Ok (length l)
  | PStr s => Ok (str_len s)
  | PDict d => Ok (length d)
  | _ => Raise TypeError
  end.

(** [''.join(v[:n])] for [0 <= n]. *)
Definition join_prefix (v : pyval) (n : nat) : result string :=
  match v with
  | PList l => ss ← strs_of (take n l); Ok (join "" ss)
  | PStr s => Ok (str_take n s)
  | _ => Raise TypeError
  end.

(** [max(l, key=len)]: the first of the longest. *)
Definition longest (x : string) (l : list string) : string :=
  foldl (fun best y =>
           if (str_len best <? str_len y)%nat then y else best)
        x l.

(** *** The surroundings *)

(** Modelled from the spec: the dictionary of [MovieInfo.get_info_dic]
    ([javsp.datatype] is not part of the sources at hand): the string
    conversions of all display fields.  The keys [generate_names] itself
    reads or writes are fields, the other ones are in [d_rest]. *)
Record InfoDic := {
  d_num : string;
  d_title : string;
  d_rawtitle : string;
  d_actress : string;
  d_label : string;
  d_rest : list (string * string);
}.

Definition map_dic (f : string -> string) (d : InfoDic) : InfoDic :=
  {| d_num := f (d_num d); d_title := f (d_title d);
     d_rawtitle := f (d_rawtitle d); d_actress := f (d_actress d);
     d_label := f (d_label d);
     d_rest := map (fun kv => (kv.1, f kv.2)) (d_rest d) |}.

Definition with_actress (d : InfoDic) (v : string) : InfoDic :=
  {| d_num := d_num d; d_title := d_title d; d_rawtitle := d_rawtitle d;
     d_actress := v; d_label := d_label d; d_rest := d_rest d |}.

Definition with_num (d : InfoDic) (v : string) : InfoDic :=
  {| d_num := v; d_title := d_title d; d_rawtitle := d_rawtitle d;
     d_actress := d_actress d; d_label := d_label d; d_rest := d_rest d |}.

Definition with_title (d : InfoDic) (v : string) : InfoDic :=
  {| d_num := d_num d; d_title := v; d_rawtitle := d_rawtitle d;
     d_actress := d_actress d; d_label := d_label d; d_rest := d_rest d |}.

Definition with_rawtitle (d : InfoDic) (v : string) : InfoDic :=
  {| d_num := d_num d; d_title := d_title d; d_rawtitle := v;
     d_actress := d_actress d; d_label := d_label d; d_rest := d_rest d |}.

(** The functions of [os.path]; they depend on the platform and on the
    working directory. *)
Record OsPath := {
  normpath : string -> string;
  abspath : string -> string;
  path_join : string -> string -> string;
  dirname : string -> string;
  basename : string -> string;
  splitext_ext : string -> string;     (* [os.path.splitext(p)[1]] *)
}.

(** The helpers of [javsp.file], [javsp.func] and [javsp.datatype]. *)
Record JavspLib := {
  get_info_dic : MovieInfo -> InfoDic;
  replace_illegal_chars : string -> string;
  split_by_punc : string -> list string;
  get_remaining_path_len : string -> Z;
}.

(** The configuration of the summarizer; a pattern stands for
    the function that formats it with a dictionary, as [str.format]
    does for a pattern that names keys of the dictionary only (it
    raises [KeyError] for another). *)
Record NameCfg := {
  max_actress_count : nat;
  default_actress : string;
  move_files : bool;
  nfo_title_pattern : InfoDic -> string;
  output_folder_pattern : InfoDic -> string;
  basename_pattern : InfoDic -> string;
  nfo_basename_pattern : InfoDic -> string;
  fanart_basename_pattern : InfoDic -> string;
  cover_basename_pattern : InfoDic -> string;
}.

(** How the two loops end: with the first combination that fits, or
    with the dictionary and the budget of the last one tried. *)
Inductive search :=
| Accepted (save_dir base : string) (copyd : InfoDic)
| Exhausted (copyd : InfoDic) (remaining : option Z).

Section Namer.
Variable os : OsPath.
Variable lib : JavspLib.
Variable cfg : NameCfg.

Definition ELLIPSIS : string := "…".

(** Lines 351-356: the people of the title, cut to the configured
    count. *)
Definition actress_field (actress : pyval) : result string :=
  if truthy actress then
    n ← py_len actress;
    if (max_actress_count cfg <? n)%nat then
      match actress with
      | PList l =>
          ss ← strs_of (take (max_actress_count cfg) l ++ [PStr ELLIPSIS]);
          Ok (join "," ss)
      | _ => Raise TypeError
      end
    else
      match actress with
      | PList l => ss ← strs_of l; Ok (join "," ss)
      | PStr s => Ok (join "," (code_points s))
      | PDict d => Ok (join "," (map fst d))
      | _ => Raise TypeError
      end
  else Ok (default_actress cfg).

(** The directory and the base name for a dictionary; [f0] is
    [movie.files[0]]. *)
Definition render (f0 : string) (copyd : InfoDic) : string * string :=
  if move_files cfg then
    (strip (normpath os (output_folder_pattern cfg copyd)),
     strip (normpath os (basename_pattern cfg copyd)))
  else
    let filebasename := basename os f0 in
    let ext := splitext_ext os filebasename in
    (dirname os f0, remove_all ext filebasename).

(** The budget left for [long_path]. *)
Definition remaining_of (longest_ext : string) (p : string * string) : Z :=
  get_remaining_path_len lib
    (abspath os (path_join os p.1 (p.2 +:+ longest_ext))).

(** [range(n, 0, -1)]. *)
Definition countdown (n : nat) : list nat := rev (seq 1 n).

(** Lines 399-418. *)
Fixpoint inner_loop (f0 longest_ext : string) (title_break : pyval)
  (sub_ends : list nat) (copyd : InfoDic) (remaining : option Z)
  : result search :=
  match sub_ends with
  | [] => Ok (Exhausted copyd remaining)
  | sub_end :: r =>
      t ← join_prefix title_break sub_end;
      let copyd' := with_title copyd (replace_illegal_chars lib (strip t)) in
      let p := render f0 copyd' in
      let rem := remaining_of longest_ext p in
      if (0 <? rem)%Z then Ok (Accepted p.1 p.2 copyd')
      else inner_loop f0 longest_ext title_break r copyd' (Some rem)
  end.

(** Lines 397-418. *)
Fixpoint outer_loop (f0 longest_ext : string)
  (title_break ori_title_break : pyval)
  (ends : list nat) (copyd : InfoDic) (remaining : option Z)
  : result search :=
  match ends with
  | [] => Ok (Exhausted copyd remaining)
  | e :: r =>
      t ← join_prefix ori_title_break e;
      let copyd' := with_rawtitle copyd (replace_illegal_chars lib (strip t)) in
      n ← py_len title_break;
      res ← inner_loop f0 longest_ext title_break (countdown n) copyd' remaining;
      match res with
      | Accepted _ _ _ => Ok res
      | Exhausted c rem =>
          outer_loop f0 longest_ext title_break ori_title_break r c rem
      end
  end.

(** Lines 413-417 and 432-437. *)
Definition assign (m : Movie) (save_dir base : string) (copyd : InfoDic)
  : Movie :=
  set_paths m (Some save_dir) (Some base)
    (Some (path_join os save_dir (nfo_basename_pattern cfg copyd +:+ ".nfo")))
    (Some (path_join os save_dir (fanart_basename_pattern cfg copyd +:+ ".jpg")))
    (Some (path_join os save_dir (cover_basename_pattern cfg copyd +:+ ".jpg"))).

(** Lines 380-393. *)
Definition legalize_info (m : Movie) : Movie :=
  set_paths m (legalize_path <$> mv_save_dir m) (mv_basename m)
    (legalize_path <$> mv_nfo_file m)
    (legalize_path <$> mv_fanart_file m)
    (legalize_path <$> mv_poster_file m).

(** The chunks of a title: the attribute the translator left, or the
    title split at its punctuation. *)
Definition chunks (info : MovieInfo) (attr : string) (title : string)
  : pyval :=
  match info !! attr with
  | Some v => v
  | None => PList (PStr <$> split_by_punc lib title)
  end.

(** Lines 420-431: the titles cut by the last budget. *)
Definition hard_cut (c : InfoDic) (remaining : Z) : InfoDic :=
  let c1 := with_title c (py_slice_to (d_title c) remaining) in
  with_rawtitle c1 (py_slice_to (d_rawtitle c1) remaining).

(** Lines 347-366: the dictionary of the templates, and the record with
    its [label] and [nfo_title]. *)
Definition prepare (info : MovieInfo) : result (MovieInfo * InfoDic) :=
  let d := get_info_dic lib info in
  a ← actress_field (getattr info "actress");
  let d := with_actress d a in
  let info := setattr info "label" (PStr (upper (d_label d))) in
  let d := map_dic (fun v => replace_illegal_chars lib (strip v)) d in
  let info := setattr info "nfo_title" (PStr (nfo_title_pattern cfg d)) in
  Ok (info, d).

(** Lines 397-439: the search, then the plan. *)
Definition fit (movie : Movie) (f0 longest_ext : string)
  (title_break ori_title_break : pyval) (copyd : InfoDic) : result Movie :=
  n ← py_len ori_title_break;
  res ← outer_loop f0 longest_ext title_break ori_title_break
          (countdown n) copyd None;
  match res with
  | Accepted save_dir base c =>
      Ok (legalize_info (assign movie save_dir base c))
  | Exhausted c None => Raise UnboundLocalError
  | Exhausted c (Some remaining) =>
      let c' := hard_cut c remaining in
      let p := render f0 c' in
      Ok (legalize_info (assign movie p.1 p.2 c'))
  end.

Definition generate_names (movie : Movie) : result Movie :=
  match mv_info movie with
  | None => Raise AttributeError
  | Some info =>
      '(info', d) ← prepare info;
      let title_break := chunks info' "title_break" (d_title d) in
      let ori_title_break := chunks info' "ori_title_break" (d_rawtitle d) in
      let copyd := with_num d (d_num d +:+ mv_attr_str movie) in
      match mv_files movie with
      | [] => Raise ValueError
      | f0 :: fs =>
          let longest_ext :=
            longest (splitext_ext os f0) (map (splitext_ext os) fs) in
          fit (set_info movie (Some info')) f0 longest_ext
              title_break ori_title_break copyd
      end
  end.

End Namer.

(** ** Notions of the design document *)

(** The values of attribute [a] over the sources, in priority order. *)
Definition values_of (a : string) (all_info : list (string * MovieInfo))
  : list pyval :=
  map (fun nd => getattr nd.2 a) all_info.

(** The value of the first source that has a non-empty one. *)
Definition first_nonempty (a : string) (all_info : list (string * MovieInfo))
  : option pyval :=
  List.find truthy (values_of a all_info).

(** The value of the first source that has a non-null one. *)
Definition first_nonnull (a : string) (all_info : list (string * MovieInfo))
  : option pyval :=
  List.find (fun v => negb (is_none v)) (values_of a all_info).

(** The rule of an ordinary field, and of the uncensored flag: what a
    field holding [c] becomes when a source offers [i]. *)
Definition pick (c i : pyval) : pyval :=
  if negb (truthy c) && truthy i then i else c.

Definition pick_flag (c i : pyval) : pyval :=
  if is_none c && negb (is_none i) then i else c.

(** The attributes that only the priority walk writes: not the covers,
    not the flag, not the tags, identifiers and people that other steps
    of the merge seed or rewrite. *)
Definition walk_only (a : string) : Prop :=
  a ∉ ["cover"; "big_cover"; "uncensored"; "genre"; "dvdid"; "cid";
       "actress"; "actress_pics"; "covers"; "big_covers"].

(** [r] holds every value of [l] once, in the order of first
    appearance in [l]. *)
Definition first_seen_of (l r : list pyval) : Prop :=
  NoDup r ∧ (∀ u, u ∈ r ↔ u ∈ l) ∧
  (∀ r1 u r2 v, r = r1 ++ u :: r2 → v ∈ r2 →
                ∃ l1 l2, l = l1 ++ u :: l2 ∧ v ∉ l1).

(** ** Sample inputs *)

Definition demo_attrs : list string :=
  ["actress"; "actress_pics"; "big_cover"; "cid"; "cover"; "director";
   "dvdid"; "genre"; "ori_title"; "plot"; "preview_pics"; "title";
   "uncensored"; "url"].

Definition demo_merge_cfg : MergeCfg :=
  {| remove_trailing_actor_name := false; respect_site_avid := true;
     use_javdb_cover := UseJavDBCover.fallback;
     normalize_actress_name := false;
     required_keys := ["cover"; "title"] |}.

Definition demo_movie : Movie :=
  {| mv_dvdid := Some "ABC-123"; mv_cid := None; mv_data_src := "normal";
     mv_hard_sub := false; mv_uncensored := false; mv_attr_str := "";
     mv_files := ["/videos/ABC-123.mp4"]; mv_info := None;
     mv_save_dir := None; mv_basename := None; mv_nfo_file := None;
     mv_fanart_file := None; mv_poster_file := None |}.

Definition record (l : list (string * pyval)) : MovieInfo := list_to_map l.

(** javbus is configured before javdb; both report tags and a cover. *)
Definition demo_sources : list (string * MovieInfo) :=
  [("javbus", record [("title", PStr "Foo Bar");
                      ("genre", PList [PStr "comedy"]);
                      ("cover", PStr "http://x/1.jpg");
                      ("dvdid", PStr "ABC-123")]);
   ("javdb", record [("title", PStr "Foo");
                     ("genre", PList [PStr "drama"]);
                     ("cover", PStr "http://y/2.jpg");
                     ("uncensored", PBool false);
                     ("dvdid", PStr "ABC-123")])].

(** The same two sources with javdb in front. *)
Definition demo_sources_javdb_first : list (string * MovieInfo) :=
  rev demo_sources.

Definition keep_title (title actress : pyval) : pyval := title.

(** The same configuration, with the identifier of the sites ignored. *)
Definition demo_merge_cfg_own_id : MergeCfg :=
  {| remove_trailing_actor_name := false; respect_site_avid := false;
     use_javdb_cover := UseJavDBCover.fallback;
     normalize_actress_name := false;
     required_keys := ["title"] |}.

(** Two sources that know the item under another identifier. *)
Definition demo_sources_other_id : list (string * MovieInfo) :=
  [("javbus", record [("title", PStr "Foo"); ("dvdid", PStr "ABC-124")]);
   ("javlib", record [("title", PStr "Foo"); ("dvdid", PStr "ABC-124")])].

(** The merged record of the two sources. *)
Definition demo_final : MovieInfo :=
  match merged_info demo_attrs keep_title [] demo_merge_cfg demo_movie
                    demo_sources with
  | Ok fin => fin
  | Raise _ => ∅
  end.

(** A value that passes [P] and is not yet in the list goes to its
    end. *)
Definition add_if (P : pyval -> bool) (cs : list pyval) (u : pyval)
  : list pyval :=
  if P u && negb (bool_decide (u ∈ cs)) then cs ++ [u] else cs.

(** The rule of a cover list: non-empty values only. *)
Definition add_new : list pyval -> pyval -> list pyval := add_if truthy.

(** The rule of the keys of [id_weight]: every value. *)
Definition add_key : list pyval -> pyval -> list pyval :=
  add_if (fun _ => true).

(** The values of the attribute [a], the standard identifier or the
    content id, returned by the sources that have a title, in priority
    order. *)
Definition titled_ids (a : string) (srcs : list (string * MovieInfo))
  : list pyval :=
  map (fun nd => getattr nd.2 a)
      (filter (fun nd => truthy (getattr nd.2 "title") = true) srcs).

(** The number of those sources that returned [v]. *)
Definition votes (v : pyval) (ids : list pyval) : nat :=
  length (filter (fun u => u = v) ids).

(** The number of names [id_weight] holds under the key [v]. *)
Definition weight (g : list (pyval * list string)) (v : pyval) : nat :=
  match List.find (fun kv => bool_decide (kv.1 = v)) g with
  | Some kv => length kv.2
  | None => 0
  end.

(** Three sources with a title; two of them agree on the identifier. *)
Definition demo_sources_ids : list (string * MovieInfo) :=
  [("javbus", record [("title", PStr "Foo"); ("dvdid", PStr "ABC-123")]);
   ("javdb", record [("title", PStr "Foo"); ("dvdid", PStr "ABC-124")]);
   ("javlib", record [("title", PStr "Foo"); ("dvdid", PStr "ABC-124")])].

Definition demo_final_ids : MovieInfo :=
  match merged_info demo_attrs keep_title [] demo_merge_cfg demo_movie
                    demo_sources_ids with
  | Ok fin => fin
  | Raise _ => ∅
  end.

(** An item that has a content id and no standard identifier, and
    three sources with a title, two of which agree on the content id. *)
Definition demo_cid_only_movie : Movie :=
  {| mv_dvdid := None; mv_cid := Some "abc00123"; mv_data_src := "cid";
     mv_hard_sub := false; mv_uncensored := false; mv_attr_str := "";
     mv_files := ["/videos/abc00123.mp4"]; mv_info := None;
     mv_save_dir := None; mv_basename := None; mv_nfo_file := None;
     mv_fanart_file := None; mv_poster_file := None |}.

Definition demo_sources_cids : list (string * MovieInfo) :=
  [("fanza", record [("title", PStr "Foo"); ("cid", PStr "abc00123");
                     ("dvdid", PStr "ABC-123")]);
   ("dmm", record [("title", PStr "Foo"); ("cid", PStr "abc00124");
                   ("dvdid", PStr "ABC-123")]);
   ("mgs", record [("title", PStr "Foo"); ("cid", PStr "abc00124");
                   ("dvdid", PStr "ABC-123")])].

Definition demo_final_cids : MovieInfo :=
  match merged_info demo_attrs keep_title [] demo_merge_cfg
                    demo_cid_only_movie demo_sources_cids with
  | Ok fin => fin
  | Raise _ => ∅
  end.

(** The handlers that end the loop of [wrapper]. *)
Definition terminal (o : outcome) : bool :=
  match o with
  | Returned | MovieNotFoundError | MovieDuplicateError | SiteAccessError => true
  | RequestException | OtherException => false
  end.

(** The record handed to the call number [cnt + i], when the call
    number [cnt] gets [info]. *)
Fixpoint handed (parser : Adapter) (cnt : nat) (info : MovieInfo) (i : nat)
  : MovieInfo :=
  match i with
  | O => info
  | S j => handed parser (S cnt) (parser cnt info).1 j
  end.

(** An adapter that fails once with an error of no known class, and
    then returns. *)
Definition flaky_parser : Adapter :=
  fun cnt info =>
    if (cnt =? 0)%nat then (info, OtherException)
    else (setattr info "title" (PStr "Foo"), Returned).

(** An adapter that fills in a title, and one that finds nothing. *)
Definition titled_parser (title : string) : Adapter :=
  fun cnt info => (setattr info "title" (PStr title), Returned).

Definition silent_parser : Adapter :=
  fun cnt info => (info, MovieNotFoundError).

Definition demo_crawl_cfg : CrawlCfg :=
  {| selection := fun src =>
       if decide (src = "cid") then ["fanza"]
       else if decide (src = "normal") then ["javbus"; "javdb"]
       else [];
     network_retry := 3 |}.

Definition no_raw (name : string) : bool := false.

(** An item of the content-id kind that has a standard identifier as
    well. *)
Definition demo_cid_movie : Movie :=
  {| mv_dvdid := Some "ABC-123"; mv_cid := Some "abc00123";
     mv_data_src := "cid";
     mv_hard_sub := false; mv_uncensored := false; mv_attr_str := "";
     mv_files := ["/videos/abc00123.mp4"]; mv_info := None;
     mv_save_dir := None; mv_basename := None; mv_nfo_file := None;
     mv_fanart_file := None; mv_poster_file := None |}.

(** The dictionary of the combination [(e, s)]: the raw title made of
    its first [e] chunks, the title of its first [s] chunks. *)
Definition dic_at (lib : JavspLib) (copyd : InfoDic)
  (raw_chunks title_chunks : list string) (e s : nat) : InfoDic :=
  with_title
    (with_rawtitle copyd
       (replace_illegal_chars lib (strip (join "" (take e raw_chunks)))))
    (replace_illegal_chars lib (strip (join "" (take s title_chunks)))).

(** [ext] is the first of the longest extensions: no extension before
    it is as long, none after it is longer. *)
Definition first_longest (ext : string) (exts : list string) : Prop :=
  ∃ l1 l2, exts = l1 ++ ext :: l2 ∧
           (∀ y, y ∈ l1 → str_len y < str_len ext) ∧
           (∀ y, y ∈ l2 → str_len y ≤ str_len ext).

(** The loops try [(e', s')] before [(e, s)]: more chunks of the raw
    title, or as many and more chunks of the title. *)
Definition before (n_raw n_title e' s' e s : nat) : Prop :=
  (e < e' ≤ n_raw ∧ 1 ≤ s' ≤ n_title) ∨ (e' = e ∧ s < s' ≤ n_title).

Fixpoint has_newline (s : string) : bool :=
  match s with
  | EmptyString => false
  | String c r => bool_decide (c = newline) || has_newline r
  end.

(** *** A sample of the surroundings of the Namer *)

(** The part of [s] before the last [c], and the part after it. *)
Fixpoint rsplit (c : ascii) (s : string) : option (string * string) :=
  match s with
  | EmptyString => None
  | String a r =>
      match rsplit c r with
      | Some (x, y) => Some (String a x, y)
      | None => if decide (a = c) then Some (EmptyString, r) else None
      end
  end.

Definition is_abs (p : string) : bool :=
  match p with String "/" _ => true | _ => false end.

Definition posix_basename (p : string) : string :=
  match rsplit "/" p with Some (_, b) => b | None => p end.

(** [posixpath], for paths that are normal already. *)
Definition demo_os : OsPath :=
  {| normpath := fun p => p;
     abspath := fun p => if is_abs p then p else "/work/" +:+ p;
     path_join := fun a b =>
       if is_abs b then b
       else if decide (a = EmptyString) then b else a +:+ "/" +:+ b;
     dirname := fun p =>
       match rsplit "/" p with
       | Some (EmptyString, _) => "/"
       | Some (d, _) => d
       | None => EmptyString
       end;
     basename := posix_basename;
     splitext_ext := fun p =>
       match rsplit "." (posix_basename p) with
       | Some (EmptyString, _) | None => EmptyString
       | Some (_, e) => "." +:+ e
       end |}.

Definition str_of (v : pyval) : string :=
  match v with PStr s => s | _ => EmptyString end.

(** Chunks that end after each space. *)
Fixpoint split_after_space (s : string) : list string :=
  match s with
  | EmptyString => [EmptyString]
  | String a r =>
      match split_after_space r with
      | x :: xs =>
          if decide (a = " "%char)
          then String a EmptyString ::
               (if decide (x = EmptyString) then xs else x :: xs)
          else String a x :: xs
      | [] => [String a EmptyString]
      end
  end.

Fixpoint replace_slash (s : string) : string :=
  match s with
  | EmptyString => EmptyString
  | String a r =>
      if decide (a = "/"%char) then String "_" (replace_slash r)
      else String a (replace_slash r)
  end.

(** A sample of the helpers: paths of less than [limit] characters
    fit. *)
Definition demo_lib (limit : Z) : JavspLib :=
  {| get_info_dic := fun info =>
       {| d_num := str_of (getattr info "dvdid");
          d_title := str_of (getattr info "title");
          d_rawtitle :=
            (if truthy (getattr info "ori_title")
             then str_of (getattr info "ori_title")
             else str_of (getattr info "title"));
          d_actress := EmptyString;
          d_label := str_of (getattr info "label");
          d_rest := [] |};
     replace_illegal_chars := replace_slash;
     split_by_punc := split_after_space;
     get_remaining_path_len := fun p => (limit - Z.of_nat (String.length p))%Z |}.

(** The patterns ["/out/{num}"], ["{num} {title}"], ["{num}"],
    ["{num}-fanart"] and ["{num}-poster"]. *)
Definition demo_name_cfg (move : bool) : NameCfg :=
  {| max_actress_count := 2;
     default_actress := "unknown";
     move_files := move;
     nfo_title_pattern := fun d => d_num d +:+ " " +:+ d_title d;
     output_folder_pattern := fun d => "/out/" +:+ d_num d;
     basename_pattern := fun d => d_num d +:+ " " +:+ d_title d;
     nfo_basename_pattern := fun d => d_num d;
     fanart_basename_pattern := fun d => d_num d +:+ "-fanart";
     cover_basename_pattern := fun d => d_num d +:+ "-poster" |}.

Definition with_title_info (m : Movie) (title : string) : Movie :=
  set_info m (Some (record [("dvdid", PStr "ABC-123");
                            ("title", PStr title)])).

(** An item with a title of four chunks. *)
Definition demo_named_movie : Movie :=
  with_title_info demo_movie "Foo Bar Baz Quux".

(** The same item with a second, longer-named file beside the video. *)
Definition demo_two_files : Movie :=
  {| mv_dvdid := Some "ABC-123"; mv_cid := None; mv_data_src := "normal";
     mv_hard_sub := false; mv_uncensored := false; mv_attr_str := "";
     mv_files := ["/videos/ABC-123.mp4"; "/videos/ABC-123.torrent"];
     mv_info := Some (record [("dvdid", PStr "ABC-123");
                              ("title", PStr "Foo Bar Baz Quux")]);
     mv_save_dir := None; mv_basename := None; mv_nfo_file := None;
     mv_fanart_file := None; mv_poster_file := None |}.

(** An item whose title has a line break in it. *)
Definition demo_newline_movie : Movie :=
  with_title_info demo_movie ("Foo" +:+ String newline "Bar").

(** An item whose translated title came with an empty list of
    chunks. *)
Definition demo_no_chunks : Movie :=
  set_info demo_movie
    (Some (record [("dvdid", PStr "ABC-123"); ("title", PStr "Foo");
                   ("title_break", PList [])])).

(** An item whose file has a line break in its name. *)
Definition demo_newline_file : Movie :=
  {| mv_dvdid := Some "ABC-123"; mv_cid := None; mv_data_src := "normal";
     mv_hard_sub := false; mv_uncensored := false; mv_attr_str := "";
     mv_files := ["/videos/Foo" +:+ String newline "Bar.mp4"];
     mv_info := Some (record [("dvdid", PStr "ABC-123");
                              ("title", PStr "Foo")]);
     mv_save_dir := None; mv_basename := None; mv_nfo_file := None;
     mv_fanart_file := None; mv_poster_file := None |}.

(** The record and the dictionary of the item of four chunks. *)
Definition demo_prepared : MovieInfo * InfoDic :=
  match prepare (demo_lib 38) (demo_name_cfg true)
                (record [("dvdid", PStr "ABC-123");
                         ("title", PStr "Foo Bar Baz Quux")]) with
  | Ok p => p
  | Raise _ => (∅, {| d_num := ""; d_title := ""; d_rawtitle := "";
                     d_actress := ""; d_label := ""; d_rest := [] |})
  end.

Definition demo_chunks : list string := ["Foo "; "Bar "; "Baz "; "Quux"].

(** [s] without its last [n] code points. *)
Definition all_but_last (n : nat) (s : string) : string :=
  join "" (take (str_len s - n) (code_points s)).

(** A title cut by a budget that is not positive: emptied when the
    budget is [0], without its last [-remaining] code points
    otherwise. *)
Definition cut_by (remaining : Z) (s : string) : string :=
  if decide (remaining = 0%Z) then EmptyString
  else all_but_last (Z.to_nat (- remaining)) s.

(** ** The cover on disk: [get_pic_path], [download_cover] *)

Fixpoint contains_char (c : ascii) (s : string) : bool :=
  match s with
  | EmptyString => false
  | String a r => bool_decide (a = c) || contains_char c r
  end.

(** [s.split(c)[-1]]: what comes after the last [c], all of [s] when
    there is none. *)
Fixpoint last_piece (c : ascii) (s : string) : string :=
  match s with
  | EmptyString => EmptyString
  | String a r =>
      if contains_char c r then last_piece c r
      else if decide (a = c) then r else s
  end.

(** [s.split(c)[0]]: what comes before the first [c]. *)
Fixpoint first_piece (c : ascii) (s : string) : string :=
  match s with
  | EmptyString => EmptyString
  | String a r =>
      if decide (a = c) then EmptyString else String a (first_piece c r)
  end.

(** How the body of one [try] ends, [download(url, pic_path)] followed
    by [valid_pic(pic_path)] and, for a high-resolution cover, the log
    line about the picture: with a valid picture, with an invalid one,
    or with an exception, which is an [HTTPError] or not. *)
Inductive fetched := PicValid | PicInvalid | PicHTTPError | PicError.

(** How the attempts at one address end. *)
Inductive attempt := Got | GiveUp | Propagate.

(** What [download_cover] gives: the address and the path of the
    picture, [None], or an exception that it does not catch. *)
Inductive cover_dl :=
| Downloaded (url pic_path : string)
| NoCover
| DlRaised.

Section Covers.
(** [splitext_root] is [os.path.splitext(p)[0]]; [download n] is the
    call number [n] of the run; [retry] is [Cfg().network.retry]. *)
Variable splitext_root : string -> string.
Variable download : nat -> string -> string -> fetched.
Variable retry : nat.

Definition get_pic_path (fanart_path url : string) : string :=
  let fanart_base := splitext_root fanart_path in
  let pic_extend := last_piece "." url in
  let pic_extend :=
    if contains_char "?" pic_extend then first_piece "?" pic_extend
    else pic_extend in
  fanart_base +:+ "." +:+ pic_extend.

(** The attempts at a high-resolution cover: an invalid picture is tried
    again, an [HTTPError] ends the attempts, any other exception leaves
    the function.  [n] calls were made so far. *)
Fixpoint try_big_cover (url pic_path : string) (n left : nat)
  : attempt * nat :=
  match left with
  | O => (GiveUp, n)
  | S left' =>
      match download n url pic_path with
      | PicValid => (Got, S n)
      | PicInvalid => try_big_cover url pic_path (S n) left'
      | PicHTTPError => (GiveUp, S n)
      | PicError => (Propagate, S n)
      end
  end.

(** The attempts at a cover: an invalid picture ends them, every
    exception is caught and the download tried again. *)
Fixpoint try_cover (url pic_path : string) (n left : nat) : attempt * nat :=
  match left with
  | O => (GiveUp, n)
  | S left' =>
      match download n url pic_path with
      | PicValid => (Got, S n)
      | PicInvalid => (GiveUp, S n)
      | PicHTTPError | PicError => try_cover url pic_path (S n) left'
      end
  end.

(** The loop over the candidates; a candidate that is no string, or a
    path that is [None], makes [get_pic_path] raise. *)
Fixpoint covers_loop (try : string -> string -> nat -> nat -> attempt * nat)
  (fanart_path : option string) (urls : list pyval) (n : nat)
  : cover_dl * nat :=
  match urls with
  | [] => (NoCover, n)
  | PStr url :: r =>
      match fanart_path with
      | Some f =>
          let pic_path := get_pic_path f url in
          match try url pic_path n retry with
          | (Got, n') => (Downloaded url pic_path, n')
          | (GiveUp, n') => covers_loop try fanart_path r n'
          | (Propagate, n') => (DlRaised, n')
          end
      | None => (DlRaised, n)
      end
  | _ :: _ => (DlRaised, n)
  end.

(** The result, and the number of calls of [download]. *)
Definition download_cover (covers : list pyval) (fanart_path : option string)
  (big_covers : list pyval) : cover_dl * nat :=
  match covers_loop try_big_cover fanart_path big_covers 0 with
  | (NoCover, n) => covers_loop try_cover fanart_path covers n
  | r => r
  end.

End Covers.

(** ** The scanner of [tools/video_scanner.py] *)

(** The wrapper of [retry_on_error]: the loop
    [while retries < max_retries], with [left] for
    [max_retries - retries].  [func i] is how the call number [i] of the
    function ends, with the value it returns or the [Exception] it
    raises; [none] is [None], a value like any other, which the wrapper
    returns when the loop ends without a call.  The wrapper returns or
    raises in its turn; the number of calls comes with the result. *)
Fixpoint retry_from {A E} (none : A) (func : nat -> A + E)
  (retries left : nat) : (A + E) * nat :=
  match left with
  | O => (inl none, retries)
  | S left' =>
      match func retries with
      | inl a => (inl a, S retries)
      | inr e =>
          if decide (left' = 0) then (inr e, S retries)
          else retry_from none func (S retries) left'
      end
  end.

Definition retry_on_error {A E} (none : A) (max_retries : nat)
  (func : nat -> A + E) : (A + E) * nat :=
  retry_from none func 0 max_retries.

(** [s.strip(c)] for one character [c]. *)
Fixpoint lstrip_char (c : ascii) (s : string) : string :=
  match s with
  | String a r => if decide (a = c) then lstrip_char c r else s
  | EmptyString => EmptyString
  end.

Fixpoint rstrip_char (c : ascii) (s : string) : string :=
  match s with
  | EmptyString => EmptyString
  | String a r =>
      match rstrip_char c r with
      | EmptyString =>
          if decide (a = c) then EmptyString else String a EmptyString
      | r' => String a r'
      end
  end.

Definition strip_char (c : ascii) (s : string) : string :=
  rstrip_char c (lstrip_char c s).

(** [VideoScanner._should_ignore_folder]. *)
Definition _should_ignore_folder (ignored_folders : list string)
  (folder_name : string) : bool :=
  existsb (fun pattern => String.prefix (strip_char "^" pattern) folder_name)
          ignored_folders.

(** ** The notifier of [javsp/telegram_notify.py] *)

(** [s.replace(c, by)] for one character [c]. *)
Fixpoint replace_char (c : ascii) (by_ : string) (s : string) : string :=
  match s with
  | EmptyString => EmptyString
  | String a r =>
      if decide (a = c) then by_ +:+ replace_char c by_ r
      else String a (replace_char c by_ r)
  end.

(** [html.escape(s, quote=False)]: the three replacements of the
    standard library, in its order. *)
Definition html_escape (text : string) : string :=
  replace_char ">" "&gt;" (replace_char "<" "&lt;" (replace_char "&" "&amp;" text)).

(** [_escape_html] on any value: only a string has [replace]. *)
Definition _escape_html (v : pyval) : result string :=
  match v with
  | PStr s => Ok (html_escape s)
  | _ => Raise AttributeError
  end.

Record TelegramCfg := {
  tg_enabled : bool;
  tg_token : option string;
  tg_chat_id : option string;
  tg_proxy : option string;
  tg_send_cover : bool;
  tg_notification_level : string;
}.

Record TelegramNotifier := {
  n_enabled : bool;
  n_token : option string;
  n_chat_id : option string;
  n_proxy : option string;
  n_send_cover : bool;
  n_notification_level : string;
}.

Definition truthy_opt (o : option string) : bool := truthy (of_opt o).

(** [TelegramNotifier.__init__]. *)
Definition TelegramNotifier_init (c : TelegramCfg) : TelegramNotifier :=
  {| n_enabled :=
       if tg_enabled c then
         if negb (truthy_opt (tg_token c)) || negb (truthy_opt (tg_chat_id c))
         then false else true
       else false;
     n_token := tg_token c; n_chat_id := tg_chat_id c;
     n_proxy := tg_proxy c; n_send_cover := tg_send_cover c;
     n_notification_level := tg_notification_level c |}.

Inductive endpoint := sendPhoto | sendMessage.

(** A call of [requests.post]. *)
Record request := {
  rq_endpoint : endpoint;
  rq_token : option string;
  rq_chat_id : option string;
  rq_text : string;
  rq_photo : option string;
  rq_proxy : option string;
}.

Definition MSG_SUCCESS_HEAD : string := "✅ <b>影片整理完成</b>

🎬 <b>番号</b>: ".
Definition MSG_TITLE : string := "
📝 <b>标题</b>: ".
Definition MSG_ACTRESS : string := "👩 <b>演员</b>: ".
Definition MSG_PRODUCER : string := "🏢 <b>制作商</b>: ".
Definition MSG_DATE : string := "📅 <b>发行日期</b>: ".
Definition MSG_PATH : string := "📁 <b>路径</b>: ".
Definition MSG_ERROR_HEAD : string := "❌ <b>影片整理失败</b>

🎬 <b>番号</b>: ".
Definition MSG_ERROR : string := "
⚠️ <b>错误</b>: ".
Definition MSG_BATCH_HEAD : string := "📊 <b>批量整理完成</b>

🎬 <b>总数</b>: ".
Definition MSG_BATCH_OK : string := "
✅ <b>成功</b>: ".
Definition MSG_BATCH_FAILED : string := "
❌ <b>失败</b>: ".
Definition NL : string := String newline EmptyString.

Section Telegram.
(** The surroundings: [os.path.exists], whether [open] succeeds, the
    status [requests.post] answers with ([None] when it raises), and
    [str] on the values of a record. *)
Variable path_exists : string -> bool.
Variable can_open : string -> bool.
Variable post : request -> option Z.
Variable py_str : pyval -> string.

Definition send (r : request) : bool * list request :=
  match post r with
  | Some status => (bool_decide (status = 200%Z), [r])
  | None => (false, [r])
  end.

(** [_send_message]: the result and the requests made. *)
Definition _send_message (n : TelegramNotifier) (text : string)
  (photo_path : option string) : bool * list request :=
  if negb (n_enabled n) then (false, [])
  else
    let proxies := if truthy_opt (n_proxy n) then n_proxy n else None in
    match photo_path with
    | Some p =>
        if truthy (PStr p) && path_exists p && n_send_cover n then
          if can_open p then
            send {| rq_endpoint := sendPhoto; rq_token := n_token n;
                    rq_chat_id := n_chat_id n; rq_text := text;
                    rq_photo := Some p; rq_proxy := proxies |}
          else (false, [])
        else
          send {| rq_endpoint := sendMessage; rq_token := n_token n;
                  rq_chat_id := n_chat_id n; rq_text := text;
                  rq_photo := None; rq_proxy := proxies |}
    | None =>
        send {| rq_endpoint := sendMessage; rq_token := n_token n;
                rq_chat_id := n_chat_id n; rq_text := text;
                rq_photo := None; rq_proxy := proxies |}
    end.

(** [", ".join(v)]. *)
Definition join_val (sep : string) (v : pyval) : result string :=
  l ← py_iter v; ss ← strs_of l; Ok (join sep ss).

(** The three optional lines, inside [try ... except: pass]: a line
    that raises leaves the ones before it and empties the ones after
    it. *)
Definition extra_lines (current : option MovieInfo)
  : string * string * string :=
  match current with
  | None => (EmptyString, EmptyString, EmptyString)
  | Some info =>
      match (if truthy (getattr info "actress")
             then s ← join_val ", " (getattr info "actress");
                  Ok (MSG_ACTRESS +:+ html_escape s +:+ NL)
             else Ok EmptyString) with
      | Raise _ => (EmptyString, EmptyString, EmptyString)
      | Ok actresses =>
          match (if truthy (getattr info "producer")
                 then s ← _escape_html (getattr info "producer");
                      Ok (MSG_PRODUCER +:+ s +:+ NL)
                 else Ok EmptyString) with
          | Raise _ => (actresses, EmptyString, EmptyString)
          | Ok producer =>
              (actresses, producer,
               if truthy (getattr info "publish_date")
               then MSG_DATE
                    +:+ html_escape (py_str (getattr info "publish_date"))
                    +:+ NL
               else EmptyString)
          end
      end
  end.

(** [current] is what [get_current_movie_info()] gives. *)
Definition send_success_notification (n : TelegramNotifier)
  (current : option MovieInfo) (movie_title movie_id save_dir : pyval)
  (poster_path : option string) : result (bool * list request) :=
  if negb (n_enabled n) || bool_decide (n_notification_level n = "error")
  then Ok (false, [])
  else
    let '(actresses, producer, publish_date) := extra_lines current in
    id_ ← _escape_html movie_id;
    title ← _escape_html movie_title;
    dir ← _escape_html save_dir;
    Ok (_send_message n
          (MSG_SUCCESS_HEAD +:+ id_ +:+ MSG_TITLE +:+ title +:+ NL
           +:+ actresses +:+ producer +:+ publish_date
           +:+ MSG_PATH +:+ dir)
          poster_path).

Definition send_error_notification (n : TelegramNotifier)
  (movie_id error_message : pyval) : result (bool * list request) :=
  if negb (n_enabled n) || bool_decide (n_notification_level n = "success")
  then Ok (false, [])
  else
    id_ ← _escape_html movie_id;
    msg ← _escape_html error_message;
    Ok (_send_message n (MSG_ERROR_HEAD +:+ id_ +:+ MSG_ERROR +:+ msg) None).

Definition send_batch_summary (n : TelegramNotifier)
  (total success failed : nat) : bool * list request :=
  if negb (n_enabled n) then (false, [])
  else
    _send_message n
      (MSG_BATCH_HEAD +:+ pretty total +:+ MSG_BATCH_OK +:+ pretty success
       +:+ MSG_BATCH_FAILED +:+ pretty failed)
      None.

End Telegram.
(** ** [parallel_crawler] and the modules of the crawlers *)

(** What lines 186 and 189 read of a module of [sys.modules]: its
    attribute [parse_data], when it has one, and whether it has an
    attribute [parse_data_raw]. *)
Record Module := {
  mod_parse_data : option Adapter;
  mod_has_parse_data_raw : bool;
}.

Section Modules.
(** [sys.modules]: the modules that were imported, by name.
    [import_crawlers] goes on when the module of a configured crawler
    cannot be imported, so a crawler of the selection may have none. *)
Variable sys_modules : string -> option Module.
Variable cfg : CrawlCfg.

(** Lines 184-199: [sys.modules[mod]] raises [KeyError] and
    [getattr(..., 'parse_data')] raises [AttributeError], at the first
    record of [all_info] where a lookup fails; the threads started for
    the records before it work on records that nobody reads any more.
    The threads are run one after the other, as in [run_workers]. *)
Fixpoint start_workers (all_info : list (string * MovieInfo))
  : result (list (string * MovieInfo)) :=
  match all_info with
  | [] => Ok []
  | (mod_partial, info) :: r =>
      match sys_modules ("javsp.web." +:+ mod_partial) with
      | None => Raise KeyError
      | Some m =>
          match mod_parse_data m with
          | None => Raise AttributeError
          | Some parser =>
              let retry :=
                if mod_has_parse_data_raw m then 1 else network_retry cfg in
              joined ← start_workers r;
              Ok ((mod_partial, (wrapper parser info retry).1) :: joined)
          end
      end
  end.

(** [parallel_crawler], with the lookups of lines 186 and 189.
    [parallel_crawler] above is this function once every lookup has
    found its module and its [parse_data]. *)
Definition parallel_crawler_with_modules (movie : Movie)
  : result (Movie * list (string * MovieInfo)) :=
  joined ← start_workers (init_all_info cfg movie);
  '(movie', kept) ← update_data_src cfg movie joined;
  Ok (movie', strip_keys (drop_failed kept)).

End Modules.

(** ** The loop over the items: [RunNormalMode] *)

(** What ends the work on an item: the exception of [check_step], or
    any other one, with its text ([str(e)]). *)
Inductive failure :=
| StepError (msg : string)
| Unhandled (text : string).

Definition failure_text (f : failure) : string :=
  match f with StepError msg => msg | Unhandled text => text end.

(** [check_step]. *)
Definition check_step (result : bool) (msg : string) : option failure :=
  if result then None else Some (StepError (msg +:+ NL)).

Definition MSG_STEP : string := "步骤错误".
Definition MSG_NO_DIR : string := "无法按命名规则生成目标文件夹".
Definition MSG_NO_COVER : string := "下载封面图片失败".

(** [a or b]. *)
Definition or_val (a b : pyval) : pyval := if truthy a then a else b.

(** [movie.dvdid or movie.cid]. *)
Definition movie_id (m : Movie) : pyval :=
  or_val (of_opt (mv_dvdid m)) (of_opt (mv_cid m)).

(** The work on an item goes on with the item, or stops with an
    exception; the handler reads the identifier of the item then. *)
Inductive stepped :=
| Next (m : Movie)
| Stop (id_ : pyval) (f : failure).

Definition and_then (s1 s2 : Movie -> stepped) (m : Movie) : stepped :=
  match s1 m with
  | Next m' => s2 m'
  | Stop i f => Stop i f
  end.

Definition set_fanart_poster (m : Movie) (fanart poster : option string)
  : Movie :=
  set_paths m (mv_save_dir m) (mv_basename m) (mv_nfo_file m) fanart poster.

(** The configuration [RunNormalMode] and its steps read. *)
Record RunCfg := {
  crawler_cfg : CrawlCfg;
  merge_cfg : MergeCfg;
  name_cfg : NameCfg;
  translator_engine : bool;
  cover_highres : bool;
  extra_fanarts_enabled : bool;
}.

(** The functions of the program and of the library that are not
    modelled here and answer by their arguments alone. *)
Record Helpers := {
  h_attrs : list string;
  h_remove_trail_actor_in_title : pyval -> pyval -> pyval;
  h_actressAliasMap : list (string * list string);
  h_os : OsPath;
  h_lib : JavspLib;
  h_splitext_root : string -> string;
  h_str : pyval -> string;
  h_exn_text : exn -> string;
}.

(** What is around one item: the crawlers, the network and the file
    system.  A step that is not modelled gives [None] when it returns
    and the text of its exception when it raises. *)
Record World := {
  w_parse_data : string -> Adapter;
  w_has_parse_data_raw : string -> bool;
  w_translate_movie_info : MovieInfo -> MovieInfo * (bool + string);
  w_makedirs : string -> option string;
  w_download : nat -> string -> string -> fetched;
  w_cover_error : string;
  w_process_poster : Movie -> option string;
  w_mkdir : string -> option string;
  w_fanart : nat -> pyval -> string -> bool;
  w_write_nfo : MovieInfo -> option string -> option string;
  w_rename_files : Movie -> Movie * option string;
  w_current_movie_info : option MovieInfo;
  w_exists : string -> bool;
  w_open : string -> bool;
  w_post : request -> option Z;
}.

Section Run.
Variable cfg : RunCfg.
Variable h : Helpers.
Variable notifier : TelegramNotifier.

Section Item.
Variable w : World.

Definition raised (m : Movie) (e : exn) : stepped :=
  Stop (movie_id m) (Unhandled (h_exn_text h e)).

Definition checked (m : Movie) (c : option failure) : stepped :=
  match c with
  | None => Next m
  | Some f => Stop (movie_id m) f
  end.

Definition external (m : Movie) (r : option string) : stepped :=
  match r with
  | None => Next m
  | Some text => Stop (movie_id m) (Unhandled text)
  end.

(** Lines 527-534: the crawlers, then the merge. *)
Definition step_scrape (movie : Movie) : stepped :=
  match parallel_crawler (w_parse_data w) (w_has_parse_data_raw w)
                         (crawler_cfg cfg) movie with
  | Raise e => raised movie e
  | Ok (movie, all_info) =>
      let msg :=
        "为其配置的"
        +:+ pretty (length (selection (crawler_cfg cfg) (mv_data_src movie)))
        +:+ "个抓取器均未获取到影片信息" in
      match check_step (negb (bool_decide (all_info = []))) msg with
      | Some f => Stop (movie_id movie) f
      | None =>
          match info_summary (h_attrs h) (h_remove_trail_actor_in_title h)
                             (h_actressAliasMap h) (merge_cfg cfg)
                             movie all_info with
          | Raise e => raised movie e
          | Ok (has_required_keys, movie) =>
              checked movie (check_step has_required_keys MSG_STEP)
          end
      end
  end.

(** Lines 538-541. *)
Definition step_translate (movie : Movie) : stepped :=
  if translator_engine cfg then
    match mv_info movie with
    | None => raised movie AttributeError
    | Some info =>
        match w_translate_movie_info w info with
        | (info', inl success) =>
            checked (set_info movie (Some info')) (check_step success MSG_STEP)
        | (info', inr text) =>
            Stop (movie_id movie) (Unhandled text)
        end
    end
  else Next movie.

(** Lines 543-546. *)
Definition step_names (movie : Movie) : stepped :=
  match generate_names (h_os h) (h_lib h) (name_cfg cfg) movie with
  | Raise e => raised movie e
  | Ok movie =>
      match check_step (truthy (of_opt (mv_save_dir movie))) MSG_NO_DIR with
      | Some f => Stop (movie_id movie) f
      | None =>
          match mv_save_dir movie with
          | Some d => external movie (w_makedirs w d)
          | None => raised movie TypeError
          end
      end
  end.

(** The two calls of [download_cover] of lines 549-552.  The attributes
    are read before the call; each of the two loops of [download_cover]
    begins to iterate over its candidates when it is reached. *)
Definition cover_download (info : MovieInfo) (fanart_file : option string)
  : result cover_dl :=
  let dl := download_cover (h_splitext_root h) (w_download w)
                           (network_retry (crawler_cfg cfg)) in
  if negb (hasattr info "covers")
     || (cover_highres cfg && negb (hasattr info "big_covers"))
  then Raise AttributeError
  else
    big_covers ← (if cover_highres cfg
                  then py_iter (getattr info "big_covers") else Ok []);
    match (dl [] fanart_file big_covers).1 with
    | NoCover =>
        covers ← py_iter (getattr info "covers");
        Ok (dl covers fanart_file big_covers).1
    | r => Ok r
    end.

(** Lines 548-562. *)
Definition step_cover (movie : Movie) : stepped :=
  match mv_info movie with
  | None => raised movie AttributeError
  | Some info =>
      match cover_download info (mv_fanart_file movie) with
      | Raise e => raised movie e
      | Ok DlRaised => Stop (movie_id movie) (Unhandled (w_cover_error w))
      | Ok NoCover =>
          Stop (movie_id movie) (StepError (MSG_NO_COVER +:+ NL))
      | Ok (Downloaded cover pic_path) =>
          let info :=
            if decide (PStr cover ≠ getattr info "cover")
            then setattr info "cover" (PStr cover) else info in
          let movie := set_info movie (Some info) in
          if decide (Some pic_path ≠ mv_fanart_file movie) then
            match mv_poster_file movie with
            | Some poster =>
                Next (set_fanart_poster movie (Some pic_path)
                        (Some (h_splitext_root h poster
                               +:+ splitext_ext (h_os h) pic_path)))
            | None => raised (set_fanart_poster movie (Some pic_path) None)
                             TypeError
            end
          else Next movie
      end
  end.

(** Lines 564-566. *)
Definition step_poster (movie : Movie) : stepped :=
  external movie (w_process_poster w movie).

(** The loop of lines 574-590 from the picture number [i] on. *)
Fixpoint fanart_loop (movie : Movie) (dir : string) (i : nat)
  (pics : list pyval) : stepped :=
  match pics with
  | [] => Next movie
  | pic_url :: r =>
      if w_fanart w i pic_url (dir +:+ "/" +:+ pretty i +:+ ".png")
      then fanart_loop movie dir (S i) r
      else Stop (movie_id movie)
                (StepError ("下载剧照" +:+ pretty i +:+ ": "
                            +:+ h_str h pic_url +:+ "失败" +:+ NL))
  end.

(** Lines 568-591. *)
Definition step_fanarts (movie : Movie) : stepped :=
  if extra_fanarts_enabled cfg then
    match mv_info movie with
    | None => raised movie AttributeError
    | Some info =>
        if truthy (getattr info "preview_pics") then
          match mv_save_dir movie with
          | None => raised movie TypeError
          | Some d =>
              let extrafanartdir := d +:+ "/extrafanart" in
              match w_mkdir w extrafanartdir with
              | Some text => Stop (movie_id movie) (Unhandled text)
              | None =>
                  match py_iter (getattr info "preview_pics") with
                  | Raise e => raised movie e
                  | Ok pics => fanart_loop movie extrafanartdir 0 pics
                  end
              end
          end
        else Next movie
    end
  else Next movie.

(** Lines 593-602. *)
Definition step_write (movie : Movie) : stepped :=
  match mv_info movie with
  | None => raised movie AttributeError
  | Some info =>
      match w_write_nfo w info (mv_nfo_file movie) with
      | Some text => Stop (movie_id movie) (Unhandled text)
      | None =>
          if move_files (name_cfg cfg) then
            match w_rename_files w movie with
            | (movie, None) => Next movie
            | (movie, Some text) => Stop (movie_id movie) (Unhandled text)
            end
          else Next movie
      end
  end.

(** Lines 604-611; the requests made are kept. *)
Definition step_notify (movie : Movie) : stepped * list request :=
  match mv_info movie with
  | None => (raised movie AttributeError, [])
  | Some info =>
      match send_success_notification (w_exists w) (w_open w) (w_post w)
              (h_str h) notifier (w_current_movie_info w)
              (getattr info "title") (movie_id movie)
              (of_opt (mv_save_dir movie)) (mv_poster_file movie) with
      | Ok (_, requests) => (Next movie, requests)
      | Raise e => (raised movie e, [])
      end
  end.

(** The steps before the notification. *)
Definition steps : Movie -> stepped :=
  and_then step_scrape
    (and_then step_translate
      (and_then step_names
        (and_then step_cover
          (and_then step_poster
            (and_then step_fanarts step_write))))).

(** The body of [try]. *)
Definition try_item (movie : Movie) : stepped * list request :=
  match steps movie with
  | Next movie => step_notify movie
  | Stop i f => (Stop i f, [])
  end.

(** How an item ends: among the returned ones, counted as failed, or
    with an exception that leaves [RunNormalMode]. *)
Inductive item_end :=
| Done (m : Movie)
| Failed (f : failure)
| Crashed (e : exn).

(** One round of the loop, with the handler of lines 618-629. *)
Definition run_item (movie : Movie) : item_end * list request :=
  match try_item movie with
  | (Next movie, requests) => (Done movie, requests)
  | (Stop id_ f, requests) =>
      match send_error_notification (w_exists w) (w_open w) (w_post w)
              notifier id_ (PStr (failure_text f)) with
      | Ok (_, more) => (Failed f, requests ++ more)
      | Raise e => (Crashed e, requests)
      end
  end.

End Item.

(** What [RunNormalMode] gives: the items it returns, with the two
    counters, or an exception.  The requests of the notifier come with
    either. *)
Inductive run_end :=
| Finished (return_movies : list Movie) (success_count failed_count : nat)
| Aborted (e : exn).

(** The loop, from the item number [k] on; [w k] is what is around
    that item, [w total] what is around the summary. *)
Fixpoint run_from (w : nat -> World) (total k : nat) (movies : list Movie)
  (return_movies : list Movie) (success_count failed_count : nat)
  (requests : list request) : run_end * list request :=
  match movies with
  | [] =>
      (Finished return_movies success_count failed_count,
       requests ++ (send_batch_summary (w_exists (w total)) (w_open (w total))
                      (w_post (w total)) notifier
                      total success_count failed_count).2)
  | movie :: rest =>
      match run_item (w k) movie with
      | (Done movie, more) =>
          run_from w total (S k) rest (return_movies ++ [movie])
                   (S success_count) failed_count (requests ++ more)
      | (Failed _, more) =>
          run_from w total (S k) rest return_movies
                   success_count (S failed_count) (requests ++ more)
      | (Crashed e, more) => (Aborted e, requests ++ more)
      end
  end.

Definition RunNormalMode (w : nat -> World) (all_movies : list Movie)
  : run_end * list request :=
  run_from w (length all_movies) 0 all_movies [] 0 0 [].

End Run.

(** ** The count of [tools/video_scanner.py]: [count_videos] *)

(** A file as [count_videos] sees it: its name, and what [getsize] and
    [getmtime] answer, [None] when they raise [OSError]. *)
Record file := {
  f_name : string;
  f_size : option Z;
  f_mtime : option Z;
}.

(** A directory, as [os.walk] reads it: its files, and its
    sub-directories by name. *)
#[warnings="-register-all"]
Inductive tree :=
| Dir (files : list file) (dirs : list (string * tree)).

Record folder_stats := {
  fs_count : nat;
  fs_subtitle_count : nat;
  fs_size : Z;
  fs_new_today : nat;
}.

Record scan_stats := {
  total : nat;
  new_today : nat;
  total_size : Z;
  subtitle_count : nat;
  by_folder : list (string * folder_stats);
}.

Definition no_stats : scan_stats :=
  {| total := 0; new_today := 0; total_size := 0; subtitle_count := 0;
     by_folder := [] |}.

(** [s.endswith(suffix)]. *)
Definition endswith (suffix s : string) : bool :=
  bool_decide (str_len suffix ≤ str_len s) &&
  bool_decide (str_drop (str_len s - str_len suffix) s = suffix).

Section Scanner.
(** The configuration; [lower] is [str.lower], [relpath] gives the
    path of a folder, known by the names that lead to it from the input
    directory, relative to that directory, and [is_yesterday] tells
    whether a time stamp falls on the day before the scan. *)
Variable extensions : list string.
Variable subtitle_extensions : list string.
Variable ignored_folders : list string.
Variable lower : string -> string.
Variable relpath : list string -> string.
Variable is_yesterday : Z -> bool.

(** [os.walk], with the pruning of line 108: the folders in the order
    of the walk, each with its files. *)
Fixpoint walk_tree (t : tree) (path : list string)
  : list (list string * list file) :=
  match t with
  | Dir files dirs =>
      (path, files) ::
      (fix go (ds : list (string * tree)) : list (list string * list file) :=
         match ds with
         | [] => []
         | (d, sub) :: r =>
             if _should_ignore_folder ignored_folders d then go r
             else walk_tree sub (path ++ [d]) ++ go r
         end) dirs
  end.

(** [f.lower().endswith(exts)] for the tuple of the lowered [exts]. *)
Definition has_extension (exts : list string) (f : file) : bool :=
  existsb (fun ext => endswith (lower ext) (lower (f_name f))) exts.

(** Lines 128-141, for one file: the size and the number of new files
    of the folder so far.  The size is added before the time stamp is
    read. *)
Definition scan_file (acc : Z * nat) (f : file) : Z * nat :=
  match f_size f with
  | None => acc
  | Some file_size =>
      match f_mtime f with
      | None => ((acc.1 + file_size)%Z, acc.2)
      | Some t =>
          ((acc.1 + file_size)%Z, if is_yesterday t then S acc.2 else acc.2)
      end
  end.

(** Lines 110-145: one round of the loop. *)
Definition scan_folder (stats : scan_stats) (folder : list string * list file)
  : scan_stats :=
  let video_files := filter (fun f => has_extension extensions f = true)
                            folder.2 in
  let subtitle_files :=
    filter (fun f => has_extension subtitle_extensions f = true) folder.2 in
  if (0 <? length video_files)%nat || (0 <? length subtitle_files)%nat then
    let '(size, new) := foldl scan_file (0%Z, 0) (video_files ++ subtitle_files) in
    {| total := total stats + length video_files;
       new_today := new_today stats + new;
       total_size := (total_size stats + size)%Z;
       subtitle_count := subtitle_count stats + length subtitle_files;
       by_folder :=
         dict_set (relpath folder.1)
                  {| fs_count := length video_files;
                     fs_subtitle_count := length subtitle_files;
                     fs_size := size; fs_new_today := new |}
                  (by_folder stats) |}
  else stats.

(** [input] is the input directory, [None] when it is not configured
    or does not exist. *)
Definition count_videos (input : option tree) : scan_stats :=
  match input with
  | None => no_stats
  | Some t => foldl scan_folder no_stats (walk_tree t [])
  end.

End Scanner.

(** ** Notions for the further properties *)

(** A download that gives the same answer at every call. *)
Definition always (f : fetched) : nat -> string -> string -> fetched :=
  fun _ _ _ => f.

Definition root_of (p : string) : string :=
  match rsplit "." p with Some (x, _) => x | None => p end.

(** What the attempts at one address have in common: they go on from
    the call number [n], make at most [left] calls, and get the picture
    only from a call that left a valid one. *)
Definition attempts_spec (download : nat -> string -> string -> fetched)
  (try : string -> string -> nat -> nat -> attempt * nat) : Prop :=
  ∀ url p n left,
    n ≤ (try url p n left).2 ≤ n + left ∧
    ((try url p n left).1 = Got →
     ∃ m, (try url p n left).2 = S m ∧ download m url p = PicValid).

(** No character of [s] is [c]. *)
Definition all_chars (c : ascii) (s : string) : Prop :=
  ∀ a, a ∈ list_ascii_of_string s → a = c.

(** Text that Telegram's HTML mode takes literally: no angle bracket,
    and no ampersand but at the head of one of the three entities.
    [skip] characters were already accepted. *)
Fixpoint html_text_from (skip : nat) (s : string) : bool :=
  match s with
  | EmptyString => true
  | String a r =>
      match skip with
      | S k => html_text_from k r
      | O =>
          if decide (a = "<"%char) then false
          else if decide (a = ">"%char) then false
          else if decide (a = "&"%char) then
            if String.prefix "amp;" r then html_text_from 4 r
            else if String.prefix "lt;" r then html_text_from 3 r
            else if String.prefix "gt;" r then html_text_from 3 r
            else false
          else html_text_from 0 r
      end
  end.

Definition html_text (s : string) : bool := html_text_from 0 s.

(** One character, escaped. *)
Definition escape_char (a : ascii) : string :=
  if decide (a = "&"%char) then "&amp;"
  else if decide (a = "<"%char) then "&lt;"
  else if decide (a = ">"%char) then "&gt;"
  else String a EmptyString.

Fixpoint escape_chars (s : string) : string :=
  match s with
  | EmptyString => EmptyString
  | String a r => escape_char a +:+ escape_chars r
  end.

(** The inverse reading: entities back to characters. *)
Fixpoint unescape_from (skip : nat) (s : string) : string :=
  match s with
  | EmptyString => EmptyString
  | String a r =>
      match skip with
      | S k => unescape_from k r
      | O =>
          if decide (a = "&"%char) then
            if String.prefix "amp;" r then String "&" (unescape_from 4 r)
            else if String.prefix "lt;" r then String "<" (unescape_from 3 r)
            else if String.prefix "gt;" r then String ">" (unescape_from 3 r)
            else String a (unescape_from 0 r)
          else String a (unescape_from 0 r)
      end
  end.

Definition unescape (s : string) : string := unescape_from 0 s.

Definition is_str (v : pyval) : bool :=
  match v with PStr _ => true | _ => false end.

(** *** Samples for the further properties *)

(** A source that knows the people of the item and has their
    pictures, an alias table, and a configuration that normalises the
    names. *)
Definition demo_sources_people : list (string * MovieInfo) :=
  [("javbus", record [("title", PStr "Foo");
                      ("actress", PList [PStr "Arisu"]);
                      ("actress_pics", PDict [("Arisu", "http://p/1.jpg")]);
                      ("cover", PStr "http://x/1.jpg")])].

Definition demo_alias_map : list (string * list string) :=
  [("Alice", ["Alice"; "Arisu"])].

Definition demo_merge_cfg_aliases : MergeCfg :=
  {| remove_trailing_actor_name := false; respect_site_avid := false;
     use_javdb_cover := UseJavDBCover.yes;
     normalize_actress_name := true;
     required_keys := ["title"] |}.

Definition demo_final_people : MovieInfo :=
  match merged_info demo_attrs keep_title demo_alias_map
                    demo_merge_cfg_aliases demo_movie demo_sources_people with
  | Ok fin => fin
  | Raise _ => ∅
  end.

(** javdb with an empty string for a cover. *)
Definition demo_sources_empty_cover : list (string * MovieInfo) :=
  [("javdb", record [("title", PStr "Foo"); ("cover", PStr "")])].

(** What the crawlers of the sample give for the standard item. *)
Definition demo_crawled : Movie * list (string * MovieInfo) :=
  match parallel_crawler (fun _ => titled_parser "Foo") no_raw demo_crawl_cfg
                         demo_movie with
  | Ok p => p
  | Raise _ => (demo_movie, [])
  end.

(** The plans of the item of four chunks, its files moved or not. *)
Definition demo_plan (move : bool) : Movie :=
  match generate_names demo_os (demo_lib 38) (demo_name_cfg move)
                       demo_named_movie with
  | Ok m => m
  | Raise _ => demo_named_movie
  end.

(** An item whose title is one chunk of eight characters, each of
    three bytes, and its plan when the path may have 45 bytes: the path
    of the one combination has 49. *)
Definition demo_wide_title : string := "日本語のタイトル".

Definition demo_wide_movie : Movie := with_title_info demo_movie demo_wide_title.

Definition demo_prepared_wide : MovieInfo * InfoDic :=
  match prepare (demo_lib 46) (demo_name_cfg true)
                (record [("dvdid", PStr "ABC-123");
                         ("title", PStr demo_wide_title)]) with
  | Ok p => p
  | Raise _ => (∅, {| d_num := ""; d_title := ""; d_rawtitle := "";
                     d_actress := ""; d_label := ""; d_rest := [] |})
  end.

Definition demo_cut_plan : Movie :=
  match generate_names demo_os (demo_lib 46) (demo_name_cfg true)
                       demo_wide_movie with
  | Ok m => m
  | Raise _ => demo_wide_movie
  end.

Definition demo_prepared_no_chunks : MovieInfo * InfoDic :=
  match prepare (demo_lib 38) (demo_name_cfg true)
                (record [("dvdid", PStr "ABC-123"); ("title", PStr "Foo");
                         ("title_break", PList [])]) with
  | Ok p => p
  | Raise _ => (∅, {| d_num := ""; d_title := ""; d_rawtitle := "";
                     d_actress := ""; d_label := ""; d_rest := [] |})
  end.

(** A notifier without a chat id, and one that is ready. *)
Definition demo_telegram_cfg (chat_id : option string) : TelegramCfg :=
  {| tg_enabled := true; tg_token := Some "123:abc"; tg_chat_id := chat_id;
     tg_proxy := None; tg_send_cover := true;
     tg_notification_level := "all" |}.

Definition demo_post (r : request) : option Z := Some 200%Z.

Definition yes (p : string) : bool := true.
(** The modules of a run where javdb could not be imported. *)
Definition demo_modules (name : string) : option Module :=
  if decide (name = "javsp.web.javbus")
  then Some {| mod_parse_data := Some (titled_parser "Foo");
               mod_has_parse_data_raw := false |}
  else if decide (name = "javsp.web.fanza")
  then Some {| mod_parse_data := None; mod_has_parse_data_raw := false |}
  else None.

(** ** Notions for the loop over the items *)

(** Every exception comes with the identifier of the item as it is
    then. *)
Definition with_id (s : stepped) : Prop :=
  match s with
  | Next _ => True
  | Stop i _ => ∃ m, i = movie_id m
  end.

(** *** A sample of the surroundings of the loop *)

Definition demo_helpers : Helpers :=
  {| h_attrs := demo_attrs;
     h_remove_trail_actor_in_title := keep_title;
     h_actressAliasMap := [];
     h_os := demo_os;
     h_lib := demo_lib 255;
     h_splitext_root := root_of;
     h_str := str_of;
     h_exn_text := fun _ => "error" |}.

Definition demo_run_cfg : RunCfg :=
  {| crawler_cfg := demo_crawl_cfg;
     merge_cfg := demo_merge_cfg;
     name_cfg := demo_name_cfg true;
     translator_engine := false;
     cover_highres := true;
     extra_fanarts_enabled := false |}.

(** An adapter that fills in a title and a cover. *)
Definition cover_parser : Adapter :=
  fun cnt info =>
    (setattr (setattr info "title" (PStr "Foo")) "cover"
             (PStr "http://x/1.png?size=l"),
     Returned).

(** Surroundings in which every step goes through, around the crawlers
    given. *)
Definition demo_world (parser : Adapter) : World :=
  {| w_parse_data := fun _ => parser;
     w_has_parse_data_raw := no_raw;
     w_translate_movie_info := fun info => (info, inl true);
     w_makedirs := fun _ => None;
     w_download := always PicValid;
     w_cover_error := "error";
     w_process_poster := fun _ => None;
     w_mkdir := fun _ => None;
     w_fanart := fun _ _ _ => true;
     w_write_nfo := fun _ _ => None;
     w_rename_files := fun m => (m, None);
     w_current_movie_info := None;
     w_exists := yes;
     w_open := yes;
     w_post := demo_post |}.

Definition demo_notifier : TelegramNotifier :=
  TelegramNotifier_init (demo_telegram_cfg (Some "42")).

(** An item as the Namer leaves it, with one candidate for its cover. *)
Definition demo_before_cover : Movie :=
  {| mv_dvdid := Some "ABC-123"; mv_cid := None; mv_data_src := "normal";
     mv_hard_sub := false; mv_uncensored := false; mv_attr_str := "";
     mv_files := ["/videos/ABC-123.mp4"];
     mv_info := Some (record [("title", PStr "Foo");
                              ("covers", PList [PStr "http://x/1.png?size=l"]);
                              ("big_covers", PList [])]);
     mv_save_dir := Some "/out/ABC-123"; mv_basename := Some "ABC-123 Foo";
     mv_nfo_file := Some "/out/ABC-123/ABC-123.nfo";
     mv_fanart_file := Some "/out/ABC-123/ABC-123-fanart.jpg";
     mv_poster_file := Some "/out/ABC-123/ABC-123-poster.jpg" |}.

Definition demo_after_cover : Movie :=
  match step_cover demo_run_cfg demo_helpers (demo_world cover_parser)
                   demo_before_cover with
  | Next m => m
  | Stop _ _ => demo_before_cover
  end.

(** *** Notions for the count *)

(** The directory without the folders the scanner ignores, at every
    depth. *)
Fixpoint prune (ignored_folders : list string) (t : tree) : tree :=
  match t with
  | Dir files dirs =>
      Dir files
        ((fix go (ds : list (string * tree)) : list (string * tree) :=
            match ds with
            | [] => []
            | (d, sub) :: r =>
                if _should_ignore_folder ignored_folders d then go r
                else (d, prune ignored_folders sub) :: go r
            end) dirs)
  end.

(** The files of the folders the walk visits. *)
Definition walked_files (ignored_folders : list string) (t : tree)
  : list file :=
  concat (map snd (walk_tree ignored_folders t [])).

(** * Properties *)

(** A closed decidable proposition, by evaluation. *)
Ltac by_decide := apply (bool_decide_unpack _); vm_compute; exact I.

(** ** Attributes and dictionaries *)

Lemma getattr_setattr_eq (o : MovieInfo) a v : getattr (setattr o a v) a = v.
Proof. unfold getattr, setattr. by rewrite lookup_insert_eq. Qed.

Lemma getattr_setattr_ne (o : MovieInfo) a b v :
  a ≠ b → getattr (setattr o a v) b = getattr o b.
Proof. intros H. unfold getattr, setattr. by rewrite lookup_insert_ne. Qed.

Lemma bind_Ok_l {A B} (a : A) (f : A → result B) : Ok a ≫= f = f a.
Proof. reflexivity. Qed.

Lemma bind_Ok {A B} (m : result A) (f : A → result B) b :
  m ≫= f = Ok b → ∃ a, m = Ok a ∧ f a = Ok b.
Proof. destruct m as [a|e]; simpl; [eauto | discriminate]. Qed.

(** ** The priority walk *)

Section WalkFacts.
Variable attrs : list string.

Lemma absorb_attr_other data st attr a :
  attr ≠ a →
  getattr (final_info (absorb_attr data st attr)) a = getattr (final_info st) a.
Proof.
  intros Hne. unfold absorb_attr.
  repeat case_decide; repeat (case_match; simpl); try done;
    by rewrite getattr_setattr_ne.
Qed.

Lemma absorb_attr_plain data st a :
  a ≠ "cover" → a ≠ "big_cover" → a ≠ "uncensored" →
  getattr (final_info (absorb_attr data st a)) a
  = pick (getattr (final_info st) a) (getattr data a).
Proof.
  intros H1 H2 H3. unfold absorb_attr, pick.
  repeat (case_decide; [done|]).
  case_match; simpl; [by rewrite getattr_setattr_eq | done].
Qed.

Lemma absorb_attr_flag data st :
  getattr (final_info (absorb_attr data st "uncensored")) "uncensored"
  = pick_flag (getattr (final_info st) "uncensored") (getattr data "uncensored").
Proof.
  unfold absorb_attr, pick_flag.
  repeat (case_decide; [done|]). case_decide; [|done].
  case_match; simpl; [by rewrite getattr_setattr_eq | done].
Qed.

Lemma pick_idem c i : pick (pick c i) i = pick c i.
Proof. unfold pick. destruct (truthy c) eqn:Hc, (truthy i) eqn:Hi; simpl; rewrite ?Hc, ?Hi; done. Qed.

Lemma pick_flag_idem c i : pick_flag (pick_flag c i) i = pick_flag c i.
Proof. unfold pick_flag. destruct c, i; done. Qed.

(** One source: an attribute of the list goes through its rule once,
    however often the list names it. *)
Lemma absorb_attrs_plain data a l st :
  a ≠ "cover" → a ≠ "big_cover" → a ≠ "uncensored" →
  getattr (final_info (foldl (absorb_attr data) st l)) a
  = if bool_decide (a ∈ l)
    then pick (getattr (final_info st) a) (getattr data a)
    else getattr (final_info st) a.
Proof.
  intros H1 H2 H3. revert st. induction l as [|x l IH]; intros st; simpl.
  - done.
  - rewrite IH. destruct (decide (x = a)) as [->|Hx].
    + rewrite absorb_attr_plain by done. rewrite pick_idem.
      rewrite (bool_decide_eq_true_2 (a ∈ a :: l)) by set_solver.
      by case_bool_decide.
    + rewrite absorb_attr_other by done.
      repeat case_bool_decide; set_solver.
Qed.

Lemma absorb_attrs_flag data l st :
  getattr (final_info (foldl (absorb_attr data) st l)) "uncensored"
  = if bool_decide ("uncensored" ∈ l)
    then pick_flag (getattr (final_info st) "uncensored")
                   (getattr data "uncensored")
    else getattr (final_info st) "uncensored".
Proof.
  revert st. induction l as [|x l IH]; intros st; simpl.
  - done.
  - rewrite IH. destruct (decide (x = "uncensored")) as [->|Hx].
    + rewrite absorb_attr_flag. rewrite pick_flag_idem.
      rewrite (bool_decide_eq_true_2 ("uncensored" ∈ "uncensored" :: l)) by set_solver.
      by case_bool_decide.
    + rewrite absorb_attr_other by done.
      repeat case_bool_decide; set_solver.
Qed.

Lemma foldl_pick c vs :
  foldl pick c vs = if truthy c then c else default c (List.find truthy vs).
Proof.
  revert c. induction vs as [|v vs IH]; intros c; simpl.
  - by destruct (truthy c).
  - rewrite IH. unfold pick.
    destruct (truthy c) eqn:Hc, (truthy v) eqn:Hv; simpl; rewrite ?Hc, ?Hv; done.
Qed.

Lemma foldl_pick_flag c vs :
  foldl pick_flag c vs
  = if is_none c then default c (List.find (fun v => negb (is_none v)) vs) else c.
Proof.
  revert c. induction vs as [|v vs IH]; intros c; simpl.
  - by destruct (is_none c).
  - rewrite IH. unfold pick_flag.
    destruct (is_none c) eqn:Hc, (is_none v) eqn:Hv; simpl; rewrite ?Hc, ?Hv; done.
Qed.

Lemma absorb_all_plain a all_info st :
  a ∈ attrs → a ≠ "cover" → a ≠ "big_cover" → a ≠ "uncensored" →
  getattr (final_info (absorb_all attrs all_info st)) a
  = foldl pick (getattr (final_info st) a) (values_of a all_info).
Proof.
  intros Hin H1 H2 H3. revert st. unfold absorb_all.
  induction all_info as [|nd r IH]; intros st; simpl; [done|].
  rewrite IH. f_equal. unfold absorb_source.
  rewrite absorb_attrs_plain by done. by rewrite bool_decide_eq_true_2.
Qed.

Lemma absorb_all_flag all_info st :
  "uncensored" ∈ attrs →
  getattr (final_info (absorb_all attrs all_info st)) "uncensored"
  = foldl pick_flag (getattr (final_info st) "uncensored")
          (values_of "uncensored" all_info).
Proof.
  intros Hin. revert st. unfold absorb_all.
  induction all_info as [|nd r IH]; intros st; simpl; [done|].
  rewrite IH. f_equal. unfold absorb_source.
  rewrite absorb_attrs_flag. by rewrite bool_decide_eq_true_2.
Qed.

End WalkFacts.

(** ** The steps around the walk *)

Section MergeFacts.
Variable attrs : list string.
Variable remove_trail_actor_in_title : pyval -> pyval -> pyval.
Variable actressAliasMap : list (string * list string).
Variable cfg : MergeCfg.

Lemma MovieInfo_of_movie_other movie a :
  a ≠ "dvdid" → a ≠ "cid" → getattr (MovieInfo_of_movie movie) a = PNone.
Proof.
  intros H1 H2. unfold MovieInfo_of_movie, getattr.
  rewrite lookup_insert_ne by done. rewrite lookup_singleton_ne by done. done.
Qed.

Lemma seed_genre_other all_info fin a :
  a ≠ "genre" → getattr (seed_genre all_info fin) a = getattr fin a.
Proof.
  intros H. unfold seed_genre. repeat case_match; try done.
  by rewrite getattr_setattr_ne.
Qed.

Lemma id_attr_cases movie : id_attr movie = "dvdid" ∨ id_attr movie = "cid".
Proof. unfold id_attr. case_match; auto. Qed.

Lemma respect_avid_other movie srcs fin fin' a :
  respect_avid cfg movie srcs fin = Ok fin' →
  a ≠ "dvdid" → a ≠ "cid" → getattr fin' a = getattr fin a.
Proof.
  unfold respect_avid. intros H H1 H2.
  destruct (respect_site_avid cfg); [|by inversion H].
  apply bind_Ok in H as (g & _ & H).
  destruct (sorted_desc g) as [|[k ns] r]; inversion H; subst; [done|].
  rewrite getattr_setattr_ne; [done|].
  destruct (id_attr_cases movie) as [-> | ->]; done.
Qed.

Lemma set_covers_other fin cs bcs a :
  a ≠ "covers" → a ≠ "big_covers" → a ≠ "cover" → a ≠ "big_cover" →
  getattr (set_covers fin cs bcs) a = getattr fin a.
Proof.
  intros. unfold set_covers.
  destruct cs, bcs; rewrite !getattr_setattr_ne by done; done.
Qed.

Lemma genre_append_other tag fin fin' a :
  genre_append tag fin = Ok fin' → a ≠ "genre" → getattr fin' a = getattr fin a.
Proof.
  unfold genre_append. intros H Ha.
  destruct (getattr fin "genre"); inversion H; subst.
  by rewrite getattr_setattr_ne.
Qed.

Lemma fix_genre_other movie fin fin' a :
  fix_genre movie fin = Ok fin' → a ≠ "genre" → getattr fin' a = getattr fin a.
Proof.
  unfold fix_genre. intros H Ha.
  set (f0 := if is_none (getattr fin "genre")
             then setattr fin "genre" (PList []) else fin) in H.
  assert (getattr f0 a = getattr fin a) as <-.
  { subst f0. destruct (is_none _); [by rewrite getattr_setattr_ne | done]. }
  apply bind_Ok in H as (f1 & H1 & H).
  assert (getattr f1 a = getattr f0 a) as <-.
  { destruct (mv_hard_sub movie).
    - by apply genre_append_other with (tag := TAG_HARD_SUB).
    - by inversion H1. }
  destruct (mv_uncensored movie).
  - by apply genre_append_other with (tag := TAG_UNCENSORED).
  - by inversion H.
Qed.

Lemma fix_aliases_other fin fin' a :
  fix_aliases actressAliasMap cfg fin = Ok fin' →
  a ≠ "actress" → a ≠ "actress_pics" → getattr fin' a = getattr fin a.
Proof.
  unfold fix_aliases. intros H H1 H2.
  case_match; [|by inversion H].
  apply bind_Ok in H as (l & _ & H).
  case_match; inversion H; subst.
  rewrite !getattr_setattr_ne by done. done.
Qed.

(** The steps of [merged_info], one by one. *)
Lemma merged_info_steps movie all_info fin :
  merged_info attrs remove_trail_actor_in_title actressAliasMap cfg
              movie all_info = Ok fin →
  let srcs := strip_titles remove_trail_actor_in_title cfg all_info in
  let st := absorb_all attrs srcs
              {| final_info := seed_genre all_info (MovieInfo_of_movie movie);
                 covers := []; big_covers := [] |} in
  ∃ fin1 cs fin3,
    respect_avid cfg movie srcs (final_info st) = Ok fin1 ∧
    adjust_covers cfg (javdb_cover srcs) (covers st) = Ok cs ∧
    fix_genre movie (set_covers fin1 cs (big_covers st)) = Ok fin3 ∧
    fix_aliases actressAliasMap cfg fin3 = Ok fin.
Proof.
  unfold merged_info. intros H. simpl.
  apply bind_Ok in H as (fin1 & H1 & H).
  apply bind_Ok in H as (cs & H2 & H).
  apply bind_Ok in H as (fin3 & H3 & H).
  eauto 10.
Qed.

(** An attribute which the other steps leave alone has, in the merged
    record, the value the walk gave it. *)
Lemma merged_info_walk_value movie all_info fin a :
  merged_info attrs remove_trail_actor_in_title actressAliasMap cfg
              movie all_info = Ok fin →
  a ∉ ["cover"; "big_cover"; "genre"; "dvdid"; "cid";
       "actress"; "actress_pics"; "covers"; "big_covers"] →
  getattr fin a
  = getattr (final_info
      (absorb_all attrs (strip_titles remove_trail_actor_in_title cfg all_info)
         {| final_info := seed_genre all_info (MovieInfo_of_movie movie);
            covers := []; big_covers := [] |})) a.
Proof.
  intros H Ha. apply merged_info_steps in H as (fin1 & cs & fin3 & H1 & H2 & H3 & H4).
  rewrite (fix_aliases_other _ _ _ H4) by set_solver.
  rewrite (fix_genre_other _ _ _ _ H3) by set_solver.
  rewrite set_covers_other by set_solver.
  rewrite (respect_avid_other _ _ _ _ _ H1) by set_solver.
  done.
Qed.

(** C1 (as amended).  The priority walk leaves a field that is populated
    unchanged and gives an unpopulated one the value of the first source,
    in priority order, that has a non-empty value (non-null for the
    uncensored flag); the fields which no other step of the merge seeds or
    rewrites therefore hold, in the merged record, the value of the first
    such source, and [None] when there is none. *)
Theorem merge_first_nonempty_wins movie all_info fin a :
  merged_info attrs remove_trail_actor_in_title actressAliasMap cfg
              movie all_info = Ok fin →
  a ∈ attrs →
  let srcs := strip_titles remove_trail_actor_in_title cfg all_info in
  (∀ st, a ≠ "cover" → a ≠ "big_cover" → a ≠ "uncensored" →
     let c := getattr (final_info st) a in
     getattr (final_info (absorb_all attrs srcs st)) a
     = if truthy c then c else default c (first_nonempty a srcs)) ∧
  (∀ st, a = "uncensored" →
     let c := getattr (final_info st) a in
     getattr (final_info (absorb_all attrs srcs st)) a
     = if is_none c then default c (first_nonnull a srcs) else c) ∧
  (walk_only a → getattr fin a = default PNone (first_nonempty a srcs)) ∧
  (a = "uncensored" → getattr fin a = default PNone (first_nonnull a srcs)).
Proof.
  intros H Hin srcs. repeat split.
  - intros st H1 H2 H3 c. rewrite absorb_all_plain by done. apply foldl_pick.
  - intros st -> c. rewrite absorb_all_flag by done. apply foldl_pick_flag.
  - intros Hw. unfold walk_only in Hw.
    rewrite (merged_info_walk_value _ _ _ _ H) by set_solver.
    rewrite absorb_all_plain by set_solver. rewrite foldl_pick. simpl.
    rewrite seed_genre_other by set_solver.
    rewrite MovieInfo_of_movie_other by set_solver. done.
  - intros ->. rewrite (merged_info_walk_value _ _ _ _ H) by set_solver.
    rewrite absorb_all_flag by done. rewrite foldl_pick_flag. simpl.
    rewrite seed_genre_other by done.
    rewrite MovieInfo_of_movie_other by done. done.
Qed.

End MergeFacts.

Lemma merge_first_nonempty_wins_witness :
  getattr demo_final "title" = PStr "Foo Bar"
  ∧ getattr demo_final "uncensored" = PBool false.
Proof.
  assert (merged_info demo_attrs keep_title [] demo_merge_cfg demo_movie
            demo_sources = Ok demo_final) as H by (vm_compute; reflexivity).
  split.
  - assert ("title" ∈ demo_attrs) as Hin by (by_decide).
    destruct (merge_first_nonempty_wins _ _ _ _ _ _ _ "title" H Hin) as (_ & _ & Hv & _).
    rewrite Hv; [reflexivity|].
    by_decide.
  - assert ("uncensored" ∈ demo_attrs) as Hin by (by_decide).
    destruct (merge_first_nonempty_wins _ _ _ _ _ _ _ "uncensored" H Hin) as (_ & _ & _ & Hv).
    rewrite Hv; reflexivity.
Defined.

(** C1, as stated, fails for the tags and for the identifier.  javbus
    comes first and has tags, yet the merged record has those of javdb;
    and the identifier of the item, which the record has from the start,
    stays when the first source returns another one. *)
Lemma genre_not_from_first_source :
  first_nonempty "genre" demo_sources = Some (PList [PStr "comedy"])
  ∧ (info_summary demo_attrs keep_title [] demo_merge_cfg demo_movie demo_sources
       ≫= fun r => Ok (r.1, flip getattr "genre" <$> mv_info r.2))
    = Ok (true, Some (PList [PStr "drama"]))
  ∧ first_nonempty "dvdid" demo_sources_other_id = Some (PStr "ABC-124")
  ∧ (info_summary demo_attrs keep_title [] demo_merge_cfg_own_id demo_movie
                  demo_sources_other_id
       ≫= fun r => Ok (r.1, flip getattr "dvdid" <$> mv_info r.2))
    = Ok (true, Some (PStr "ABC-123")).
Proof. repeat split; vm_compute; reflexivity. Qed.

(** ** The required fields *)

Lemma has_required_false keys fin :
  has_required keys fin = false
  ↔ Exists (fun attr => truthy (getattr fin attr) = false) keys.
Proof.
  induction keys as [|k r IH]; simpl.
  - split; [done | by inversion 1].
  - destruct (truthy (getattr fin k)) eqn:Hk; simpl.
    + rewrite IH. split; [by constructor 2 |].
      inversion 1; subst; [congruence | done].
    + split; [by constructor 1 | done].
Qed.



(** ** The cover lists *)

Lemma add_new_idem cs u : add_new (add_new cs u) u = add_new cs u.
Proof.
  unfold add_new, add_if. destruct (truthy u) eqn:Hu; simpl; [|done].
  destruct (decide (u ∈ cs)) as [Hin|Hin].
  - rewrite (bool_decide_eq_true_2 _ Hin). simpl.
    by rewrite (bool_decide_eq_true_2 _ Hin).
  - rewrite (bool_decide_eq_false_2 _ Hin). simpl.
    rewrite bool_decide_eq_true_2; [done|].
    apply elem_of_app. right. by apply list_elem_of_singleton.
Qed.

Lemma absorb_attr_covers data st attr :
  covers (absorb_attr data st attr)
  = if decide (attr = "cover") then add_new (covers st) (getattr data attr)
    else covers st.
Proof.
  unfold absorb_attr, add_new, add_if.
  repeat case_decide; repeat (case_match; simpl); done.
Qed.

Lemma absorb_attr_big_covers data st attr :
  big_covers (absorb_attr data st attr)
  = if decide (attr = "big_cover")
    then add_new (big_covers st) (getattr data attr)
    else big_covers st.
Proof.
  unfold absorb_attr, add_new, add_if.
  repeat case_decide; repeat (case_match; simpl); try done; congruence.
Qed.

Lemma absorb_attrs_covers data l st :
  covers (foldl (absorb_attr data) st l)
  = if bool_decide ("cover" ∈ l)
    then add_new (covers st) (getattr data "cover") else covers st.
Proof.
  revert st. induction l as [|x l IH]; intros st; simpl; [done|].
  rewrite IH, absorb_attr_covers. destruct (decide (x = "cover")) as [->|Hx].
  - rewrite add_new_idem.
    rewrite (bool_decide_eq_true_2 ("cover" ∈ "cover" :: l)) by apply list_elem_of_here.
    by case_bool_decide.
  - case_bool_decide as H1; case_bool_decide as H2; try done.
    + exfalso. apply H2. by apply list_elem_of_further.
    + exfalso. apply elem_of_cons in H2 as [?|?]; [congruence | done].
Qed.

Lemma absorb_attrs_big_covers data l st :
  big_covers (foldl (absorb_attr data) st l)
  = if bool_decide ("big_cover" ∈ l)
    then add_new (big_covers st) (getattr data "big_cover")
    else big_covers st.
Proof.
  revert st. induction l as [|x l IH]; intros st; simpl; [done|].
  rewrite IH, absorb_attr_big_covers.
  destruct (decide (x = "big_cover")) as [->|Hx].
  - rewrite add_new_idem.
    rewrite (bool_decide_eq_true_2 ("big_cover" ∈ "big_cover" :: l))
      by apply list_elem_of_here.
    by case_bool_decide.
  - case_bool_decide as H1; case_bool_decide as H2; try done.
    + exfalso. apply H2. by apply list_elem_of_further.
    + exfalso. apply elem_of_cons in H2 as [?|?]; [congruence | done].
Qed.

Lemma absorb_all_covers attrs all_info st :
  "cover" ∈ attrs →
  covers (absorb_all attrs all_info st)
  = foldl add_new (covers st) (values_of "cover" all_info).
Proof.
  intros Hin. revert st. unfold absorb_all.
  induction all_info as [|nd r IH]; intros st; simpl; [done|].
  rewrite IH. f_equal. unfold absorb_source.
  rewrite absorb_attrs_covers. by rewrite bool_decide_eq_true_2.
Qed.

Lemma absorb_all_big_covers attrs all_info st :
  "big_cover" ∈ attrs →
  big_covers (absorb_all attrs all_info st)
  = foldl add_new (big_covers st) (values_of "big_cover" all_info).
Proof.
  intros Hin. revert st. unfold absorb_all.
  induction all_info as [|nd r IH]; intros st; simpl; [done|].
  rewrite IH. f_equal. unfold absorb_source.
  rewrite absorb_attrs_big_covers. by rewrite bool_decide_eq_true_2.
Qed.

(** Folding [add_if P] over the values lists those that pass [P] in the
    order of first appearance. *)
Lemma foldl_add_if_first_seen (P : pyval → bool) urls :
  first_seen_of (filter (fun u => P u = true) urls) (foldl (add_if P) [] urls).
Proof.
  induction urls as [|x urls IH] using rev_ind.
  - repeat split; simpl; try done; [constructor|].
    intros r1 u r2 v H. by destruct r1.
  - rewrite foldl_snoc, filter_app.
    set (R := foldl (add_if P) [] urls) in *.
    set (F := filter (fun u => P u = true) urls) in *.
    destruct IH as (Hnd & Hmem & Hord).
    unfold add_if. destruct (P x) eqn:Hx; simpl.
    + assert (filter (fun u => P u = true) [x] = [x]) as ->.
      { rewrite filter_cons_True by done. done. }
      destruct (decide (x ∈ R)) as [Hin|Hin].
      * rewrite (bool_decide_eq_true_2 _ Hin). simpl.
        repeat split; [done | | |].
        -- intros Hu. apply elem_of_app. left. by apply Hmem.
        -- intros [Hu|Hu]%elem_of_app; [by apply Hmem|].
           apply list_elem_of_singleton in Hu. by subst.
        -- intros r1 u r2 v HR Hv.
           destruct (Hord r1 u r2 v HR Hv) as (l1 & l2 & -> & Hn).
           exists l1, (l2 ++ [x]). split; [|done].
           by rewrite <- app_assoc.
      * rewrite (bool_decide_eq_false_2 _ Hin). simpl.
        assert (x ∉ F) as HxF by (intros HF; by apply Hin, Hmem).
        repeat split.
        -- apply NoDup_app. repeat split; [done | | apply NoDup_singleton].
           intros y Hy Hy'. apply list_elem_of_singleton in Hy'. by subst.
        -- intros [Hu|Hu]%elem_of_app; apply elem_of_app;
             [left; by apply Hmem | by right].
        -- intros [Hu|Hu]%elem_of_app; apply elem_of_app;
             [left; by apply Hmem | by right].
        -- intros r1 u r2 v HR Hv.
           destruct r2 as [|y r2 _] using rev_ind; [by inversion Hv|].
           change (r1 ++ u :: r2 ++ [y]) with (r1 ++ (u :: r2) ++ [y]) in HR.
           rewrite app_assoc in HR. apply app_inj_tail in HR as [HR <-].
           apply elem_of_app in Hv as [Hv|Hv].
           ++ destruct (Hord r1 u r2 v HR Hv) as (l1 & l2 & HF & Hn).
              exists l1, (l2 ++ [x]). split; [|done].
              rewrite HF. by rewrite <- app_assoc.
           ++ apply list_elem_of_singleton in Hv. subst v.
              assert (u ∈ F) as HuF.
              { apply Hmem. rewrite HR. apply elem_of_app. right. left. }
              apply list_elem_of_split in HuF as (l1 & l2 & HF).
              exists l1, (l2 ++ [x]). split.
              ** rewrite HF. by rewrite <- app_assoc.
              ** intros Hl1. apply HxF. rewrite HF. apply elem_of_app. by left.
    + assert (filter (fun u => P u = true) [x] = []) as ->.
      { rewrite filter_cons_False by congruence. done. }
      rewrite app_nil_r. done.
Qed.

Lemma foldl_add_new_first_seen urls :
  first_seen_of (filter (fun u => truthy u = true) urls) (foldl add_new [] urls).
Proof. apply foldl_add_if_first_seen. Qed.

Lemma filter_ne_id (x : pyval) (l : list pyval) :
  x ∉ l → filter (fun u => u ≠ x) l = l.
Proof.
  induction l as [|y l IH]; intros Hx; [done|].
  apply not_elem_of_cons in Hx as [Hne Hx].
  rewrite filter_cons_True by congruence. by rewrite IH.
Qed.

(** Removing a value from a list without repetition. *)
Lemma list_remove_Ok x (l l' : list pyval) :
  list_remove x l = Ok l' → NoDup l →
  x ∈ l ∧ l' = filter (fun u => u ≠ x) l.
Proof.
  revert l'. induction l as [|y l IH]; intros l' H Hnd; simpl in H; [done|].
  apply NoDup_cons in Hnd as [Hy Hnd].
  destruct (decide (x = y)) as [->|Hne].
  - inversion H; subst. split; [left|].
    rewrite filter_cons_False by (intros ?; done).
    by rewrite filter_ne_id.
  - apply bind_Ok in H as (r' & Hr & H). inversion H; subst.
    destruct (IH _ Hr Hnd) as [Hin ->]. split; [by right|].
    by rewrite filter_cons_True by congruence.
Qed.

Lemma adjust_covers_spec cfg x cs0 cs :
  adjust_covers cfg x cs0 = Ok cs → NoDup cs0 →
  NoDup cs ∧
  cs = if is_none x then cs0
       else match use_javdb_cover cfg with
            | UseJavDBCover.yes => cs0
            | UseJavDBCover.no => filter (fun u => u ≠ x) cs0
            | UseJavDBCover.fallback => filter (fun u => u ≠ x) cs0 ++ [x]
            end.
Proof.
  unfold adjust_covers. intros H Hnd.
  destruct (is_none x); [by inversion H; subst|].
  destruct (use_javdb_cover cfg).
  - by inversion H; subst.
  - destruct (list_remove_Ok _ _ _ H Hnd) as [_ ->].
    split; [by apply NoDup_filter | done].
  - apply bind_Ok in H as (cs' & Hr & H). inversion H; subst.
    destruct (list_remove_Ok _ _ _ Hr Hnd) as [_ ->].
    split; [|done]. apply NoDup_app. repeat split.
    + by apply NoDup_filter.
    + intros y Hy Hy'. apply list_elem_of_singleton in Hy'. subst.
      apply list_elem_of_filter in Hy as [Hy _]. done.
    + apply NoDup_singleton.
Qed.

(** Stripping the titles changes titles only. *)
Lemma values_of_strip_titles rt cfg a all_info :
  a ≠ "title" →
  values_of a (strip_titles rt cfg all_info) = values_of a all_info.
Proof.
  intros Ha. unfold strip_titles, values_of.
  destruct (remove_trailing_actor_name cfg); [|done].
  rewrite map_map. apply map_ext. intros [n d]. simpl.
  unfold strip_title. by rewrite getattr_setattr_ne.
Qed.

Lemma dict_get_map {V} (f : V → V) k (d : list (string * V)) :
  dict_get k (map (fun nd => (nd.1, f nd.2)) d) = f <$> dict_get k d.
Proof.
  induction d as [|[k' v] d IH]; simpl; [done|].
  destruct (decide (k = k')); [done | apply IH].
Qed.

Lemma javdb_cover_strip_titles rt cfg all_info :
  javdb_cover (strip_titles rt cfg all_info) = javdb_cover all_info.
Proof.
  unfold strip_titles, javdb_cover.
  destruct (remove_trailing_actor_name cfg); [|done].
  rewrite dict_get_map. destruct (dict_get "javdb" all_info); simpl; [|done].
  unfold strip_title. by rewrite getattr_setattr_ne.
Qed.

Lemma set_covers_lists fin cs bcs :
  getattr (set_covers fin cs bcs) "covers" = PList cs ∧
  getattr (set_covers fin cs bcs) "big_covers" = PList bcs ∧
  (∀ c, head cs = Some c → getattr (set_covers fin cs bcs) "cover" = c) ∧
  (∀ c, head bcs = Some c → getattr (set_covers fin cs bcs) "big_cover" = c).
Proof.
  unfold set_covers. repeat split.
  - destruct cs, bcs; rewrite ?getattr_setattr_ne by done;
      by rewrite getattr_setattr_eq.
  - destruct cs, bcs; rewrite ?getattr_setattr_ne by done;
      by rewrite getattr_setattr_eq.
  - intros c Hc. destruct cs as [|c' cs]; inversion Hc; subst.
    destruct bcs; rewrite ?getattr_setattr_ne by done;
      by rewrite getattr_setattr_eq.
  - intros c Hc. destruct bcs as [|c' bcs]; inversion Hc; subst.
    by rewrite getattr_setattr_eq.
Qed.

(** C6 (as amended).  The list of high-resolution covers holds the
    non-empty [big_cover] values of the sources once each, in the order
    of first appearance.  So does the list of covers, but for the cover
    of javdb, which the configuration moves to the end ([fallback]) or
    drops ([no]); the other covers keep their order and no URL is
    repeated.  The head of each list, if any, is the primary
    cover. *)
Theorem cover_lists attrs rt am cfg movie all_info fin :
  merged_info attrs rt am cfg movie all_info = Ok fin →
  "cover" ∈ attrs → "big_cover" ∈ attrs →
  let x := javdb_cover all_info in
  ∃ cs0 cs bcs,
    getattr fin "covers" = PList cs ∧
    getattr fin "big_covers" = PList bcs ∧
    first_seen_of (filter (fun u => truthy u = true)
                          (values_of "cover" all_info)) cs0 ∧
    first_seen_of (filter (fun u => truthy u = true)
                          (values_of "big_cover" all_info)) bcs ∧
    NoDup cs ∧
    cs = (if is_none x then cs0
          else match use_javdb_cover cfg with
               | UseJavDBCover.yes => cs0
               | UseJavDBCover.no => filter (fun u => u ≠ x) cs0
               | UseJavDBCover.fallback => filter (fun u => u ≠ x) cs0 ++ [x]
               end) ∧
    (∀ c, head cs = Some c → getattr fin "cover" = c) ∧
    (∀ c, head bcs = Some c → getattr fin "big_cover" = c).
Proof.
  intros H Hc Hb x.
  apply merged_info_steps in H as (fin1 & cs & fin3 & H1 & H2 & H3 & H4).
  rewrite absorb_all_covers in H2 by done.
  rewrite absorb_all_big_covers in H3 by done. simpl in H2, H3.
  rewrite values_of_strip_titles in H2, H3 by done.
  rewrite javdb_cover_strip_titles in H2.
  pose proof (foldl_add_new_first_seen (values_of "cover" all_info)) as Hfs.
  pose proof (foldl_add_new_first_seen (values_of "big_cover" all_info)) as Hfb.
  destruct (adjust_covers_spec _ _ _ _ H2 (proj1 Hfs)) as [Hnd Hcs].
  set (bcs := foldl add_new [] (values_of "big_cover" all_info)) in *.
  destruct (set_covers_lists fin1 cs bcs) as (S1 & S2 & S3 & S4).
  assert (∀ a, a ≠ "genre" → a ≠ "actress" → a ≠ "actress_pics" →
               getattr fin a = getattr (set_covers fin1 cs bcs) a) as Hkeep.
  { intros a G1 G2 G3. rewrite (fix_aliases_other _ _ _ _ _ H4) by done.
    by rewrite (fix_genre_other _ _ _ _ H3). }
  exists (foldl add_new [] (values_of "cover" all_info)), cs, bcs.
  rewrite !Hkeep by done. repeat split; try done; apply Hfs || apply Hfb.
Qed.

Lemma cover_lists_witness :
  ∃ cs, getattr demo_final "covers" = PList cs ∧ NoDup cs
        ∧ ∀ c, head cs = Some c → getattr demo_final "cover" = c.
Proof.
  assert (merged_info demo_attrs keep_title [] demo_merge_cfg demo_movie
            demo_sources = Ok demo_final) as H by (vm_compute; reflexivity).
  assert ("cover" ∈ demo_attrs) as Hc by by_decide.
  assert ("big_cover" ∈ demo_attrs) as Hb by by_decide.
  destruct (cover_lists _ _ _ _ _ _ _ H Hc Hb)
    as (cs0 & cs & bcs & E1 & _ & _ & _ & Hnd & _ & Hhd & _).
  exists cs. repeat split; assumption.
Defined.

(** C6, as stated, fails under [fallback]: javdb comes first, its cover
    is seen first, and yet it is the last of the list. *)
Lemma javdb_cover_is_moved_last :
  ∃ cs,
    (merged_info demo_attrs keep_title [] demo_merge_cfg demo_movie
                 demo_sources_javdb_first
       ≫= fun fin => Ok (getattr fin "covers", getattr fin "cover"))
    = Ok (PList cs, PStr "http://x/1.jpg")
    ∧ values_of "cover" demo_sources_javdb_first
      = [PStr "http://y/2.jpg"; PStr "http://x/1.jpg"]
    ∧ ¬ first_seen_of
          (filter (fun u => truthy u = true)
                  (values_of "cover" demo_sources_javdb_first)) cs.
Proof.
  exists [PStr "http://x/1.jpg"; PStr "http://y/2.jpg"].
  split; [vm_compute; reflexivity|]. split; [vm_compute; reflexivity|].
  intros (_ & _ & Hord).
  destruct (Hord [] (PStr "http://x/1.jpg") [PStr "http://y/2.jpg"]
                 (PStr "http://y/2.jpg") eq_refl) as (l1 & l2 & Hl & Hn).
  { left. }
  vm_compute in Hl.
  destruct l1 as [|y l1]; [discriminate|].
  inversion Hl; subst. apply Hn. left.
Qed.

(** ** The identifier of the sites *)

Lemma weight_setdefault_append k n g v :
  weight (setdefault_append k n g) v
  = weight g v + (if decide (k = v) then 1 else 0).
Proof.
  unfold weight. induction g as [|[k' ns] g IH]; simpl.
  - destruct (decide (k = v)) as [->|Hne].
    + by rewrite bool_decide_eq_true_2.
    + by rewrite bool_decide_eq_false_2.
  - destruct (decide (k = k')) as [->|Hne]; simpl.
    + destruct (decide (k' = v)) as [->|Hv].
      * rewrite !bool_decide_eq_true_2 by done. simpl.
        rewrite length_app. simpl. lia.
      * rewrite !bool_decide_eq_false_2 by done. lia.
    + destruct (decide (k' = v)) as [->|Hv].
      * rewrite !bool_decide_eq_true_2 by done.
        destruct (decide (k = v)); [done | lia].
      * rewrite !bool_decide_eq_false_2 by done. apply IH.
Qed.

Lemma keys_setdefault_append k n g :
  map fst (setdefault_append k n g) = add_key (map fst g) k.
Proof.
  unfold add_key, add_if. simpl.
  induction g as [|[k' ns] g IH]; simpl; [done|].
  destruct (decide (k = k')) as [->|Hne]; simpl.
  - rewrite bool_decide_eq_true_2 by left. done.
  - rewrite IH. destruct (decide (k ∈ map fst g)) as [Hin|Hin].
    + rewrite (bool_decide_eq_true_2 _ Hin).
      rewrite bool_decide_eq_true_2 by (by right). done.
    + rewrite (bool_decide_eq_false_2 _ Hin).
      rewrite bool_decide_eq_false_2; [done|].
      intros [?|?]%elem_of_cons; done.
Qed.

Lemma titled_ids_cons a nd r :
  titled_ids a (nd :: r)
  = if truthy (getattr nd.2 "title")
    then getattr nd.2 a :: titled_ids a r
    else titled_ids a r.
Proof.
  unfold titled_ids. destruct (truthy (getattr nd.2 "title")) eqn:Ht.
  - by rewrite filter_cons_True.
  - rewrite filter_cons_False; [done | congruence].
Qed.

(** What [id_weight] builds: the identifiers in the order of first
    appearance, each with as many names as sources returned it. *)
Lemma id_weight_spec movie srcs g g' :
  id_weight movie srcs g = Ok g' →
  map fst g' = foldl add_key (map fst g) (titled_ids (id_attr movie) srcs) ∧
  ∀ v, weight g' v
       = weight g v + votes v (titled_ids (id_attr movie) srcs).
Proof.
  revert g. induction srcs as [|[name data] r IH]; intros g H; simpl in H.
  - inversion H; subst. split; [done|]. intros v. unfold votes. simpl. lia.
  - rewrite titled_ids_cons. simpl.
    destruct (truthy (getattr data "title")).
    + destruct (hashable (getattr data (id_attr movie))); [|done].
      destruct (IH _ H) as [Hk Hw]. split.
      * rewrite Hk. simpl. by rewrite keys_setdefault_append.
      * intros v. rewrite Hw, weight_setdefault_append. unfold votes.
        destruct (decide (getattr data (id_attr movie) = v)) as [->|Hne].
        -- rewrite filter_cons_True by done. simpl. lia.
        -- rewrite filter_cons_False by done. lia.
    + by apply IH.
Qed.

Lemma insert_desc_not_nil x l : insert_desc x l ≠ [].
Proof. destruct l; simpl; [done|]. by case_match. Qed.

Lemma sorted_desc_nil g : sorted_desc g = [] → g = [].
Proof.
  destruct g as [|a g]; [done|]. simpl. intros H.
  by apply insert_desc_not_nil in H.
Qed.

(** The head of the sorted groups: the first group of the greatest
    size. *)
Lemma sorted_desc_head g x r :
  sorted_desc g = x :: r →
  ∃ g1 g2, g = g1 ++ x :: g2 ∧
           (∀ y, y ∈ g1 → length y.2 < length x.2) ∧
           (∀ y, y ∈ g2 → length y.2 ≤ length x.2).
Proof.
  revert x r. induction g as [|a g IH]; intros x r H; simpl in H; [done|].
  destruct (sorted_desc g) as [|y r'] eqn:Hs.
  - apply sorted_desc_nil in Hs. subst g. simpl in H. inversion H; subst.
    exists [], []. repeat split; intros y Hy; by inversion Hy.
  - destruct (IH _ _ eq_refl) as (g1 & g2 & Hg & H1 & H2).
    simpl in H. destruct (length y.2 <=? length a.2) eqn:Hle.
    + apply Nat.leb_le in Hle. inversion H; subst x r.
      exists [], g. repeat split; [intros z Hz; by inversion Hz|].
      intros z Hz. rewrite Hg in Hz.
      apply elem_of_app in Hz as [Hz|Hz].
      * specialize (H1 _ Hz). lia.
      * apply elem_of_cons in Hz as [->|Hz]; [done|].
        specialize (H2 _ Hz). lia.
    + apply Nat.leb_gt in Hle. inversion H; subst x r.
      exists (a :: g1), g2. repeat split.
      * by rewrite Hg.
      * intros z [->|Hz]%elem_of_cons; [done | by apply H1].
      * done.
Qed.

Lemma weight_entry g k ns :
  NoDup (map fst g) → (k, ns) ∈ g → weight g k = length ns.
Proof.
  unfold weight. induction g as [|[k' ns'] g IH]; intros Hnd Hin; simpl.
  - by inversion Hin.
  - simpl in Hnd. apply NoDup_cons in Hnd as [Hk' Hnd].
    apply elem_of_cons in Hin as [Heq|Hin].
    + inversion Heq; subst. by rewrite bool_decide_eq_true_2.
    + destruct (decide (k' = k)) as [->|Hne].
      * exfalso. apply Hk'. apply list_elem_of_fmap. by exists (k, ns).
      * rewrite bool_decide_eq_false_2 by done. by apply IH.
Qed.

Lemma weight_absent g v : v ∉ map fst g → weight g v = 0.
Proof.
  unfold weight. induction g as [|[k' ns'] g IH]; intros Hv; simpl; [done|].
  simpl in Hv. apply not_elem_of_cons in Hv as [Hne Hv].
  rewrite bool_decide_eq_false_2 by done. by apply IH.
Qed.

Lemma votes_pos v (ids : list pyval) : v ∈ ids ↔ 0 < votes v ids.
Proof.
  unfold votes. split.
  - intros Hin.
    assert (v ∈ filter (fun u => u = v) ids) as Hf
      by (by apply list_elem_of_filter).
    destruct (filter (fun u => u = v) ids); [by inversion Hf | simpl; lia].
  - intros Hlen. destruct (filter (fun u => u = v) ids) as [|y l] eqn:Hf;
      [simpl in Hlen; lia|].
    assert (y ∈ filter (fun u => u = v) ids) as Hy by (rewrite Hf; left).
    apply list_elem_of_filter in Hy as [-> Hy]. done.
Qed.

Lemma filter_all (l : list pyval) :
  filter (fun u => (fun _ : pyval => true) u = true) l = l.
Proof.
  induction l as [|y l IH]; [done|].
  rewrite filter_cons_True by done. by rewrite IH.
Qed.

Lemma final_id_wins attrs rt am cfg movie all_info fin :
  respect_site_avid cfg = true →
  merged_info attrs rt am cfg movie all_info = Ok fin →
  let ids := titled_ids (id_attr movie) (strip_titles rt cfg all_info) in
  ids ≠ [] →
  let w := getattr fin (id_attr movie) in
  w ∈ ids ∧
  (∀ v, votes v ids ≤ votes w ids) ∧
  (∀ v, v ≠ w → votes v ids = votes w ids →
        ∃ l1 l2, ids = l1 ++ w :: l2 ∧ v ∉ l1).
Proof.
  intros Hon H ids Hids w.
  apply merged_info_steps in H as (fin1 & cs & fin3 & H1 & H2 & H3 & H4).
  assert (w = getattr fin1 (id_attr movie)) as Hw.
  { subst w. rewrite (fix_aliases_other _ _ _ _ _ H4)
      by (destruct (id_attr_cases movie) as [-> | ->]; done).
    rewrite (fix_genre_other _ _ _ _ H3)
      by (destruct (id_attr_cases movie) as [-> | ->]; done).
    apply set_covers_other;
      destruct (id_attr_cases movie) as [-> | ->]; done. }
  clearbody w. clear H2 H3 H4.
  unfold respect_avid in H1. rewrite Hon in H1.
  apply bind_Ok in H1 as (g & Hg & H1).
  destruct (id_weight_spec _ _ _ _ Hg) as [Hkeys Hweight]. simpl in Hkeys.
  fold ids in Hkeys, Hweight.
  pose proof (foldl_add_if_first_seen (fun _ => true) ids) as (Hnd & Hmem & Hord).
  rewrite filter_all in Hmem, Hord.
  change (foldl (add_if (fun _ => true)) [] ids) with (foldl add_key [] ids)
    in Hnd, Hmem, Hord.
  rewrite <- Hkeys in Hnd, Hmem, Hord.
  destruct (sorted_desc g) as [|[k ns] r] eqn:Hs.
  { apply sorted_desc_nil in Hs. subst g. destruct ids as [|i ids']; [done|].
    exfalso. assert (i ∈ map fst ([] : list (pyval * list string))) as Hi
      by (apply Hmem; left).
    by inversion Hi. }
  inversion H1; subst fin1. rewrite getattr_setattr_eq in Hw. subst k.
  destruct (sorted_desc_head _ _ _ Hs) as (g1 & g2 & Hsplit & Hlt & Hle).
  assert ((w, ns) ∈ g) as Hin by (rewrite Hsplit; apply elem_of_app; right; left).
  assert (∀ v, votes v ids = weight g v) as Hvotes.
  { intros v. rewrite Hweight. unfold weight. simpl. done. }
  assert (votes w ids = length ns) as Hvw.
  { rewrite Hvotes. by apply weight_entry. }
  assert (∀ v, v ∈ map fst g → ∃ ns', (v, ns') ∈ g ∧ votes v ids = length ns')
    as Hentry.
  { intros v Hv. apply list_elem_of_fmap in Hv as ([v' ns'] & -> & Hv).
    exists ns'. split; [done|]. rewrite Hvotes. by apply weight_entry. }
  assert (w ∈ ids) as Hwin.
  { apply Hmem. apply list_elem_of_fmap. by exists (w, ns). }
  repeat split; [done | |].
  - intros v. destruct (decide (v ∈ map fst g)) as [Hv|Hv].
    + destruct (Hentry v Hv) as (ns' & Hv' & ->). rewrite Hvw.
      rewrite Hsplit in Hv'. apply elem_of_app in Hv' as [Hv'|Hv'].
      * specialize (Hlt _ Hv'). simpl in Hlt. lia.
      * apply elem_of_cons in Hv' as [Heq|Hv']; [by inversion Heq|].
        apply (Hle _ Hv').
    + rewrite Hvotes, (weight_absent _ _ Hv). lia.
  - intros v Hne Htie.
    assert (v ∈ ids) as Hvin.
    { apply votes_pos. rewrite Htie. by apply votes_pos. }
    destruct (Hentry v (proj2 (Hmem v) Hvin)) as (ns' & Hv' & Hlen).
    rewrite Hsplit in Hv'. apply elem_of_app in Hv' as [Hv'|Hv'].
    { specialize (Hlt _ Hv'). simpl in Hlt. lia. }
    apply elem_of_cons in Hv' as [Heq|Hv']; [by inversion Heq|].
    apply (Hord (map fst g1) w (map fst g2) v).
    + rewrite Hsplit. by rewrite map_app.
    + apply list_elem_of_fmap. by exists (v, ns').
Qed.

(** C7.  With [respect_site_avid] on, the identifier of the merged
    record is the standard identifier ([dvdid]) for an item that has
    one and the content id ([cid]) for an item that has none.  In
    either case, when at least one source has a title, it is a value of
    that attribute that the sources with a title returned; no value was
    returned by more of them; and it appears, in priority order, before
    every other value returned by as many. *)
Theorem final_id_has_most_sources attrs rt am cfg movie all_info fin a :
  respect_site_avid cfg = true →
  merged_info attrs rt am cfg movie all_info = Ok fin →
  (a = "dvdid" ∧ truthy (of_opt (mv_dvdid movie)) = true ∨
   a = "cid" ∧ truthy (of_opt (mv_dvdid movie)) = false) →
  let ids := titled_ids a (strip_titles rt cfg all_info) in
  ids ≠ [] →
  let w := getattr fin a in
  w ∈ ids ∧
  (∀ v, votes v ids ≤ votes w ids) ∧
  (∀ v, v ≠ w → votes v ids = votes w ids →
        ∃ l1 l2, ids = l1 ++ w :: l2 ∧ v ∉ l1).
Proof.
  intros Hon H Ha.
  assert (a = id_attr movie) as ->.
  { unfold id_attr. by destruct Ha as [[-> ->]|[-> ->]]. }
  exact (final_id_wins attrs rt am cfg movie all_info fin Hon H).
Qed.

Lemma final_id_has_most_sources_witness :
  (getattr demo_final_ids "dvdid" = PStr "ABC-124"
   ∧ ∀ v, votes v (titled_ids "dvdid" demo_sources_ids) ≤ 2) ∧
  (getattr demo_final_cids "cid" = PStr "abc00124"
   ∧ ∀ v, votes v (titled_ids "cid" demo_sources_cids) ≤ 2).
Proof.
  split.
  - assert (merged_info demo_attrs keep_title [] demo_merge_cfg demo_movie
              demo_sources_ids = Ok demo_final_ids) as H
      by (vm_compute; reflexivity).
    assert (titled_ids "dvdid"
              (strip_titles keep_title demo_merge_cfg demo_sources_ids) ≠ [])
      as Hne by (vm_compute; discriminate).
    destruct (final_id_has_most_sources demo_attrs keep_title [] demo_merge_cfg
                demo_movie demo_sources_ids demo_final_ids "dvdid" eq_refl H
                (or_introl (conj eq_refl eq_refl)) Hne)
      as (_ & Hmax & _).
    split; [vm_compute; reflexivity|].
    intros v. specialize (Hmax v). exact Hmax.
  - assert (merged_info demo_attrs keep_title [] demo_merge_cfg
              demo_cid_only_movie demo_sources_cids = Ok demo_final_cids) as H
      by (vm_compute; reflexivity).
    assert (titled_ids "cid"
              (strip_titles keep_title demo_merge_cfg demo_sources_cids) ≠ [])
      as Hne by (vm_compute; discriminate).
    destruct (final_id_has_most_sources demo_attrs keep_title [] demo_merge_cfg
                demo_cid_only_movie demo_sources_cids demo_final_cids "cid"
                eq_refl H (or_intror (conj eq_refl eq_refl)) Hne)
      as (_ & Hmax & _).
    split; [vm_compute; reflexivity|].
    intros v. specialize (Hmax v). exact Hmax.
Defined.

(** ** The workers *)

Lemma wrapper_from_step parser cnt left info :
  wrapper_from parser cnt (S left) info
  = let o := (parser cnt info).2 in
    let info' := (parser cnt info).1 in
    if terminal o
    then ((if decide (o = Returned)
           then setattr info' "success" (PBool true) else info'), [o])
    else ((wrapper_from parser (S cnt) left info').1,
          o :: (wrapper_from parser (S cnt) left info').2).
Proof.
  simpl. destruct (parser cnt info) as [info' o]. simpl.
  destruct o; simpl; try done;
    by destruct (wrapper_from parser (S cnt) left info').
Qed.

Lemma wrapper_from_spec parser left :
  ∀ cnt info,
    let os := (wrapper_from parser cnt left info).2 in
    length os ≤ left ∧
    (∀ i o, os !! i = Some o →
            o = (parser (cnt + i) (handed parser cnt info i)).2) ∧
    (∀ i o, os !! i = Some o → terminal o = true → length os = S i) ∧
    (∀ i o, os !! i = Some o → terminal o = false → S i < left →
            is_Some (os !! S i)).
Proof.
  induction left as [|left IH]; intros cnt info os.
  - subst os. simpl. split; [lia|]. repeat split; intros i o H; by destruct i.
  - subst os. rewrite wrapper_from_step. simpl.
    specialize (IH (S cnt) (parser cnt info).1). simpl in IH.
    destruct IH as (I1 & I2 & I3 & I4).
    destruct (terminal (parser cnt info).2) eqn:Ht; simpl.
    + split; [lia|]. repeat split.
      * intros [|i] o H; simpl in H; [|by destruct i].
        inversion H; subst. by rewrite Nat.add_0_r.
      * intros [|i] o H; simpl in H; [done | by destruct i].
      * intros [|i] o H; simpl in H; [|by destruct i].
        inversion H; subst. congruence.
    + split; [lia|]. repeat split.
      * intros [|i] o H; simpl in H.
        -- inversion H; subst. by rewrite Nat.add_0_r.
        -- rewrite <- Nat.add_succ_comm. simpl. by apply I2.
      * intros [|i] o H Ho; simpl in H.
        -- inversion H; subst. congruence.
        -- f_equal. by eapply I3.
      * intros [|i] o H Ho Hlt; simpl in H; simpl.
        -- destruct left as [|left']; [lia|].
           rewrite wrapper_from_step. simpl.
           destruct (terminal (parser (S cnt) (parser cnt info).1).2); simpl;
             by eexists.
        -- apply (I4 _ _ H Ho). lia.
Qed.

(** C5 (as amended).  A worker calls the adapter at most [retry] times.
    A call that returns, or that ends in not-found, duplicate-target or
    access-denied, is the last one.  After a network error, and after an
    error of no known class as well, which is logged with its traceback,
    the adapter is called again as long as attempts are left. *)
Theorem wrapper_attempts parser info retry :
  let os := (wrapper parser info retry).2 in
  length os ≤ retry ∧
  (∀ i o, os !! i = Some o → o = (parser i (handed parser 0 info i)).2) ∧
  (∀ i o, os !! i = Some o → terminal o = true → length os = S i) ∧
  (∀ i o, os !! i = Some o →
          o = RequestException ∨ o = OtherException →
          S i < retry → is_Some (os !! S i)) ∧
  logged OtherException = LException.
Proof.
  unfold wrapper.
  destruct (wrapper_from_spec parser retry 0 info) as (H1 & H2 & H3 & H4).
  repeat split; try done.
  intros i o Ho [-> | ->] Hlt; by eapply H4.
Qed.

(** C5, as stated, fails for the errors of no known class: the adapter
    is called a second time after one, and its record is kept. *)
Lemma unclassified_error_is_retried :
  (wrapper flaky_parser ∅ 3).2 = [OtherException; Returned]
  ∧ getattr (wrapper flaky_parser ∅ 3).1 "success" = PBool true.
Proof. split; vm_compute; reflexivity. Qed.

(** ** The kind of the item *)

Lemma dict_get_dict_set {V} k k' (v : V) d :
  dict_get k (dict_set k' v d)
  = if decide (k = k') then Some v else dict_get k d.
Proof.
  induction d as [|[k0 v0] d IH]; simpl.
  - by destruct (decide (k = k')).
  - destruct (decide (k' = k0)) as [->|Hne]; simpl.
    + by destruct (decide (k = k0)).
    + rewrite IH. destruct (decide (k = k0)) as [->|?]; [|done].
      by rewrite decide_False.
Qed.

Lemma dict_get_fold_set {V} (v : V) keys d k :
  k ∈ keys ∨ is_Some (dict_get k d) →
  is_Some (dict_get k (foldl (fun d i => dict_set i v d) d keys)).
Proof.
  revert d. induction keys as [|i keys IH]; intros d H; simpl.
  - destruct H as [H|H]; [by inversion H | done].
  - apply IH. rewrite dict_get_dict_set.
    destruct (decide (k = i)) as [->|Hne]; [right; by eexists|].
    destruct H as [[?|?]%elem_of_cons|?]; [done | by left | by right].
Qed.

Lemma dict_get_map_keyed {V} (f : string * V → V) k (d : list (string * V)) :
  dict_get k (map (fun kv => (kv.1, f kv)) d)
  = (fun v => f (k, v)) <$> dict_get k d.
Proof.
  induction d as [|[k' v] d IH]; simpl; [done|].
  destruct (decide (k = k')) as [->|?]; [done | apply IH].
Qed.

Section CrawlFacts.
Variable parse_data : string -> Adapter.
Variable has_parse_data_raw : string -> bool.
Variable cfg : CrawlCfg.

Lemma init_all_info_keys movie k :
  k ∈ selection cfg (mv_data_src movie) →
  is_Some (dict_get k (init_all_info cfg movie)).
Proof.
  intros Hk. unfold init_all_info.
  assert (is_Some (dict_get k
            (foldl (fun d i => dict_set i (MovieInfo_of_movie movie) d) []
                   (selection cfg (mv_data_src movie))))) as H0
    by (apply dict_get_fold_set; by left).
  destruct (second_try movie); [|done].
  apply dict_get_fold_set. right.
  rewrite (dict_get_map (fun o => setattr o "dvdid" PNone)).
  by apply fmap_is_Some.
Qed.

Lemma run_workers_keys all_info k :
  is_Some (dict_get k all_info) →
  is_Some (dict_get k (run_workers parse_data has_parse_data_raw cfg all_info)).
Proof.
  intros H. unfold run_workers, run_worker.
  rewrite (dict_get_map_keyed
             (fun kv => (wrapper (parse_data kv.1) kv.2
                           (if has_parse_data_raw kv.1 then 1
                            else network_retry cfg)).1)).
  by apply fmap_is_Some.
Qed.

Lemma titles_of_spec (all_info : list (string * MovieInfo)) keys :
  (∀ k, k ∈ keys → is_Some (dict_get k all_info)) →
  ∃ ts, titles_of all_info keys = Ok ts ∧
        (existsb truthy ts = true ↔
         ∃ k data, k ∈ keys ∧ dict_get k all_info = Some data ∧
                   truthy (getattr data "title") = true).
Proof.
  induction keys as [|i keys IH]; intros Hk; simpl.
  - exists []. split; [done|]. split; [done|].
    intros (k & data & Hin & _). by inversion Hin.
  - destruct (Hk i) as [data Hi]; [left|]. rewrite Hi.
    destruct IH as (ts & -> & Hts); [intros k Hin; apply Hk; by right|].
    simpl. eexists. split; [done|]. simpl.
    rewrite orb_true_iff, Hts. split.
    + intros [Ht | (k & d & Hin & Hd & Ht)].
      * exists i, data. repeat split; [left | done | done].
      * exists k, d. repeat split; [by right | done | done].
    + intros (k & d & [->|Hin]%elem_of_cons & Hd & Ht).
      * left. congruence.
      * right. eauto.
Qed.

(** C4 (as amended).  For an item of the content-id kind that has a
    standard identifier as well: when a crawler of the content-id list
    returned a non-empty title, the item stays of the content-id kind,
    loses its standard identifier, and only the records of the
    content-id list are kept; otherwise the item becomes of the standard
    kind, loses its content-id, and the records of the content-id list
    are dropped. *)
Theorem data_src_follows_cid_titles movie :
  second_try movie = true →
  let joined := run_workers parse_data has_parse_data_raw cfg
                            (init_all_info cfg movie) in
  let cid_titled :=
    ∃ k data, k ∈ selection cfg "cid" ∧ dict_get k joined = Some data ∧
              truthy (getattr data "title") = true in
  ∃ movie' kept,
    update_data_src cfg movie joined = Ok (movie', kept) ∧
    parallel_crawler parse_data has_parse_data_raw cfg movie
    = Ok (movie', strip_keys (drop_failed kept)) ∧
    (cid_titled →
       mv_data_src movie' = "cid" ∧ mv_dvdid movie' = None ∧
       mv_cid movie' = mv_cid movie ∧
       kept = filter (fun kv => kv.1 ∈ selection cfg "cid") joined) ∧
    (¬ cid_titled →
       mv_data_src movie' = "normal" ∧ mv_cid movie' = None ∧
       mv_dvdid movie' = mv_dvdid movie ∧
       kept = filter (fun kv => kv.1 ∉ selection cfg "cid") joined).
Proof.
  intros Hst joined cid_titled.
  assert (mv_data_src movie = "cid") as Hsrc.
  { unfold second_try in Hst. apply andb_true_iff in Hst as [Hst _].
    by apply bool_decide_eq_true in Hst. }
  destruct (titles_of_spec joined (selection cfg "cid")) as (ts & Hts & Hiff).
  { intros k Hk. apply run_workers_keys, init_all_info_keys. by rewrite Hsrc. }
  unfold parallel_crawler. fold joined.
  unfold update_data_src. rewrite Hst, Hsrc, Hts. simpl.
  destruct (existsb truthy ts) eqn:Hex; simpl.
  - eexists _, _. split; [reflexivity|]. split; [reflexivity|]. split.
    + intros _. by repeat split.
    + intros Hno. exfalso. apply Hno. by apply Hiff.
  - eexists _, _. split; [reflexivity|]. split; [reflexivity|]. split.
    + intros Hyes. apply Hiff in Hyes. congruence.
    + intros _. by repeat split.
Qed.

End CrawlFacts.

Lemma data_src_follows_cid_titles_witness :
  ∃ movie' all_info,
    parallel_crawler (fun _ => titled_parser "Foo") no_raw demo_crawl_cfg
                     demo_cid_movie = Ok (movie', all_info)
    ∧ mv_data_src movie' = "cid" ∧ mv_dvdid movie' = None.
Proof.
  destruct (data_src_follows_cid_titles (fun _ => titled_parser "Foo") no_raw
              demo_crawl_cfg demo_cid_movie eq_refl)
    as (movie' & kept & _ & Hp & Hyes & _).
  exists movie', (strip_keys (drop_failed kept)). split; [exact Hp|].
  destruct Hyes as (H1 & H2 & _); [|split; assumption].
  exists "fanza", (wrapper (titled_parser "Foo")
                           (setattr (MovieInfo_of_movie demo_cid_movie)
                                    "dvdid" PNone) 3).1.
  split; [by_decide|]. split; vm_compute; reflexivity.
Defined.

(** C4, as stated, fails both ways.  When both lists return a title the
    item stays of the content-id kind and the record of the standard
    crawlers is dropped; when no crawler returns a title the item becomes
    of the standard kind. *)
Lemma standard_title_does_not_reclassify :
  let joined := run_workers (fun _ => titled_parser "Foo") no_raw demo_crawl_cfg
                  (init_all_info demo_crawl_cfg demo_cid_movie) in
  (flip getattr "title" <$> dict_get "javbus" joined) = Some (PStr "Foo")
  ∧ (update_data_src demo_crawl_cfg demo_cid_movie joined
       ≫= fun r => Ok (mv_data_src r.1, mv_dvdid r.1, map fst r.2))
    = Ok ("cid", None, ["fanza"])
  ∧ (parallel_crawler (fun _ => silent_parser) no_raw demo_crawl_cfg
                      demo_cid_movie
       ≫= fun r => Ok (mv_data_src r.1, mv_cid r.1))
    = Ok ("normal", None).
Proof. repeat split; vm_compute; reflexivity. Qed.

(** ** The keys of the returned dictionary *)

(** What C10 says of the records holds before the keys are cut: the
    records kept are those that carry the mark, without it. *)
Lemma drop_failed_spec (all_info : list (string * MovieInfo)) k data :
  (k, data) ∈ drop_failed all_info ↔
  ∃ data0, (k, data0) ∈ all_info ∧ hasattr data0 "success" = true
           ∧ data = delattr data0 "success".
Proof.
  unfold drop_failed. rewrite list_elem_of_fmap. split.
  - intros ([k0 d0] & Heq & Hin). inversion Heq; subst.
    apply list_elem_of_filter in Hin as [Hs Hin]. eauto.
  - intros (d0 & Hin & Hs & ->). exists (k, d0). split; [done|].
    by apply list_elem_of_filter.
Qed.

(** C10 fails on the keys: the names of the crawlers carry no prefix,
    and the slice takes their first four characters away. *)
Theorem returned_keys_lose_four_characters :
  (parallel_crawler (fun _ => titled_parser "Foo") no_raw demo_crawl_cfg
                    demo_movie
     ≫= fun r => Ok (map fst r.2))
  = Ok ["us"; "b"].
Proof. vm_compute. reflexivity. Qed.

(** ** The Namer *)

Lemma legalize_path_clean p : has_newline (legalize_path p) = false.
Proof.
  induction p as [|c r IH]; simpl; [done|].
  destruct (decide (c = newline)) as [->|Hne]; [done|].
  simpl. by rewrite bool_decide_eq_false_2.
Qed.

Lemma strs_of_PStr (l : list string) : strs_of (PStr <$> l) = Ok l.
Proof.
  induction l as [|x l IH]; [done|].
  change (strs_of (PStr <$> x :: l))
    with (strs_of (PStr <$> l) ≫= fun ss => Ok (x :: ss)).
  by rewrite IH.
Qed.

Lemma join_prefix_chunks (l : list string) n :
  join_prefix (PList (PStr <$> l)) n = Ok (join "" (take n l)).
Proof. unfold join_prefix. rewrite <- fmap_take. by rewrite strs_of_PStr. Qed.

Lemma countdown_S n : countdown (S n) = S n :: countdown n.
Proof.
  unfold countdown. rewrite seq_S. rewrite rev_app_distr. done.
Qed.

(** *** Code points *)

Lemma join_empty_cons x l : join "" (x :: l) = x +:+ join "" l.
Proof.
  destruct l as [|y l]; simpl; [|done].
  induction x as [|c x IH]; [done|].
  change (String c x +:+ "") with (String c (x +:+ "")). by rewrite <- IH.
Qed.

(** The code points of a string are its bytes, cut into pieces. *)
Lemma code_points_join s : join "" (code_points s) = s.
Proof.
  induction s as [|c r IH]; [done|]. simpl.
  destruct (code_points r) as [|u us].
  - simpl in IH. by rewrite <- IH.
  - rewrite join_empty_cons in IH.
    destruct (begins_with_continuation u); rewrite !join_empty_cons.
    + change (String c u +:+ ?x) with (String c (u +:+ x)). by rewrite IH.
    + change (String c "" +:+ ?x) with (String c x). by rewrite IH.
Qed.

(** A piece begins where a code point does: at the head of the string,
    or at a byte that is no continuation byte. *)
Lemma code_points_pieces s :
  Forall (fun u => u ≠ "") (code_points s) ∧
  ∀ u us, code_points s = u :: us →
          Forall (fun v => begins_with_continuation v = false) us.
Proof.
  induction s as [|c r [IH1 IH2]]; [by split|]. simpl.
  destruct (code_points r) as [|u us] eqn:E.
  - split; [by constructor|]. by intros u us [= <- <-].
  - apply Forall_cons in IH1 as [Hu Hus].
    specialize (IH2 u us eq_refl).
    destruct (begins_with_continuation u) eqn:Eu.
    + split; [by constructor|]. by intros v vs [= <- <-].
    + split; [constructor; [done | by constructor]|].
      intros v vs [= <- <-]. by constructor.
Qed.

(** On text below 128 the code points are the bytes. *)
Lemma code_points_ascii s :
  Forall (fun c => is_continuation c = false) (list_ascii_of_string s) →
  code_points s = map (fun c => String c "") (list_ascii_of_string s).
Proof.
  induction s as [|c r IH]; [done|]. simpl.
  intros [Hc Hr]%Forall_cons. rewrite (IH Hr).
  destruct r as [|c' r']; [done|]. simpl.
  apply Forall_cons in Hr as [Hc' _]. by rewrite Hc'.
Qed.

(** Text of three and four bytes to the code point: the length, the
    slices and the white space count code points, not bytes. *)
Lemma code_points_samples :
  code_points "a日b" = ["a"; "日"; "b"] ∧
  str_len "日本語" = 3 ∧
  py_slice_to "日本語" (-1) = "日本" ∧
  py_slice_to "日本語" 2 = "日本" ∧
  py_slice_to "日本語" (-5) = "" ∧
  str_drop 1 "日本語" = "本語" ∧
  strip "　Foo　bar 　" = "Foo　bar" ∧
  map ord (code_points "a　é𝄞") = [97%N; 12288%N; 233%N; 119070%N].
Proof. repeat split; vm_compute; reflexivity. Qed.

(** A slice that stops at a budget which is not positive: nothing is
    left at [0], and the last [-stop] code points are cut off below. *)
Lemma py_slice_to_nonpos s stop :
  (stop ≤ 0)%Z → py_slice_to s stop = cut_by stop s.
Proof.
  intros Hs. unfold py_slice_to, cut_by, all_but_last, str_take.
  destruct (decide (stop = 0%Z)) as [->|Hne]; [done|].
  rewrite (proj2 (Z.leb_gt 0 stop)) by lia. do 2 f_equal. lia.
Qed.

Lemma hard_cut_spec c remaining :
  (remaining ≤ 0)%Z →
  hard_cut c remaining
  = with_rawtitle (with_title c (cut_by remaining (d_title c)))
                  (cut_by remaining (d_rawtitle c)).
Proof.
  intros H. unfold hard_cut. simpl.
  by rewrite !(py_slice_to_nonpos _ _ H).
Qed.

(** *** White space *)

Lemma drop_spaces_spec us :
  ∃ a, us = a ++ drop_spaces us ∧
       Forall (fun u => is_space u = true) a ∧
       ∀ u, head (drop_spaces us) = Some u → is_space u = false.
Proof.
  induction us as [|u us (a & Ha & Hsp & Hhd)]; simpl.
  - exists []. by repeat split.
  - destruct (is_space u) eqn:Eu.
    + exists (u :: a). split; [simpl; by rewrite <- Ha|].
      split; [by constructor | done].
    + exists []. split; [done|]. split; [done|].
      by intros v [= <-].
Qed.

(** [strip] takes white space off both ends, all of it, and nothing
    else. *)
Lemma strip_points_spec us :
  ∃ a b, us = a ++ strip_points us ++ b ∧
         Forall (fun u => is_space u = true) a ∧
         Forall (fun u => is_space u = true) b ∧
         (∀ u, head (strip_points us) = Some u → is_space u = false) ∧
         (∀ u, last (strip_points us) = Some u → is_space u = false).
Proof.
  unfold strip_points.
  destruct (drop_spaces_spec us) as (a & Ha & Hsa & Hha).
  destruct (drop_spaces_spec (rev (drop_spaces us))) as (b & Hb & Hsb & Hhb).
  set (m := drop_spaces us) in *.
  set (k := drop_spaces (rev m)) in *.
  assert (m = rev k ++ rev b) as Hm.
  { rewrite <- rev_app_distr, <- Hb. by rewrite rev_involutive. }
  exists a, (rev b). split; [by rewrite <- Hm|].
  split; [done|]. split; [by apply Forall_rev|]. split.
  - intros u Hu. apply Hha. rewrite Hm.
    destruct (rev k); [done|]. exact Hu.
  - intros u Hu. apply Hhb. apply last_Some in Hu as [l' Hl'].
    rewrite <- (rev_involutive k), Hl', rev_app_distr. done.
Qed.

(** *** The longest extension *)

Lemma longest_from best pre l :
  first_longest best pre →
  first_longest
    (foldl (fun best y => if (str_len best <? str_len y)%nat then y else best)
           best l)
    (pre ++ l).
Proof.
  revert best pre. induction l as [|y l IH]; intros best pre Hb; simpl.
  - by rewrite app_nil_r.
  - replace (pre ++ y :: l) with ((pre ++ [y]) ++ l)
      by (by rewrite <- app_assoc).
    apply IH. destruct Hb as (l1 & l2 & -> & H1 & H2).
    destruct (str_len best <? str_len y)%nat eqn:E.
    + apply Nat.ltb_lt in E. exists (l1 ++ best :: l2), [].
      split; [done|]. split; [|by intros z Hz; inversion Hz].
      intros z [Hz|[->|Hz]%elem_of_cons]%elem_of_app.
      * specialize (H1 z Hz). lia.
      * done.
      * specialize (H2 z Hz). lia.
    + apply Nat.ltb_ge in E. exists l1, (l2 ++ [y]).
      split; [by rewrite <- app_assoc|]. split; [done|].
      intros z [Hz|Hz]%elem_of_app; [by apply H2|].
      apply list_elem_of_singleton in Hz as ->. done.
Qed.

(** [max(..., key=len)] gives the first of the longest. *)
Lemma longest_first x l : first_longest (longest x l) (x :: l).
Proof.
  unfold longest. apply (longest_from x [x] l).
  exists [], []. split; [done|]. split; intros z Hz; by inversion Hz.
Qed.

Lemma first_longest_unique e1 e2 l :
  first_longest e1 l → first_longest e2 l → e1 = e2.
Proof.
  intros (a1 & b1 & -> & Ha1 & Hb1) (a2 & b2 & Heq & Ha2 & Hb2).
  revert a2 Heq Ha2. induction a1 as [|x a1 IH]; intros a2 Heq Ha2.
  - destruct a2 as [|y a2]; simpl in Heq; [by injection Heq|].
    injection Heq as Hy Heq. subst y.
    assert (e2 ∈ b1) as Hin
      by (rewrite Heq; apply elem_of_app; right; left).
    specialize (Hb1 _ Hin).
    assert (str_len e1 < str_len e2) by (apply Ha2; left). lia.
  - destruct a2 as [|y a2]; simpl in Heq.
    + injection Heq as Hx Heq. subst x.
      assert (e1 ∈ b2) as Hin
        by (rewrite <- Heq; apply elem_of_app; right; left).
      specialize (Hb2 _ Hin).
      assert (str_len e2 < str_len e1) by (apply Ha1; left). lia.
    + injection Heq as Hx Heq. subst y. apply (IH) with (a2 := a2).
      * intros z Hz. apply Ha1. by right.
      * done.
      * intros z Hz. apply Ha2. by right.
Qed.

Lemma longest_is x l ext : first_longest ext (x :: l) → longest x l = ext.
Proof.
  intros H. apply (first_longest_unique _ _ (x :: l)); [|done].
  apply longest_first.
Qed.

Lemma inner_loop_cons os lib cfg f0 ext tb sub_end r copyd rem :
  inner_loop os lib cfg f0 ext tb (sub_end :: r) copyd rem
  = join_prefix tb sub_end ≫= fun t =>
      let copyd' := with_title copyd (replace_illegal_chars lib (strip t)) in
      let p := render os cfg f0 copyd' in
      if (0 <? remaining_of os lib ext p)%Z then Ok (Accepted p.1 p.2 copyd')
      else inner_loop os lib cfg f0 ext tb r copyd'
             (Some (remaining_of os lib ext p)).
Proof. reflexivity. Qed.

Lemma outer_loop_cons os lib cfg f0 ext tb otb e r copyd rem :
  outer_loop os lib cfg f0 ext tb otb (e :: r) copyd rem
  = join_prefix otb e ≫= fun t =>
      let copyd' := with_rawtitle copyd (replace_illegal_chars lib (strip t)) in
      py_len tb ≫= fun n =>
      inner_loop os lib cfg f0 ext tb (countdown n) copyd' rem ≫= fun res =>
      match res with
      | Accepted _ _ _ => Ok res
      | Exhausted c rem' => outer_loop os lib cfg f0 ext tb otb r c rem'
      end.
Proof. reflexivity. Qed.

Section NamerFacts.
Variable os : OsPath.
Variable lib : JavspLib.
Variable cfg : NameCfg.
Variable f0 longest_ext : string.
Variable raw_chunks title_chunks : list string.

Let budget (c : InfoDic) : Z :=
  remaining_of os lib longest_ext (render os cfg f0 c).
Let T (s : nat) : string :=
  replace_illegal_chars lib (strip (join "" (take s title_chunks))).
Let tb : pyval := PList (PStr <$> title_chunks).
Let otb : pyval := PList (PStr <$> raw_chunks).

Lemma join_prefix_tb s :
  join_prefix tb s = Ok (join "" (take s title_chunks)).
Proof. apply join_prefix_chunks. Qed.

Lemma join_prefix_otb e :
  join_prefix otb e = Ok (join "" (take e raw_chunks)).
Proof. apply join_prefix_chunks. Qed.

(** The inner loop stops at the first count that fits. *)
Lemma inner_loop_accepts k : ∀ c rem s,
  1 ≤ s ≤ k →
  (0 < budget (with_title c (T s)))%Z →
  (∀ s', s < s' ≤ k → (budget (with_title c (T s')) ≤ 0)%Z) →
  inner_loop os lib cfg f0 longest_ext tb (countdown k) c rem
  = Ok (Accepted (render os cfg f0 (with_title c (T s))).1
                 (render os cfg f0 (with_title c (T s))).2
                 (with_title c (T s))).
Proof.
  induction k as [|k IH]; intros c rem s Hs Hfit Hno; [lia|].
  rewrite countdown_S, inner_loop_cons. rewrite join_prefix_tb. simpl.
  destruct (decide (s = S k)) as [->|Hne].
  - fold (T (S k)). fold (budget (with_title c (T (S k)))).
    by rewrite (proj2 (Z.ltb_lt _ _) Hfit).
  - fold (T (S k)). fold (budget (with_title c (T (S k)))).
    rewrite (proj2 (Z.ltb_ge _ _)) by (apply Hno; lia).
    apply (IH (with_title c (T (S k))) _ s); [lia | done |].
    intros s' Hs'. apply (Hno s'). lia.
Qed.

(** It runs to its end when no count fits, and leaves the title of one
    chunk and its budget. *)
Lemma inner_loop_exhausts k : ∀ c rem,
  (∀ s', 1 ≤ s' ≤ k → (budget (with_title c (T s')) ≤ 0)%Z) →
  inner_loop os lib cfg f0 longest_ext tb (countdown k) c rem
  = Ok (match k with
        | O => Exhausted c rem
        | S _ => Exhausted (with_title c (T 1))
                           (Some (budget (with_title c (T 1))))
        end).
Proof.
  induction k as [|k IH]; intros c rem Hno; [done|].
  rewrite countdown_S, inner_loop_cons. rewrite join_prefix_tb. simpl.
  fold (T (S k)). fold (budget (with_title c (T (S k)))).
  rewrite (proj2 (Z.ltb_ge _ _)) by (apply Hno; lia).
  rewrite (IH (with_title c (T (S k)))).
  - by destruct k.
  - intros s' Hs'. apply (Hno s'). lia.
Qed.

Let D (c : InfoDic) (e s : nat) : InfoDic :=
  dic_at lib c raw_chunks title_chunks e s.
Let n_title : nat := length title_chunks.

Lemma py_len_tb : py_len tb = Ok n_title.
Proof. unfold tb, n_title. simpl. by rewrite length_fmap. Qed.

(** The two loops stop at the first combination that fits. *)
Lemma outer_loop_accepts n : ∀ c rem e s,
  1 ≤ e ≤ n → 1 ≤ s ≤ n_title →
  (0 < budget (D c e s))%Z →
  (∀ e' s', before n n_title e' s' e s → (budget (D c e' s') ≤ 0)%Z) →
  outer_loop os lib cfg f0 longest_ext tb otb (countdown n) c rem
  = Ok (Accepted (render os cfg f0 (D c e s)).1
                 (render os cfg f0 (D c e s)).2 (D c e s)).
Proof.
  induction n as [|n IH]; intros c rem e s He Hs Hfit Hno; [lia|].
  rewrite countdown_S, outer_loop_cons. rewrite join_prefix_otb, bind_Ok_l.
  cbv beta zeta. rewrite py_len_tb, bind_Ok_l. cbv beta.
  set (c1 := with_rawtitle c _).
  destruct (decide (e = S n)) as [->|Hne].
  - rewrite (inner_loop_accepts n_title c1 rem s); [done | done | done |].
    intros s' Hs'. apply (Hno (S n) s'). right. lia.
  - rewrite inner_loop_exhausts.
    + destruct n_title as [|k] eqn:Hk; [lia|].
      apply (IH (with_title c1 (T 1)) _ e s); [lia | lia | done |].
      intros e' s' [H|H]; apply (Hno e' s'); [left | right]; lia.
    + intros s' Hs'. apply (Hno (S n) s'). left. lia.
Qed.

(** They run to their end when no combination fits, and leave the
    dictionary and the budget of one chunk each. *)
Lemma outer_loop_exhausts n : ∀ c rem,
  1 ≤ n_title →
  (∀ e s, 1 ≤ e ≤ n → 1 ≤ s ≤ n_title → (budget (D c e s) ≤ 0)%Z) →
  outer_loop os lib cfg f0 longest_ext tb otb (countdown n) c rem
  = Ok (match n with
        | O => Exhausted c rem
        | S _ => Exhausted (D c 1 1) (Some (budget (D c 1 1)))
        end).
Proof.
  induction n as [|n IH]; intros c rem Ht Hno; [done|].
  rewrite countdown_S, outer_loop_cons. rewrite join_prefix_otb, bind_Ok_l.
  cbv beta zeta. rewrite py_len_tb, bind_Ok_l. cbv beta.
  set (c1 := with_rawtitle c _).
  rewrite inner_loop_exhausts.
  - destruct n_title as [|k] eqn:Hk; [lia|].
    rewrite bind_Ok_l. cbv beta iota.
    rewrite (IH (with_title c1 (T 1))); [by destruct n | lia |].
    intros e s He Hs. apply (Hno e s); lia.
  - intros s' Hs'. apply (Hno (S n) s'); lia.
Qed.

End NamerFacts.

Section NamerTheorems.
Variable os : OsPath.
Variable lib : JavspLib.
Variable cfg : NameCfg.

Lemma generate_names_unfold movie info info' d f0 fs rc tc :
  mv_info movie = Some info →
  prepare lib cfg info = Ok (info', d) →
  mv_files movie = f0 :: fs →
  chunks lib info' "title_break" (d_title d) = PList (PStr <$> tc) →
  chunks lib info' "ori_title_break" (d_rawtitle d) = PList (PStr <$> rc) →
  generate_names os lib cfg movie
  = outer_loop os lib cfg f0
      (longest (splitext_ext os f0) (map (splitext_ext os) fs))
      (PList (PStr <$> tc)) (PList (PStr <$> rc)) (countdown (length rc))
      (with_num d (d_num d +:+ mv_attr_str movie)) None
    ≫= fun res =>
      let movie' := set_info movie (Some info') in
      match res with
      | Accepted save_dir base c =>
          Ok (legalize_info (assign os cfg movie' save_dir base c))
      | Exhausted c None => Raise UnboundLocalError
      | Exhausted c (Some remaining) =>
          let c' := hard_cut c remaining in
          Ok (legalize_info (assign os cfg movie'
                (render os cfg f0 c').1 (render os cfg f0 c').2 c'))
      end.
Proof.
  intros Hi Hp Hf Ht Hr. unfold generate_names.
  rewrite Hi, Hp, bind_Ok_l. cbv beta iota zeta. rewrite Hf, Ht, Hr.
  unfold fit. simpl py_len. rewrite length_fmap. by rewrite bind_Ok_l.
Qed.

(** C8.  The paths are measured with the longest of the extensions of
    the files of the item, the first of them when several are as long.
    When the combination [(e, s)] of chunk counts fits and no
    combination that the loops try before it does (a greater count of
    raw-title chunks, or the same and a greater count of title chunks),
    the plan is the one rendered from the first [e] chunks of the raw
    title and the first [s] chunks of the title. *)
Theorem namer_takes_first_fit movie info info' d f0 fs rc tc ext e s :
  mv_info movie = Some info →
  prepare lib cfg info = Ok (info', d) →
  mv_files movie = f0 :: fs →
  chunks lib info' "title_break" (d_title d) = PList (PStr <$> tc) →
  chunks lib info' "ori_title_break" (d_rawtitle d) = PList (PStr <$> rc) →
  first_longest ext (map (splitext_ext os) (f0 :: fs)) →
  let copyd := with_num d (d_num d +:+ mv_attr_str movie) in
  let budget e s :=
    get_remaining_path_len lib
      (abspath os
         (path_join os (render os cfg f0 (dic_at lib copyd rc tc e s)).1
            ((render os cfg f0 (dic_at lib copyd rc tc e s)).2 +:+ ext))) in
  1 ≤ e ≤ length rc → 1 ≤ s ≤ length tc →
  (0 < budget e s)%Z →
  (∀ e' s', before (length rc) (length tc) e' s' e s → (budget e' s' ≤ 0)%Z) →
  generate_names os lib cfg movie
  = Ok (legalize_info
          (assign os cfg (set_info movie (Some info'))
             (render os cfg f0 (dic_at lib copyd rc tc e s)).1
             (render os cfg f0 (dic_at lib copyd rc tc e s)).2
             (dic_at lib copyd rc tc e s))).
Proof.
  intros Hi Hp Hf Ht Hr Hext copyd budget He Hs Hfit Hno.
  rewrite (generate_names_unfold _ _ _ _ _ _ _ _ Hi Hp Hf Ht Hr).
  assert (longest (splitext_ext os f0) (map (splitext_ext os) fs) = ext)
    as -> by (by apply longest_is).
  fold copyd.
  rewrite (outer_loop_accepts os lib cfg f0 ext rc tc (length rc) copyd None e s);
    done.
Qed.

Lemma fit_legalized movie f0 ext tb otb copyd movie' :
  fit os lib cfg movie f0 ext tb otb copyd = Ok movie' →
  ∃ m, movie' = legalize_info m.
Proof.
  unfold fit. intros H.
  apply bind_Ok in H as (n & _ & H). apply bind_Ok in H as (res & _ & H).
  destruct res as [sd bn c | c [z|]]; inversion H; by eexists.
Qed.

(** What does hold of C9: the four paths that [legalize_info] goes
    through have no line break. *)
Lemma legalized_paths_have_no_newline movie movie' p :
  generate_names os lib cfg movie = Ok movie' →
  Some p ∈ [mv_save_dir movie'; mv_nfo_file movie';
            mv_fanart_file movie'; mv_poster_file movie'] →
  has_newline p = false.
Proof.
  unfold generate_names. intros H Hp.
  destruct (mv_info movie) as [info|]; [|done].
  apply bind_Ok in H as ([info' d] & _ & H).
  destruct (mv_files movie) as [|f0 fs]; [done|].
  apply fit_legalized in H as (m & ->).
  unfold legalize_info in Hp. simpl in Hp.
  repeat (apply elem_of_cons in Hp as [Hp|Hp];
          [apply eq_sym, fmap_Some in Hp as (q & _ & ->);
           apply legalize_path_clean|]).
  by inversion Hp.
Qed.

End NamerTheorems.

Lemma namer_takes_first_fit_witness :
  (generate_names demo_os (demo_lib 38) (demo_name_cfg true) demo_two_files
     ≫= fun m => Ok (mv_basename m))
  = Ok (Some "ABC-123 Foo Bar").
Proof.
  rewrite (namer_takes_first_fit demo_os (demo_lib 38) (demo_name_cfg true)
             demo_two_files
             (record [("dvdid", PStr "ABC-123");
                      ("title", PStr "Foo Bar Baz Quux")])
             demo_prepared.1 demo_prepared.2
             "/videos/ABC-123.mp4" ["/videos/ABC-123.torrent"]
             demo_chunks demo_chunks ".torrent" 4 2).
  - vm_compute. reflexivity.
  - reflexivity.
  - vm_compute. reflexivity.
  - reflexivity.
  - vm_compute. reflexivity.
  - vm_compute. reflexivity.
  - exists [".mp4"], []. split; [vm_compute; reflexivity|].
    split; intros y Hy.
    + apply list_elem_of_singleton in Hy as ->. vm_compute. lia.
    + by inversion Hy.
  - simpl. lia.
  - simpl. lia.
  - vm_compute. reflexivity.
  - intros e' s' [[H _]|[-> H]]; simpl in H; [lia|].
    assert (s' = 3 ∨ s' = 4) as [-> | ->] by lia; vm_compute; discriminate.
Defined.

(** C3.  An item whose record came with an empty list of chunks for
    its title has a record and a file, and the Namer raises on it: no
    combination is tried, and the cut of the titles reads [remaining],
    which no round of the loops has assigned. *)
Theorem namer_raises :
  is_Some (mv_info demo_no_chunks)
  ∧ mv_files demo_no_chunks = ["/videos/ABC-123.mp4"]
  ∧ getattr (default ∅ (mv_info demo_no_chunks)) "title_break" = PList []
  ∧ generate_names demo_os (demo_lib 100) (demo_name_cfg true) demo_no_chunks
    = Raise UnboundLocalError.
Proof.
  split; [by eexists|]. split; [reflexivity|].
  split; vm_compute; reflexivity.
Qed.

(** C9 fails on the base name: [legalize_info] does not go through it,
    and a line break of the title, or of the name of the file when the
    files stay in place, is still in it. *)
Theorem basename_keeps_newline :
  (generate_names demo_os (demo_lib 100) (demo_name_cfg true)
                  demo_newline_movie
     ≫= fun m => Ok (mv_basename m, has_newline <$> mv_basename m))
  = Ok (Some ("ABC-123 Foo" +:+ String newline "Bar"), Some true)
  ∧ (generate_names demo_os (demo_lib 100) (demo_name_cfg false)
                    demo_newline_file
       ≫= fun m => Ok (mv_basename m, has_newline <$> mv_basename m))
    = Ok (Some ("Foo" +:+ String newline "Bar"), Some true).
Proof. split; vm_compute; reflexivity. Qed.

(** * Further properties *)

(** ** More of the merge *)

Lemma truthy_PList l : l ≠ [] → truthy (PList l) = true.
Proof. intros H. simpl. by rewrite (bool_decide_eq_false_2 _ H). Qed.

Section MergeMore.
Variable attrs : list string.
Variable remove_trail_actor_in_title : pyval -> pyval -> pyval.
Variable actressAliasMap : list (string * list string).
Variable cfg : MergeCfg.

(** A populated field goes through the walk unchanged, whether the
    attribute list names it or not. *)
Lemma absorb_all_keeps a all_info st :
  a ≠ "cover" → a ≠ "big_cover" → a ≠ "uncensored" →
  truthy (getattr (final_info st) a) = true →
  getattr (final_info (absorb_all attrs all_info st)) a
  = getattr (final_info st) a.
Proof.
  intros H1 H2 H3. revert st. unfold absorb_all.
  induction all_info as [|nd r IH]; intros st Ht; simpl; [done|].
  assert (getattr (final_info (absorb_source attrs st nd)) a
          = getattr (final_info st) a) as Hstep.
  { unfold absorb_source. rewrite absorb_attrs_plain by done.
    case_bool_decide; [|done]. unfold pick. by rewrite Ht. }
  rewrite IH; [done | by rewrite Hstep].
Qed.

Lemma fix_genre_spec movie fin fin' :
  fix_genre movie fin = Ok fin' →
  let g0 := if is_none (getattr fin "genre") then PList []
            else getattr fin "genre" in
  let tags := (if mv_hard_sub movie then [PStr TAG_HARD_SUB] else [])
              ++ (if mv_uncensored movie then [PStr TAG_UNCENSORED] else []) in
  (tags = [] ∧ getattr fin' "genre" = g0) ∨
  (∃ l, g0 = PList l ∧ getattr fin' "genre" = PList (l ++ tags)).
Proof.
  unfold fix_genre. intros H.
  set (f0 := if is_none (getattr fin "genre")
             then setattr fin "genre" (PList []) else fin) in H.
  assert (getattr f0 "genre"
          = if is_none (getattr fin "genre") then PList []
            else getattr fin "genre") as Hg0.
  { subst f0. destruct (is_none _); [by rewrite getattr_setattr_eq | done]. }
  simpl. rewrite <- Hg0. clear Hg0.
  apply bind_Ok in H as (f1 & H1 & H).
  unfold genre_append in *.
  destruct (mv_hard_sub movie), (mv_uncensored movie); simpl.
  - destruct (getattr f0 "genre") as [| | |l|] eqn:E0; try done.
    inversion H1; subst f1. rewrite getattr_setattr_eq in H.
    inversion H; subst fin'. right. exists l. split; [done|].
    rewrite getattr_setattr_eq. by rewrite <- app_assoc.
  - destruct (getattr f0 "genre") as [| | |l|] eqn:E0; try done.
    inversion H1; subst f1. inversion H; subst fin'. right. exists l.
    split; [done|]. by rewrite getattr_setattr_eq.
  - inversion H1; subst f1.
    destruct (getattr f0 "genre") as [| | |l|] eqn:E0; try done.
    inversion H; subst fin'. right. exists l.
    split; [done|]. by rewrite getattr_setattr_eq.
  - inversion H1; subst f1. inversion H; subst fin'. by left.
Qed.

(** X1: The tags of javdb come before those of every other source: when
    javdb is among the sources with a non-empty list of tags, the merged
    tags are that list, followed by the tags of the flags of the item. *)
Theorem javdb_genre_wins movie all_info fin data g :
  merged_info attrs remove_trail_actor_in_title actressAliasMap cfg
              movie all_info = Ok fin →
  dict_get "javdb" all_info = Some data →
  getattr data "genre" = PList g → g ≠ [] →
  getattr fin "genre"
  = PList (g ++ (if mv_hard_sub movie then [PStr TAG_HARD_SUB] else [])
             ++ (if mv_uncensored movie then [PStr TAG_UNCENSORED] else [])).
Proof.
  intros H Hd Hg Hne.
  apply merged_info_steps in H as (fin1 & cs & fin3 & H1 & H2 & H3 & H4).
  rewrite (fix_aliases_other _ _ _ _ _ H4) by done.
  assert (getattr (set_covers fin1 cs
            (big_covers (absorb_all attrs
               (strip_titles remove_trail_actor_in_title cfg all_info)
               {| final_info := seed_genre all_info (MovieInfo_of_movie movie);
                  covers := []; big_covers := [] |}))) "genre" = PList g)
    as Hfin2.
  { rewrite set_covers_other by done.
    rewrite (respect_avid_other _ _ _ _ _ _ H1) by done.
    assert (getattr (seed_genre all_info (MovieInfo_of_movie movie)) "genre"
            = PList g) as Hseed.
    { unfold seed_genre. rewrite Hd, Hg, (truthy_PList _ Hne).
      by rewrite getattr_setattr_eq. }
    rewrite absorb_all_keeps; simpl; try done.
    rewrite Hseed. by apply truthy_PList. }
  destruct (fix_genre_spec _ _ _ H3) as [[Ht Hf]|(l & Hl & Hf)];
    rewrite Hfin2 in *; simpl in *.
  - rewrite Hf. destruct (mv_hard_sub movie), (mv_uncensored movie);
      try done. by rewrite app_nil_r.
  - inversion Hl; subst l. done.
Qed.

(** X2: The tags are never left unset: the merged record has a value for
    them, which is a list that holds the tag of each flag of the item,
    the one of an uncensored item last. *)
Theorem genre_never_unset movie all_info fin :
  merged_info attrs remove_trail_actor_in_title actressAliasMap cfg
              movie all_info = Ok fin →
  is_none (getattr fin "genre") = false ∧
  (mv_hard_sub movie = true →
     ∃ l, getattr fin "genre" = PList l ∧ PStr TAG_HARD_SUB ∈ l) ∧
  (mv_uncensored movie = true →
     ∃ l, getattr fin "genre" = PList (l ++ [PStr TAG_UNCENSORED])).
Proof.
  intros H.
  apply merged_info_steps in H as (fin1 & cs & fin3 & H1 & H2 & H3 & H4).
  rewrite (fix_aliases_other _ _ _ _ _ H4) by done.
  destruct (fix_genre_spec _ _ _ H3) as [[Ht Hf]|(l & Hl & Hf)]; rewrite Hf.
  - split; [by destruct (is_none (getattr _ "genre")) eqn:E|].
    destruct (mv_hard_sub movie), (mv_uncensored movie); done.
  - split; [done|]. split; intros Hflag; rewrite Hflag.
    + eexists. split; [done|]. apply elem_of_app. right.
      apply elem_of_app. left. left.
    + exists (l ++ (if mv_hard_sub movie then [PStr TAG_HARD_SUB] else [])).
      by rewrite <- app_assoc.
Qed.


Lemma dict_set_not_nil {V} k (v : V) d : dict_set k v d ≠ [].
Proof. destruct d as [|[k' v'] d]; simpl; [done|]. by case_decide. Qed.

Lemma fix_aliases_spec fin fin' :
  fix_aliases actressAliasMap cfg fin = Ok fin' →
  (normalize_actress_name cfg && truthy (getattr fin "actress_pics") = false
   ∧ fin' = fin) ∨
  (normalize_actress_name cfg = true ∧
   ∃ l d, py_iter (getattr fin "actress") = Ok l ∧
          getattr fin "actress_pics" = PDict d ∧ d ≠ [] ∧
          getattr fin' "actress"
          = PList (map (resolve_alias_val actressAliasMap) l) ∧
          truthy (getattr fin' "actress_pics") = true).
Proof.
  unfold fix_aliases. intros H.
  destruct (normalize_actress_name cfg && truthy (getattr fin "actress_pics"))
    eqn:Hc; [|left; by inversion H].
  apply andb_true_iff in Hc as [Hn Ht]. right. split; [done|].
  apply bind_Ok in H as (l & Hl & H).
  rewrite getattr_setattr_ne in H by done.
  destruct (getattr fin "actress_pics") as [| | | |d] eqn:Hd; try done.
  inversion H; subst fin'. exists l, d.
  assert (d ≠ []) as Hne.
  { intros ->. simpl in Ht. done. }
  repeat split; try done.
  - rewrite getattr_setattr_ne by done. by rewrite getattr_setattr_eq.
  - rewrite getattr_setattr_eq. simpl.
    rewrite bool_decide_eq_false_2; [done|].
    destruct d as [|kv d] using rev_ind; [done|].
    rewrite foldl_snoc. apply dict_set_not_nil.
Qed.

(** X3: The aliases are resolved only when the merged record has pictures
    of the people: without any, the people stay as the first source
    with a non-empty list gave them, even when the normalisation is on;
    with pictures and the normalisation on, every name of that list goes
    through the alias table. *)
Theorem aliases_need_pictures movie all_info fin :
  merged_info attrs remove_trail_actor_in_title actressAliasMap cfg
              movie all_info = Ok fin →
  "actress" ∈ attrs →
  let first := default PNone
                 (first_nonempty "actress"
                    (strip_titles remove_trail_actor_in_title cfg all_info)) in
  (truthy (getattr fin "actress_pics") = false → getattr fin "actress" = first) ∧
  (normalize_actress_name cfg = false → getattr fin "actress" = first) ∧
  (normalize_actress_name cfg = true →
   truthy (getattr fin "actress_pics") = true →
   ∀ l, first = PList l →
        getattr fin "actress"
        = PList (map (resolve_alias_val actressAliasMap) l)).
Proof.
  intros H Hin first.
  apply merged_info_steps in H as (fin1 & cs & fin3 & H1 & H2 & H3 & H4).
  assert (getattr fin3 "actress" = first) as H3a.
  { rewrite (fix_genre_other _ _ _ _ H3) by done.
    rewrite set_covers_other by done.
    rewrite (respect_avid_other _ _ _ _ _ _ H1) by done.
    rewrite absorb_all_plain by done. rewrite foldl_pick. simpl.
    rewrite seed_genre_other by done.
    by rewrite MovieInfo_of_movie_other. }
  destruct (fix_aliases_spec _ _ H4)
    as [[Hc ->]|(Hn & l & d & Hl & Hd & Hne & Ha & Ht)].
  - repeat split; try done.
    intros Hn Ht. rewrite Hn, Ht in Hc. done.
  - repeat split.
    + intros Hf. congruence.
    + intros Hf. congruence.
    + intros _ _ l' Hl'. rewrite Ha. rewrite H3a, Hl' in Hl.
      simpl in Hl. by inversion Hl.
Qed.

Lemma list_remove_absent x (l : list pyval) :
  x ∉ l → list_remove x l = Raise ValueError.
Proof.
  induction l as [|y l IH]; intros Hx; simpl; [done|].
  apply not_elem_of_cons in Hx as [Hne Hx].
  rewrite decide_False by done. by rewrite IH.
Qed.

Lemma add_new_truthy cs u v :
  v ∈ add_new cs u → v ∈ cs ∨ truthy v = true.
Proof.
  unfold add_new, add_if. destruct (truthy u) eqn:Hu; simpl; [|by left].
  destruct (negb _); [|by left].
  intros [?|Hv]%elem_of_app; [by left|].
  apply list_elem_of_singleton in Hv. subst. by right.
Qed.

Lemma absorb_all_covers_truthy all_info st v :
  v ∈ covers (absorb_all attrs all_info st) →
  v ∈ covers st ∨ truthy v = true.
Proof.
  unfold absorb_all. revert st.
  induction all_info as [|nd r IH]; intros st Hv; simpl in Hv; [by left|].
  apply IH in Hv as [Hv|Hv]; [|by right].
  unfold absorb_source in Hv. rewrite absorb_attrs_covers in Hv.
  case_bool_decide; [|by left]. by apply add_new_truthy in Hv.
Qed.

(** X4: A cover of javdb that is empty without being [None] (an empty
    string, say) makes the merge raise when the configuration is to
    move or to drop the cover of javdb: the value is not among the
    candidates and [covers.remove] does not find it. *)
Theorem empty_javdb_cover_raises movie all_info data :
  dict_get "javdb" all_info = Some data →
  is_none (getattr data "cover") = false →
  truthy (getattr data "cover") = false →
  use_javdb_cover cfg ≠ UseJavDBCover.yes →
  respect_site_avid cfg = false →
  info_summary attrs remove_trail_actor_in_title actressAliasMap cfg
               movie all_info = Raise ValueError.
Proof.
  intros Hd Hn Ht Hmode Hoff.
  unfold info_summary, merged_info, respect_avid. rewrite Hoff, bind_Ok_l.
  rewrite javdb_cover_strip_titles.
  unfold javdb_cover. rewrite Hd. unfold adjust_covers. rewrite Hn.
  rewrite list_remove_absent.
  - by destruct (use_javdb_cover cfg).
  - intros Hin. apply absorb_all_covers_truthy in Hin as [Hin|Hin].
    + by inversion Hin.
    + congruence.
Qed.

(** X5: With no record at all the merge does not raise, and fails as soon
    as a field is required that is neither an identifier of the item
    nor the tags. *)
Theorem merge_of_nothing_fails movie k :
  k ∈ required_keys cfg → k ∉ ["dvdid"; "cid"; "genre"] →
  info_summary attrs remove_trail_actor_in_title actressAliasMap cfg
               movie [] = Ok (false, movie).
Proof.
  intros Hk Hnot.
  assert (∃ fin, merged_info attrs remove_trail_actor_in_title
                   actressAliasMap cfg movie [] = Ok fin ∧
                 truthy (getattr fin k) = false) as (fin & Hm & Hf).
  { unfold merged_info, strip_titles, respect_avid.
    assert ((if remove_trailing_actor_name cfg
             then map (fun nd : string * MovieInfo =>
                         (nd.1, strip_title remove_trail_actor_in_title nd.2)) []
             else []) = []) as -> by (by destruct (remove_trailing_actor_name cfg)).
    simpl. unfold seed_genre, javdb_cover. simpl.
    assert ((if respect_site_avid cfg then Ok (MovieInfo_of_movie movie)
             else Ok (MovieInfo_of_movie movie))
            = Ok (MovieInfo_of_movie movie)) as ->
      by (by destruct (respect_site_avid cfg)).
    cbv beta iota delta [mbind result_bind].
    set (fin2 := setattr (setattr (MovieInfo_of_movie movie) "covers" (PList []))
                         "big_covers" (PList [])).
    assert (∀ a, a ≠ "dvdid" → a ≠ "cid" → truthy (getattr fin2 a) = false)
      as H2.
    { intros a Ha1 Ha2. subst fin2.
      destruct (decide (a = "big_covers")) as [->|?];
        [by rewrite getattr_setattr_eq|].
      rewrite getattr_setattr_ne by done.
      destruct (decide (a = "covers")) as [->|?];
        [by rewrite getattr_setattr_eq|].
      rewrite getattr_setattr_ne by done.
      by rewrite MovieInfo_of_movie_other. }
    assert (k ≠ "dvdid" ∧ k ≠ "cid" ∧ k ≠ "genre") as (K1 & K2 & K3).
    { repeat split; intros ->; apply Hnot; by_decide. }
    destruct (fix_genre movie fin2) as [fin3|e] eqn:H3.
    - unfold fix_aliases.
      rewrite (fix_genre_other _ _ _ "actress_pics" H3) by done.
      rewrite (H2 "actress_pics") by done.
      rewrite andb_false_r. eexists. split; [done|].
      rewrite (fix_genre_other _ _ _ k H3) by done. by apply H2.
    - exfalso. unfold fix_genre in H3.
      assert (getattr fin2 "genre" = PNone) as Hg.
      { subst fin2. rewrite !getattr_setattr_ne by done.
        by apply MovieInfo_of_movie_other. }
      rewrite Hg in H3. simpl in H3. unfold genre_append in H3.
      destruct (mv_hard_sub movie), (mv_uncensored movie); simpl in H3;
        rewrite ?getattr_setattr_eq in H3; simpl in H3;
        rewrite ?getattr_setattr_eq in H3; done. }
  unfold info_summary. rewrite Hm, bind_Ok_l.
  assert (has_required (required_keys cfg) fin = false) as ->; [|done].
  apply has_required_false. apply Exists_exists. exists k.
  by split.
Qed.

End MergeMore.

(** X6: The alias table: a name that no list of aliases holds stays as it
    is; any other name becomes the fixed name of the first list that
    holds it. *)
Theorem resolve_alias_spec am name :
  ((∀ fixed aliases, (fixed, aliases) ∈ am → name ∉ aliases) →
   resolve_alias am name = name) ∧
  (∀ am1 fixed aliases am2,
     am = am1 ++ (fixed, aliases) :: am2 → name ∈ aliases →
     (∀ f a, (f, a) ∈ am1 → name ∉ a) →
     resolve_alias am name = fixed).
Proof.
  unfold resolve_alias. split.
  - induction am as [|[f a] am IH]; intros H; simpl; [done|].
    rewrite bool_decide_eq_false_2 by (apply (H f); left).
    apply IH. intros f' a' Hin. apply (H f'). by right.
  - intros am1. revert am.
    induction am1 as [|[f a] am1 IH]; intros am fixed aliases am2 -> Hin Hno;
      simpl.
    + by rewrite bool_decide_eq_true_2.
    + rewrite bool_decide_eq_false_2 by (apply (Hno f); left).
      apply (IH _ fixed aliases am2 eq_refl Hin).
      intros f' a' Hin'. apply (Hno f'). by right.
Qed.

(** ** More of the workers *)

Lemma wrapper_from_mark parser left : ∀ cnt info,
  (∀ c i, (parser c i).1 !! "success" = i !! "success") →
  info !! "success" = None →
  let r := wrapper_from parser cnt left info in
  (r.1 !! "success" = Some (PBool true) ∧ last r.2 = Some Returned) ∨
  (r.1 !! "success" = None ∧ last r.2 ≠ Some Returned).
Proof.
  induction left as [|left IH]; intros cnt info Hp Hi r; subst r.
  - right. by split.
  - rewrite wrapper_from_step. simpl.
    assert ((parser cnt info).1 !! "success" = None) as Hi'
      by (by rewrite Hp).
    destruct (terminal (parser cnt info).2) eqn:Ht; simpl.
    + destruct (decide ((parser cnt info).2 = Returned)) as [->|Hne].
      * left. split; [apply lookup_insert_eq | done].
      * right. split; [done | congruence].
    + destruct (IH (S cnt) (parser cnt info).1 Hp Hi') as [[H1 H2]|[H1 H2]].
      * left. split; [done|]. by rewrite last_cons, H2.
      * right. split; [done|].
        destruct (wrapper_from parser (S cnt) left (parser cnt info).1).2
          as [|o os] eqn:E.
        -- simpl. intros [=He]. rewrite He in Ht. done.
        -- by rewrite last_cons_cons.
Qed.

(** X7: A worker marks its record exactly when its last call of the adapter
    returned, provided the adapter itself leaves the mark alone. *)
Theorem wrapper_marks_success parser info retry :
  (∀ c i, (parser c i).1 !! "success" = i !! "success") →
  info !! "success" = None →
  let r := wrapper parser info retry in
  (hasattr r.1 "success" = true ↔ last r.2 = Some Returned) ∧
  (hasattr r.1 "success" = true → getattr r.1 "success" = PBool true).
Proof.
  intros Hp Hi r. subst r. unfold wrapper, hasattr, getattr.
  destruct (wrapper_from_mark parser retry 0 info Hp Hi) as [[H1 H2]|[H1 H2]];
    rewrite H1.
  - split; [|done]. split; [done|]. intros _. by apply bool_decide_eq_true_2.
  - split.
    + split; [|done]. intros H%bool_decide_eq_true. by destruct H.
    + intros H%bool_decide_eq_true. by destruct H.
Qed.

Lemma dict_get_fold_set_const {V} (v : V) keys d k :
  dict_get k (foldl (fun d i => dict_set i v d) d keys)
  = if decide (k ∈ keys) then Some v else dict_get k d.
Proof.
  revert d. induction keys as [|i keys IH]; intros d; cbn [foldl].
  - destruct (decide (k ∈ [])) as [H|H]; [by inversion H | done].
  - rewrite IH, dict_get_dict_set.
    destruct (decide (k ∈ keys)) as [Hin|Hin].
    + rewrite decide_True; [done | by right].
    + destruct (decide (k = i)) as [->|Hne].
      * rewrite decide_True; [done | left].
      * rewrite decide_False; [done|]. by intros [?|?]%elem_of_cons.
Qed.

(** X8: The record each crawler starts from.  For an item of the content-id
    kind with a standard identifier as well, a crawler of the standard
    list, be it in the content-id list too, is given that identifier
    alone; the other crawlers of the content-id list are given the item
    without its standard identifier.  For every other item the crawlers
    of its list are given the identifiers of the item. *)
Theorem init_all_info_records cfg movie k :
  dict_get k (init_all_info cfg movie)
  = if second_try movie then
      if decide (k ∈ selection cfg "normal")
      then Some (MovieInfo_of_dvdid (mv_dvdid movie))
      else if decide (k ∈ selection cfg (mv_data_src movie))
           then Some (setattr (MovieInfo_of_movie movie) "dvdid" PNone)
           else None
    else if decide (k ∈ selection cfg (mv_data_src movie))
         then Some (MovieInfo_of_movie movie) else None.
Proof.
  unfold init_all_info. destruct (second_try movie).
  - rewrite dict_get_fold_set_const.
    destruct (decide (k ∈ selection cfg "normal")); [done|].
    rewrite (dict_get_map (fun o => setattr o "dvdid" PNone)).
    rewrite dict_get_fold_set_const. by case_decide.
  - rewrite dict_get_fold_set_const. by case_decide.
Qed.

Lemma dict_set_elem {V} k (v : V) d k' v' :
  (k', v') ∈ dict_set k v d → (k', v') = (k, v) ∨ (k', v') ∈ d.
Proof.
  induction d as [|[k0 v0] d IH]; simpl.
  - intros H%list_elem_of_singleton. by left.
  - destruct (decide (k = k0)) as [->|Hne].
    + intros [H|H]%elem_of_cons; [by left | right; by right].
    + intros [H|H]%elem_of_cons; [right; rewrite H; left|].
      destruct (IH H) as [?|?]; [by left | right; by right].
Qed.

Lemma strip_keys_elem (all_info : list (string * MovieInfo)) k' data :
  (k', data) ∈ strip_keys all_info →
  ∃ k, (k, data) ∈ all_info ∧ k' = str_drop 4 k.
Proof.
  unfold strip_keys.
  induction all_info as [|[k v] l IH] using rev_ind; simpl.
  - by inversion 1.
  - rewrite foldl_snoc. intros [H|H]%dict_set_elem.
    + inversion H; subst. exists k. split; [|done].
      apply elem_of_app. right. left.
    + destruct (IH H) as (k0 & Hin & ->). exists k0. split; [|done].
      apply elem_of_app. by left.
Qed.

Lemma update_data_src_kept cfg movie all_info movie' kept kv :
  update_data_src cfg movie all_info = Ok (movie', kept) →
  kv ∈ kept → kv ∈ all_info.
Proof.
  unfold update_data_src. intros H Hin.
  destruct (second_try movie); [|by inversion H; subst].
  apply bind_Ok in H as (ts & _ & H).
  destruct (existsb truthy ts); inversion H; subst;
    by apply list_elem_of_filter in Hin as [_ ?].
Qed.

(** X9: What [parallel_crawler] returns comes from the workers: every
    record of the result is the record of a configured crawler whose
    worker marked it, with the mark taken off, under the name of that
    crawler less its first four characters. *)
Theorem parallel_crawler_sound parse_data has_parse_data_raw cfg
        movie movie' all_info k' data :
  parallel_crawler parse_data has_parse_data_raw cfg movie
  = Ok (movie', all_info) →
  (k', data) ∈ all_info →
  ∃ k data0,
    (k, data0) ∈ run_workers parse_data has_parse_data_raw cfg
                             (init_all_info cfg movie) ∧
    hasattr data0 "success" = true ∧
    k' = str_drop 4 k ∧ data = delattr data0 "success" ∧
    hasattr data "success" = false.
Proof.
  unfold parallel_crawler. intros H Hin.
  apply bind_Ok in H as ([m kept] & Hu & H). inversion H; subst.
  apply strip_keys_elem in Hin as (k & Hin & ->).
  apply drop_failed_spec in Hin as (data0 & Hin & Hs & ->).
  exists k, data0. repeat split; try done.
  - by eapply update_data_src_kept.
  - unfold hasattr, delattr. apply bool_decide_eq_false_2.
    rewrite lookup_delete_eq. by intros [? ?].
Qed.

(** ** More of the Namer *)

(** X10: Line breaks are all that [legalize_path] takes away: a path without
    any is left as it is, a second pass changes nothing, and the path
    never grows. *)
Theorem legalize_path_only_newlines p :
  (has_newline p = false → legalize_path p = p) ∧
  (legalize_path p = p → has_newline p = false) ∧
  legalize_path (legalize_path p) = legalize_path p ∧
  String.length (legalize_path p) ≤ String.length p.
Proof.
  assert (∀ q, has_newline q = false → legalize_path q = q) as Hid.
  { induction q as [|c r IH]; simpl; [done|].
    intros [Hc Hr]%orb_false_iff. apply bool_decide_eq_false in Hc.
    rewrite decide_False by done. by rewrite IH. }
  repeat split.
  - apply Hid.
  - intros <-. apply legalize_path_clean.
  - apply Hid, legalize_path_clean.
  - induction p as [|c r IH]; simpl; [done|].
    destruct (decide (c = newline)); simpl; lia.
Qed.

Section NamerMore.
Variable os : OsPath.
Variable lib : JavspLib.
Variable cfg : NameCfg.
Variable f0 ext : string.

Let budget (c : InfoDic) : Z := remaining_of os lib ext (render os cfg f0 c).

(** How the loops can end. *)
Lemma inner_loop_ends tb l : ∀ c rem res,
  inner_loop os lib cfg f0 ext tb l c rem = Ok res →
  match res with
  | Accepted sd bn c' =>
      sd = (render os cfg f0 c').1 ∧ bn = (render os cfg f0 c').2 ∧
      (0 < budget c')%Z
  | Exhausted c' r =>
      (l = [] ∧ c' = c ∧ r = rem) ∨
      (l ≠ [] ∧ ∃ z, r = Some z ∧ (z ≤ 0)%Z ∧ z = budget c')
  end.
Proof.
  induction l as [|s l IH]; intros c rem res H.
  - inversion H; subst. by left.
  - rewrite inner_loop_cons in H. apply bind_Ok in H as (t & _ & H).
    cbv zeta in H.
    set (c1 := with_title c (replace_illegal_chars lib (strip t))) in *.
    fold (budget c1) in H.
    destruct (0 <? budget c1)%Z eqn:Hfit.
    + inversion H; subst. repeat split. by apply Z.ltb_lt.
    + apply Z.ltb_ge in Hfit. apply IH in H.
      destruct res as [sd bn c' | c' r]; [done|].
      right. split; [done|].
      destruct H as [(_ & -> & ->)|(_ & H)]; [by eexists | done].
Qed.

Lemma outer_loop_ends tb otb n l : ∀ c rem res,
  py_len tb = Ok n →
  outer_loop os lib cfg f0 ext tb otb l c rem = Ok res →
  match res with
  | Accepted sd bn c' =>
      sd = (render os cfg f0 c').1 ∧ bn = (render os cfg f0 c').2 ∧
      (0 < budget c')%Z
  | Exhausted c' r =>
      r = rem ∨ ∃ z, r = Some z ∧ (z ≤ 0)%Z ∧ z = budget c'
  end.
Proof.
  intros c rem res Hn.
  enough (outer_loop os lib cfg f0 ext tb otb l c rem = Ok res →
          match res with
          | Accepted sd bn c' =>
              sd = (render os cfg f0 c').1 ∧ bn = (render os cfg f0 c').2 ∧
              (0 < budget c')%Z
          | Exhausted c' r =>
              (l = [] ∧ c' = c ∧ r = rem) ∨ (n = 0 ∧ r = rem) ∨
              (∃ z, r = Some z ∧ (z ≤ 0)%Z ∧ z = budget c')
          end) as Hstrong.
  { intros H. apply Hstrong in H. destruct res as [|c' r]; [done|].
    destruct H as [(_ & _ & ->)|[[_ ->]|H]]; auto. }
  revert c rem res. induction l as [|e l IH]; intros c rem res H.
  - inversion H; subst. by left.
  - rewrite outer_loop_cons in H. apply bind_Ok in H as (t & _ & H).
    cbv zeta in H. rewrite Hn, bind_Ok_l in H.
    apply bind_Ok in H as (res1 & H1 & H).
    apply inner_loop_ends in H1.
    destruct res1 as [sd bn c1 | c1 r1]; [by inversion H; subst|].
    apply IH in H. destruct res as [sd bn c' | c' r]; [done|].
    right. destruct H1 as [(Hcd & -> & ->)|(Hcd & z1 & -> & Hz1 & Hb1)].
    + assert (n = 0) as -> by (destruct n; [done | by rewrite countdown_S in Hcd]).
      destruct H as [(_ & _ & ->)|[[_ ->]|H]]; auto.
    + assert (n ≠ 0) as Hn0 by (by intros ->).
      destruct H as [(_ & -> & ->)|[[? _]|H]]; [|done|by right].
      right. by exists z1.
Qed.

(** A plan is rendered from one dictionary. *)
Lemma plan_rendered movie movie' fs :
  generate_names os lib cfg movie = Ok movie' →
  mv_files movie = f0 :: fs →
  ext = longest (splitext_ext os f0) (map (splitext_ext os) fs) →
  ∃ c,
    mv_save_dir movie' = Some (legalize_path (render os cfg f0 c).1) ∧
    mv_basename movie' = Some (render os cfg f0 c).2 ∧
    mv_nfo_file movie'
    = Some (legalize_path (path_join os (render os cfg f0 c).1
                             (nfo_basename_pattern cfg c +:+ ".nfo"))) ∧
    mv_fanart_file movie'
    = Some (legalize_path (path_join os (render os cfg f0 c).1
                             (fanart_basename_pattern cfg c +:+ ".jpg"))) ∧
    mv_poster_file movie'
    = Some (legalize_path (path_join os (render os cfg f0 c).1
                             (cover_basename_pattern cfg c +:+ ".jpg"))) ∧
    ((0 < budget c)%Z ∨
     ∃ c0, (budget c0 ≤ 0)%Z ∧ c = hard_cut c0 (budget c0)).
Proof.
  unfold generate_names. intros H Hf Hext.
  destruct (mv_info movie) as [info|]; [|done].
  apply bind_Ok in H as ([info' d] & _ & H). rewrite Hf in H.
  rewrite <- Hext in H. unfold fit in H.
  apply bind_Ok in H as (n & _ & H). apply bind_Ok in H as (res & Hres & H).
  destruct (py_len (chunks lib info' "title_break" (d_title d)))
    as [nt|e] eqn:Hnt.
  - apply (outer_loop_ends _ _ nt) in Hres; [|done].
    destruct res as [sd bn c | c [z|]]; [| |done].
    + destruct Hres as (-> & -> & Hfit). inversion H; subst movie'.
      exists c. repeat split. by left.
    + destruct Hres as [?|(z' & [= <-] & Hz & Hb)]; [done|].
      inversion H; subst movie'. exists (hard_cut c z).
      repeat split. right. exists c. by subst z.
  - destruct n as [|n]; [by inversion Hres; subst|].
    rewrite countdown_S, outer_loop_cons in Hres.
    apply bind_Ok in Hres as (t & _ & Hres). cbv zeta in Hres.
    by rewrite Hnt in Hres.
Qed.

End NamerMore.


(** The search is finite: no combination fits, or one is the first that
    does in the order of the loops. *)
Lemma first_fit_inner (b : nat → Z) k :
  (∀ s, 1 ≤ s ≤ k → (b s ≤ 0)%Z) ∨
  (∃ s, 1 ≤ s ≤ k ∧ (0 < b s)%Z ∧ ∀ s', s < s' ≤ k → (b s' ≤ 0)%Z).
Proof.
  induction k as [|k [IH|(s & Hs & Hfit & Hno)]].
  - left. intros s Hs. lia.
  - destruct (decide (0 < b (S k))%Z) as [Hfit|Hno].
    + right. exists (S k). split; [lia|]. split; [done|]. intros s' Hs'. lia.
    + left. intros s Hs. destruct (decide (s = S k)) as [->|Hne]; [lia|].
      apply IH. lia.
  - destruct (decide (0 < b (S k))%Z) as [Hfit'|Hno'].
    + right. exists (S k). split; [lia|]. split; [done|]. intros s' Hs'. lia.
    + right. exists s. split; [lia|]. split; [done|]. intros s' Hs'.
      destruct (decide (s' = S k)) as [->|Hne]; [lia|]. apply Hno. lia.
Qed.

Lemma first_fit (b : nat → nat → Z) n m :
  (∀ e s, 1 ≤ e ≤ n → 1 ≤ s ≤ m → (b e s ≤ 0)%Z) ∨
  (∃ e s, 1 ≤ e ≤ n ∧ 1 ≤ s ≤ m ∧ (0 < b e s)%Z ∧
          ∀ e' s', before n m e' s' e s → (b e' s' ≤ 0)%Z).
Proof.
  induction n as [|n IH].
  - left. intros e s He. lia.
  - destruct (first_fit_inner (b (S n)) m) as [Hrow|(s & Hs & Hfit & Hno)].
    + destruct IH as [IH|(e & s & He & Hs & Hfit & Hno)].
      * left. intros e s He Hs.
        destruct (decide (e = S n)) as [->|Hne]; [by apply Hrow|].
        apply IH; lia.
      * right. exists e, s. split; [lia|]. split; [done|]. split; [done|].
        intros e' s' [[He' Hs']|[-> Hs']].
        -- destruct (decide (e' = S n)) as [->|Hne]; [by apply Hrow|].
           apply Hno. left. lia.
        -- apply Hno. by right.
    + right. exists (S n), s. split; [lia|]. split; [done|]. split; [done|].
      intros e' s' [[He' Hs']|[-> Hs']]; [lia|]. by apply Hno.
Qed.

Lemma outer_loop_no_title_chunks os lib cfg f0 ext (rc : list string) l :
  ∀ c rem,
  ∃ c', outer_loop os lib cfg f0 ext (PList []) (PList (PStr <$> rc)) l c rem
        = Ok (Exhausted c' rem).
Proof.
  induction l as [|e l IH]; intros c rem; [by eexists|].
  rewrite outer_loop_cons, join_prefix_chunks, bind_Ok_l. cbv zeta.
  simpl py_len. rewrite bind_Ok_l. simpl. apply IH.
Qed.

Section NamerPlans.
Variable os : OsPath.
Variable lib : JavspLib.
Variable cfg : NameCfg.

(** X11: for an item whose title and raw title come as lists of chunks,
    every plan the Namer returns is rendered from one dictionary: the
    directory and the three file paths less their line breaks, and the
    base name.  The paths are measured with the first of the longest
    extensions of the files.  Either the dictionary is that of the
    first combination of chunk counts, in the order of the loops, whose
    path fits; or no combination fits, there is a chunk of each title,
    and the dictionary is that of the last combination tried, one chunk
    of each, with both titles cut by its budget: emptied when the
    budget is zero, without their last code points, as many as the
    budget is below zero, otherwise. *)
Theorem plan_fits_or_is_cut movie movie' info info' d f0 fs rc tc ext :
  mv_info movie = Some info →
  prepare lib cfg info = Ok (info', d) →
  mv_files movie = f0 :: fs →
  chunks lib info' "title_break" (d_title d) = PList (PStr <$> tc) →
  chunks lib info' "ori_title_break" (d_rawtitle d) = PList (PStr <$> rc) →
  first_longest ext (map (splitext_ext os) (f0 :: fs)) →
  generate_names os lib cfg movie = Ok movie' →
  let copyd := with_num d (d_num d +:+ mv_attr_str movie) in
  let tried e s := dic_at lib copyd rc tc e s in
  let budget c :=
    get_remaining_path_len lib
      (abspath os (path_join os (render os cfg f0 c).1
                     ((render os cfg f0 c).2 +:+ ext))) in
  ∃ c,
    mv_save_dir movie' = Some (legalize_path (render os cfg f0 c).1) ∧
    mv_basename movie' = Some (render os cfg f0 c).2 ∧
    mv_nfo_file movie'
    = Some (legalize_path (path_join os (render os cfg f0 c).1
                             (nfo_basename_pattern cfg c +:+ ".nfo"))) ∧
    mv_fanart_file movie'
    = Some (legalize_path (path_join os (render os cfg f0 c).1
                             (fanart_basename_pattern cfg c +:+ ".jpg"))) ∧
    mv_poster_file movie'
    = Some (legalize_path (path_join os (render os cfg f0 c).1
                             (cover_basename_pattern cfg c +:+ ".jpg"))) ∧
    ((∃ e s, 1 ≤ e ≤ length rc ∧ 1 ≤ s ≤ length tc ∧ c = tried e s ∧
             (0 < budget c)%Z ∧
             ∀ e' s', before (length rc) (length tc) e' s' e s →
                      (budget (tried e' s') ≤ 0)%Z) ∨
     (rc ≠ [] ∧ tc ≠ [] ∧
      (∀ e s, 1 ≤ e ≤ length rc → 1 ≤ s ≤ length tc →
              (budget (tried e s) ≤ 0)%Z) ∧
      c = with_rawtitle
            (with_title (tried 1 1)
               (cut_by (budget (tried 1 1)) (d_title (tried 1 1))))
            (cut_by (budget (tried 1 1)) (d_rawtitle (tried 1 1))))).
Proof.
  intros Hi Hp Hf Ht Hr Hext H copyd tried budget.
  rewrite (generate_names_unfold _ _ _ _ _ _ _ _ _ _ _ Hi Hp Hf Ht Hr) in H.
  assert (longest (splitext_ext os f0) (map (splitext_ext os) fs) = ext)
    as Hl by (by apply longest_is).
  rewrite Hl in H. fold copyd in H.
  destruct rc as [|r0 rc']; [done|].
  destruct tc as [|t0 tc'].
  { edestruct (outer_loop_no_title_chunks os lib cfg f0 ext (r0 :: rc'))
      as (c' & Hc').
    change (PStr <$> []) with (@nil pyval) in H.
    by rewrite Hc' in H. }
  set (rc := r0 :: rc') in *. set (tc := t0 :: tc') in *.
  destruct (first_fit (fun e s => budget (tried e s)) (length rc) (length tc))
    as [Hno|(e & s & He & Hs & Hfit & Hno)].
  - rewrite (outer_loop_exhausts os lib cfg f0 ext rc tc (length rc) copyd None)
      in H; [|simpl; lia|done].
    simpl in H. injection H as <-.
    rewrite hard_cut_spec by (apply (Hno 1 1); simpl; lia).
    eexists. repeat split. right. by repeat split.
  - rewrite (outer_loop_accepts os lib cfg f0 ext rc tc (length rc) copyd None
               e s) in H; [|done..].
    simpl in H. injection H as <-.
    exists (tried e s). repeat split. left. by exists e, s.
Qed.

End NamerPlans.

(** X12: When the files are not moved the titles play no part in the
    directory and the base name: they are the directory of the first
    file and its name less every occurrence of its extension. *)
Theorem in_place_paths os lib cfg movie movie' f0 fs :
  move_files cfg = false →
  generate_names os lib cfg movie = Ok movie' →
  mv_files movie = f0 :: fs →
  mv_save_dir movie' = Some (legalize_path (dirname os f0)) ∧
  mv_basename movie'
  = Some (remove_all (splitext_ext os (basename os f0)) (basename os f0)).
Proof.
  intros Hm H Hf.
  destruct (plan_rendered os lib cfg f0 _ movie movie' fs H Hf eq_refl)
    as (c & -> & -> & _).
  unfold render. by rewrite Hm.
Qed.

Section NamerErrors.
Variable os : OsPath.
Variable lib : JavspLib.
Variable cfg : NameCfg.



(** An empty list of chunks makes the Namer raise: no budget is ever
    computed, and the cut of the titles reads a variable that was never
    assigned.  This is so when the raw title has no chunk, and when the
    title has none while the raw title has. *)
Theorem empty_chunks_raise movie info info' d f0 fs :
  mv_info movie = Some info →
  prepare lib cfg info = Ok (info', d) →
  mv_files movie = f0 :: fs →
  chunks lib info' "ori_title_break" (d_rawtitle d) = PList [] ∨
  (chunks lib info' "title_break" (d_title d) = PList [] ∧
   ∃ rc, chunks lib info' "ori_title_break" (d_rawtitle d)
         = PList (PStr <$> rc)) →
  generate_names os lib cfg movie = Raise UnboundLocalError.
Proof.
  intros Hi Hp Hf Hc. unfold generate_names.
  rewrite Hi, Hp, bind_Ok_l. cbv beta iota zeta. rewrite Hf. unfold fit.
  destruct Hc as [-> | [-> (rc & ->)]].
  - done.
  - simpl py_len. rewrite bind_Ok_l.
    edestruct (outer_loop_no_title_chunks os lib cfg f0) as (c' & ->). done.
Qed.

End NamerErrors.

(** ** The cover on disk *)

Lemma first_piece_clean c s : contains_char c (first_piece c s) = false.
Proof.
  induction s as [|a r IH]; simpl; [done|].
  destruct (decide (a = c)); simpl; [done|].
  by rewrite bool_decide_eq_false_2.
Qed.

Lemma first_piece_id c s : contains_char c s = false → first_piece c s = s.
Proof.
  induction s as [|a r IH]; simpl; [done|].
  intros [Ha Hr]%orb_false_iff. apply bool_decide_eq_false in Ha.
  rewrite decide_False by done. by rewrite IH.
Qed.

Lemma first_piece_sub c d s :
  contains_char d s = false → contains_char d (first_piece c s) = false.
Proof.
  induction s as [|a r IH]; simpl; [done|].
  intros [Ha Hr]%orb_false_iff. destruct (decide (a = c)); simpl; [done|].
  by rewrite Ha, IH.
Qed.

Lemma last_piece_clean c s : contains_char c (last_piece c s) = false.
Proof.
  induction s as [|a r IH]; simpl; [done|].
  destruct (contains_char c r) eqn:Hr; [done|].
  destruct (decide (a = c)); [done|].
  simpl. rewrite Hr. by rewrite bool_decide_eq_false_2.
Qed.

Lemma contains_char_app c s t :
  contains_char c (s +:+ t) = contains_char c s || contains_char c t.
Proof.
  induction s as [|a r IH]; simpl; [done|]. rewrite IH. by rewrite orb_assoc.
Qed.

Lemma str_app_assoc a b c : (a +:+ b) +:+ c = a +:+ (b +:+ c).
Proof.
  induction a as [|x a IH]; [done|].
  change (String x ((a +:+ b) +:+ c) = String x (a +:+ (b +:+ c))).
  by rewrite IH.
Qed.

Lemma last_piece_app c s t :
  contains_char c t = false →
  last_piece c (s +:+ String c t) = t.
Proof.
  intros Ht. induction s as [|a r IH]; simpl.
  - rewrite Ht. by rewrite decide_True.
  - rewrite contains_char_app. simpl. rewrite bool_decide_eq_true_2 by done.
    rewrite orb_true_r. done.
Qed.

Lemma first_piece_app c s t :
  contains_char c s = false → first_piece c (s +:+ String c t) = s.
Proof.
  induction s as [|a r IH]; simpl.
  - intros _. by rewrite decide_True.
  - intros [Ha Hr]%orb_false_iff. apply bool_decide_eq_false in Ha.
    rewrite decide_False by done. by rewrite IH.
Qed.

(** X14: The extension [get_pic_path] gives the picture has neither a dot
    nor a question mark in it.  For an address that ends in a dot, an
    extension and, possibly, a query without a dot, it is that
    extension; a query with a dot in it takes the place of the
    extension. *)
Theorem get_pic_path_extension splitext_root fanart_path url :
  (∃ e, get_pic_path splitext_root fanart_path url
        = splitext_root fanart_path +:+ "." +:+ e ∧
        contains_char "." e = false ∧ contains_char "?" e = false) ∧
  (∀ u e q,
     contains_char "." e = false → contains_char "?" e = false →
     contains_char "." q = false →
     (url = u +:+ "." +:+ e ∨ url = u +:+ "." +:+ e +:+ "?" +:+ q) →
     get_pic_path splitext_root fanart_path url
     = splitext_root fanart_path +:+ "." +:+ e) ∧
  (∀ u e q1 q2,
     contains_char "." q2 = false → contains_char "?" q2 = false →
     url = u +:+ "." +:+ e +:+ "?" +:+ q1 +:+ "." +:+ q2 →
     get_pic_path splitext_root fanart_path url
     = splitext_root fanart_path +:+ "." +:+ q2).
Proof.
  unfold get_pic_path. repeat split.
  - eexists. split; [done|].
    destruct (contains_char "?" (last_piece "." url)) eqn:Hq.
    + split; [apply first_piece_sub, last_piece_clean | apply first_piece_clean].
    + split; [apply last_piece_clean | done].
  - intros u e q He1 He2 Hq [-> | ->].
    + change (u +:+ "." +:+ e) with (u +:+ String "." e).
      rewrite last_piece_app by done. by rewrite He2.
    + change (u +:+ "." +:+ e +:+ "?" +:+ q)
        with (u +:+ String "." (e +:+ String "?" q)).
      rewrite last_piece_app.
      * rewrite contains_char_app. simpl. rewrite orb_true_r.
        by rewrite first_piece_app.
      * rewrite contains_char_app. simpl. by rewrite He1, Hq.
  - intros u e q1 q2 H1 H2 ->.
    change ("." +:+ q2) with (String "." q2).
    rewrite <- !str_app_assoc.
    rewrite last_piece_app by done. rewrite H2. apply str_app_assoc.
Qed.

Section CoverFacts.
Variable splitext_root : string -> string.
Variable download : nat -> string -> string -> fetched.
Variable retry : nat.

Lemma try_big_cover_spec : attempts_spec download (try_big_cover download).
Proof.
  intros url p n left. revert n.
  induction left as [|left IH]; intros n; simpl; [split; [lia | done]|].
  destruct (download n url p) eqn:Hd; simpl.
  - split; [lia|]. intros _. by exists n.
  - destruct (IH (S n)) as [Hb Hg]. split; [lia | done].
  - split; [lia | done].
  - split; [lia | done].
Qed.

Lemma try_cover_spec : attempts_spec download (try_cover download).
Proof.
  intros url p n left. revert n.
  induction left as [|left IH]; intros n; simpl; [split; [lia | done]|].
  destruct (download n url p) eqn:Hd; simpl.
  - split; [lia|]. intros _. by exists n.
  - split; [lia | done].
  - destruct (IH (S n)) as [Hb Hg]. split; [lia | done].
  - destruct (IH (S n)) as [Hb Hg]. split; [lia | done].
Qed.

Lemma covers_loop_spec try fanart urls : ∀ n,
  attempts_spec download try →
  let r := covers_loop splitext_root retry try fanart urls n in
  n ≤ r.2 ≤ n + retry * length urls ∧
  ∀ url p, r.1 = Downloaded url p →
    PStr url ∈ urls ∧
    (∃ f, fanart = Some f ∧ p = get_pic_path splitext_root f url) ∧
    ∃ m, r.2 = S m ∧ download m url p = PicValid.
Proof.
  induction urls as [|u urls IH]; intros n Hs; simpl.
  - split; [lia | done].
  - destruct u as [| |url| |]; try (split; [simpl; lia | done]).
    destruct fanart as [f|]; [|split; [simpl; lia | done]].
    destruct (Hs url (get_pic_path splitext_root f url) n retry) as [Hb Hg].
    destruct (try url (get_pic_path splitext_root f url) n retry)
      as [[| |] n'] eqn:Ht; simpl in *.
    + split; [nia|]. intros url' p [= <- <-].
      split; [left|]. split; [by eexists|]. by apply Hg.
    + destruct (IH n' Hs) as [Hb' Hd']. split; [nia|].
      intros url' p Hr. destruct (Hd' url' p Hr) as (Hin & Hf & Hm).
      split; [by right | done].
    + split; [nia | done].
Qed.

(** X15: [download_cover] gives nothing but the address of one of its
    candidates, with the path [get_pic_path] derives from it, and only
    after a download of that address to that path, its last call, left a
    valid picture.  It calls [download] at most [retry] times for each
    candidate. *)
Theorem download_cover_sound covers fanart big_covers :
  let r := download_cover splitext_root download retry
                          covers fanart big_covers in
  r.2 ≤ retry * (length big_covers + length covers) ∧
  ∀ url p, r.1 = Downloaded url p →
    PStr url ∈ big_covers ++ covers ∧
    (∃ f, fanart = Some f ∧ p = get_pic_path splitext_root f url) ∧
    ∃ m, r.2 = S m ∧ download m url p = PicValid.
Proof.
  unfold download_cover.
  destruct (covers_loop_spec (try_big_cover download) fanart big_covers 0
              try_big_cover_spec) as [Hb Hd].
  destruct (covers_loop splitext_root retry (try_big_cover download)
              fanart big_covers 0) as [[url p| |] n] eqn:Hbig; simpl in *.
  - split; [nia|]. intros url' p' [= <- <-].
    destruct (Hd url p eq_refl) as (Hin & Hf & Hm).
    split; [apply elem_of_app; by left | done].
  - destruct (covers_loop_spec (try_cover download) fanart covers n
                try_cover_spec) as [Hb' Hd'].
    split; [nia|]. intros url p Hr.
    destruct (Hd' url p Hr) as (Hin & Hf & Hm).
    split; [apply elem_of_app; by right | done].
  - split; [nia | done].
Qed.

(** The high-resolution covers come first: when the first candidate,
    those before the other ones, gives a valid picture at the first
    call, it is the result, after that one call. *)
Theorem download_cover_takes_first covers f big_covers u r :
  0 < retry →
  big_covers ++ covers = PStr u :: r →
  download 0 u (get_pic_path splitext_root f u) = PicValid →
  download_cover splitext_root download retry covers (Some f) big_covers
  = (Downloaded u (get_pic_path splitext_root f u), 1).
Proof.
  intros Hr Hl Hd. unfold download_cover.
  destruct retry as [|k]; [lia|].
  destruct big_covers as [|b bs]; simpl in Hl.
  - subst covers. simpl. by rewrite Hd.
  - inversion Hl; subst. simpl. by rewrite Hd.
Qed.

End CoverFacts.

Lemma try_big_cover_invalid url p retry : ∀ n,
  try_big_cover (always PicInvalid) url p n retry = (GiveUp, n + retry).
Proof.
  induction retry as [|k IH]; intros n; simpl; [f_equal; lia|].
  rewrite IH. f_equal. lia.
Qed.

Lemma try_cover_errors url p retry : ∀ n,
  try_cover (always PicHTTPError) url p n retry = (GiveUp, n + retry).
Proof.
  induction retry as [|k IH]; intros n; simpl; [f_equal; lia|].
  rewrite IH. f_equal. lia.
Qed.

Lemma covers_loop_gives_up splitext_root retry try f (urls : list string) k :
  (∀ url p n, try url p n retry = (GiveUp, n + k)) →
  ∀ n, covers_loop splitext_root retry try (Some f) (PStr <$> urls) n
       = (NoCover, n + k * length urls).
Proof.
  intros Ht. induction urls as [|u urls IH]; intros n; simpl.
  - f_equal. lia.
  - rewrite Ht, IH. f_equal. lia.
Qed.

(** X16: The two kinds of cover are not retried alike.  When every download
    leaves an invalid picture, each high-resolution cover is downloaded
    [retry] times and each cover once; when every download ends in an
    [HTTPError], each high-resolution cover is tried once and each cover
    [retry] times.  Either way there is no cover in the end. *)
Theorem download_cover_cost splitext_root retry f (covers big_covers : list string) :
  0 < retry →
  download_cover splitext_root (always PicInvalid) retry
                 (PStr <$> covers) (Some f) (PStr <$> big_covers)
  = (NoCover, retry * length big_covers + length covers) ∧
  download_cover splitext_root (always PicHTTPError) retry
                 (PStr <$> covers) (Some f) (PStr <$> big_covers)
  = (NoCover, length big_covers + retry * length covers).
Proof.
  intros Hr. unfold download_cover. split.
  - rewrite (covers_loop_gives_up _ _ _ _ _ retry)
      by (intros; apply try_big_cover_invalid).
    rewrite (covers_loop_gives_up _ _ _ _ _ 1).
    + f_equal. lia.
    + intros url p n. destruct retry; [lia | simpl; f_equal; lia].
  - rewrite (covers_loop_gives_up _ _ _ _ _ 1).
    + rewrite (covers_loop_gives_up _ _ _ _ _ retry)
        by (intros; apply try_cover_errors).
      f_equal. lia.
    + intros url p n. destruct retry; [lia | simpl; f_equal; lia].
Qed.

(** ** [retry_on_error] *)

Lemma retry_from_fails {A E} (none : A) (func : nat -> A + E) left n :
  (∀ j, j < left → ∃ e, func (n + j) = inr e) →
  match left with
  | O => retry_from none func n left = (inl none, n)
  | S l => ∃ e, func (n + l) = inr e ∧
                retry_from none func n left = (inr e, n + left)
  end.
Proof.
  revert n. induction left as [|l IH]; intros n Hall; [done|].
  destruct (Hall 0 ltac:(lia)) as [e He].
  rewrite Nat.add_0_r in He. cbn [retry_from]. rewrite He.
  destruct (decide (l = 0)) as [->|Hl].
  - exists e. rewrite Nat.add_0_r. split; [done|]. f_equal. lia.
  - specialize (IH (S n)). destruct l as [|l']; [done|].
    destruct IH as (e' & He' & Hr).
    { intros j Hj. replace (S n + j) with (n + S j) by lia.
      apply Hall. lia. }
    exists e'. split.
    + by replace (n + S l') with (S n + l') by lia.
    + rewrite Hr. f_equal. lia.
Qed.

Lemma retry_from_succeeds {A E} (none : A) (func : nat -> A + E) left n i a :
  i < left →
  func (n + i) = inl a →
  (∀ j, j < i → ∃ e, func (n + j) = inr e) →
  retry_from none func n left = (inl a, S (n + i)).
Proof.
  revert n i. induction left as [|l IH]; intros n i Hi Ha Hbefore; [lia|].
  cbn [retry_from]. destruct i as [|i].
  - rewrite Nat.add_0_r in *. by rewrite Ha.
  - destruct (Hbefore 0 ltac:(lia)) as [e He].
    rewrite Nat.add_0_r in He. rewrite He.
    destruct (decide (l = 0)) as [->|Hl]; [lia|].
    rewrite (IH (S n) i); [f_equal; lia|lia| |].
    + by replace (S n + i) with (n + S i) by lia.
    + intros j Hj. replace (S n + j) with (n + S j) by lia.
      apply Hbefore. lia.
Qed.

Lemma first_success {A E} (func : nat -> A + E) left :
  (∀ j, j < left → ∃ e, func j = inr e) ∨
  (∃ i a, i < left ∧ func i = inl a ∧ ∀ j, j < i → ∃ e, func j = inr e).
Proof.
  induction left as [|l [IH|IH]].
  - left. intros j Hj. lia.
  - destruct (func l) as [a|e] eqn:El.
    + right. exists l, a. split; [lia|]. split; [done|].
      intros j Hj. apply IH. lia.
    + left. intros j Hj. destruct (decide (j = l)) as [->|Hne].
      * by exists e.
      * apply IH. lia.
  - right. destruct IH as (i & a & Hi & Ha & Hb).
    exists i, a. split; [lia|done].
Qed.

(** X17: the wrapper of [retry_on_error] calls the function until a call
    returns, at most [max_retries] times, and returns what the first
    call that returns gives, [None] too when that is what the function
    returns.  When [max_retries] calls in a row raise it raises the
    exception of the last one.  When [max_retries] is zero it returns
    [None] without any call.  It returns or raises nothing else. *)
Theorem retry_on_error_spec {A E} (none : A) (max_retries : nat)
        (func : nat -> A + E) :
  (∀ i a, i < max_retries → func i = inl a →
          (∀ j, j < i → ∃ e, func j = inr e) →
          retry_on_error none max_retries func = (inl a, S i)) ∧
  (∀ e, 0 < max_retries →
        (∀ j, j < max_retries → ∃ e', func j = inr e') →
        func (max_retries - 1) = inr e →
        retry_on_error none max_retries func = (inr e, max_retries)) ∧
  (max_retries = 0 →
   retry_on_error none max_retries func = (inl none, 0)) ∧
  (retry_on_error none max_retries func).2 ≤ max_retries ∧
  (∀ a, (retry_on_error none max_retries func).1 = inl a →
        max_retries = 0 ∧ a = none ∨
        ∃ i, i < max_retries ∧ func i = inl a ∧
             (retry_on_error none max_retries func).2 = S i ∧
             ∀ j, j < i → ∃ e, func j = inr e) ∧
  (∀ e, (retry_on_error none max_retries func).1 = inr e →
        0 < max_retries ∧ func (max_retries - 1) = inr e ∧
        (retry_on_error none max_retries func).2 = max_retries ∧
        ∀ j, j < max_retries → ∃ e', func j = inr e').
Proof.
  unfold retry_on_error.
  assert (Hs : ∀ i a, i < max_retries → func i = inl a →
          (∀ j, j < i → ∃ e, func j = inr e) →
          retry_from none func 0 max_retries = (inl a, S i)).
  { intros i a Hi Ha Hb.
    by rewrite (retry_from_succeeds none func max_retries 0 i a). }
  assert (Hf : ∀ e, 0 < max_retries →
        (∀ j, j < max_retries → ∃ e', func j = inr e') →
        func (max_retries - 1) = inr e →
        retry_from none func 0 max_retries = (inr e, max_retries)).
  { intros e Hpos Hall He.
    pose proof (retry_from_fails none func max_retries 0 Hall) as H.
    destruct max_retries as [|l]; [lia|].
    destruct H as (e' & He' & ->). simpl in He'.
    replace (S l - 1) with l in He by lia.
    rewrite He in He'. by injection He' as ->. }
  split; [exact Hs|]. split; [exact Hf|].
  split; [by intros ->|].
  destruct (first_success func max_retries) as [Hall|(i & a & Hi & Ha & Hb)].
  - destruct max_retries as [|l].
    { simpl. split; [lia|]. split; [|done].
      intros a [= <-]. by left. }
    destruct (Hall l ltac:(lia)) as [e He].
    assert (func (S l - 1) = inr e) as He'
      by (by replace (S l - 1) with l by lia).
    rewrite (Hf e ltac:(lia) Hall He'). simpl.
    split; [lia|]. split; [done|].
    intros e' [= <-]. split; [lia|]. by rewrite Nat.sub_0_r.
  - rewrite (Hs i a Hi Ha Hb). simpl. split; [lia|]. split; [|done].
    intros a' [= <-]. right. by exists i.
Qed.

(** A function that returns [None] at its second call, one that
    raises at every call, and no call at all. *)
Lemma retry_on_error_samples :
  retry_on_error (@None nat) 3
    (fun i => if decide (i = 1) then inl None else inr i) = (inl None, 2) ∧
  retry_on_error (@None nat) 3 (fun i => inr i) = (inr 2, 3) ∧
  retry_on_error None 0 (fun i => inl (Some i) : option nat + nat)
  = (inl None, 0).
Proof. repeat split. Qed.

(** ** [_should_ignore_folder] *)

Lemma prefix_app (p s : string) : String.prefix p (p +:+ s) = true.
Proof.
  induction p as [|a p IH]; [by destruct s|].
  change (String a p +:+ s) with (String a (p +:+ s)). simpl.
  by destruct (Ascii.ascii_dec a a).
Qed.

Lemma prefix_split (p s : string) :
  String.prefix p s = true → ∃ rest, s = p +:+ rest.
Proof.
  revert s. induction p as [|a p IH]; intros s H.
  - by exists s.
  - destruct s as [|b s]; [done|]. simpl in H.
    destruct (Ascii.ascii_dec a b) as [->|]; [|done].
    destruct (IH s H) as [rest ->]. by exists rest.
Qed.

Lemma prefix_empty (s : string) : String.prefix "" s = true.
Proof. by destruct s. Qed.

Lemma lstrip_char_all (c : ascii) (s : string) :
  all_chars c s → lstrip_char c s = "".
Proof.
  induction s as [|a r IH]; intros Hall; [done|]. simpl.
  rewrite decide_True; [|apply Hall; simpl; left].
  apply IH. intros b Hb. apply Hall. simpl. by right.
Qed.

(** X18: a folder is ignored when its name begins with a pattern of the
    configuration, carets at both ends of the pattern taken off and no
    other sign of a regular expression read: the pattern followed by
    anything is ignored, and a pattern that consists of carets, the
    empty one too, makes the scanner ignore every folder. *)
Theorem should_ignore_folder_prefix (ignored_folders : list string) :
  (∀ pattern rest, pattern ∈ ignored_folders →
     _should_ignore_folder ignored_folders (strip_char "^" pattern +:+ rest)
     = true) ∧
  (∀ pattern folder_name, pattern ∈ ignored_folders →
     all_chars "^" pattern →
     _should_ignore_folder ignored_folders folder_name = true) ∧
  (∀ folder_name,
     _should_ignore_folder ignored_folders folder_name = true ↔
     ∃ pattern rest, pattern ∈ ignored_folders ∧
       folder_name = strip_char "^" pattern +:+ rest).
Proof.
  assert (Hiff : ∀ folder_name,
     _should_ignore_folder ignored_folders folder_name = true ↔
     ∃ pattern rest, pattern ∈ ignored_folders ∧
       folder_name = strip_char "^" pattern +:+ rest).
  { intros name. unfold _should_ignore_folder. rewrite existsb_exists. split.
    - intros (p & Hin & Hp). apply list_elem_of_In in Hin.
      destruct (prefix_split _ _ Hp) as [rest ->]. by exists p, rest.
    - intros (p & rest & Hin & ->). exists p. split.
      + by apply list_elem_of_In.
      + apply prefix_app. }
  split; [|split; [|exact Hiff]].
  - intros p rest Hin. apply Hiff. by exists p, rest.
  - intros p name Hin Hall. apply Hiff. exists p, name. split; [done|].
    unfold strip_char. by rewrite lstrip_char_all.
Qed.

(** ** The Telegram notifier *)

Lemma replace_char_app (c : ascii) (by_ s t : string) :
  replace_char c by_ (s +:+ t) = replace_char c by_ s +:+ replace_char c by_ t.
Proof.
  induction s as [|a s IH]; [done|].
  change (String a s +:+ t) with (String a (s +:+ t)). simpl.
  destruct (decide (a = c)); rewrite IH.
  - by rewrite str_app_assoc.
  - done.
Qed.

Lemma escape_html_chars (s : string) : html_escape s = escape_chars s.
Proof.
  unfold html_escape. induction s as [|a s IH]; [done|].
  cbn [replace_char escape_chars]. unfold escape_char.
  destruct (decide (a = "&"%char)) as [->|Hamp].
  { rewrite !replace_char_app, IH. done. }
  cbn [replace_char].
  destruct (decide (a = "<"%char)) as [->|Hlt].
  { rewrite !replace_char_app, IH. done. }
  cbn [replace_char].
  destruct (decide (a = ">"%char)) as [->|Hgt].
  { by rewrite IH. }
  by rewrite IH.
Qed.

Lemma html_text_escape_chars (s : string) :
  html_text_from 0 (escape_chars s) = true.
Proof.
  induction s as [|a s IH]; [done|].
  cbn [escape_chars]. unfold escape_char.
  destruct (decide (a = "&"%char)) as [->|Hamp];
    [cbv [String.append]; simpl; by rewrite prefix_empty|].
  destruct (decide (a = "<"%char)) as [->|Hlt];
    [cbv [String.append]; simpl; by rewrite prefix_empty|].
  destruct (decide (a = ">"%char)) as [->|Hgt];
    [cbv [String.append]; simpl; by rewrite prefix_empty|].
  change (String a "" +:+ ?x) with (String a x). cbn [html_text_from].
  by rewrite !decide_False.
Qed.

Lemma unescape_escape_chars (s : string) :
  unescape_from 0 (escape_chars s) = s.
Proof.
  induction s as [|a s IH]; [done|].
  cbn [escape_chars]. unfold escape_char.
  destruct (decide (a = "&"%char)) as [->|Hamp].
  { cbv [String.append]. simpl. by rewrite prefix_empty, IH. }
  destruct (decide (a = "<"%char)) as [->|Hlt].
  { cbv [String.append]. simpl. by rewrite prefix_empty, IH. }
  destruct (decide (a = ">"%char)) as [->|Hgt].
  { cbv [String.append]. simpl. by rewrite prefix_empty, IH. }
  change (String a "" +:+ ?x) with (String a x). cbn [unescape_from].
  by rewrite decide_False, IH.
Qed.

(** X19: [_escape_html] leaves no angle bracket in a text and no
    ampersand but at the head of [&amp;], [&lt;] or [&gt;]; reading the
    entities back gives the text again, so two texts are never escaped
    to the same one; a text without any of the three characters is
    unchanged. *)
Theorem escape_html_text (text : string) :
  html_text (html_escape text) = true ∧
  unescape (html_escape text) = text ∧
  (∀ other, html_escape other = html_escape text → other = text) ∧
  (contains_char "&" text = false → contains_char "<" text = false →
   contains_char ">" text = false → html_escape text = text).
Proof.
  unfold html_text, unescape. rewrite escape_html_chars.
  split; [apply html_text_escape_chars|].
  split; [apply unescape_escape_chars|]. split.
  - intros other H. rewrite escape_html_chars in H.
    rewrite <- (unescape_escape_chars other), H.
    apply unescape_escape_chars.
  - induction text as [|a s IH]; [done|]. simpl.
    intros [Ha Hs]%orb_false_elim [Hl Hs']%orb_false_elim
           [Hg Hs'']%orb_false_elim.
    apply bool_decide_eq_false in Ha, Hl, Hg.
    unfold escape_char. rewrite !decide_False by done.
    change (String a "" +:+ ?x) with (String a x). by rewrite IH.
Qed.

Section TelegramFacts.
Variable path_exists : string -> bool.
Variable can_open : string -> bool.
Variable post : request -> option Z.
Variable py_str : pyval -> string.

Lemma send_message_off n text photo :
  n_enabled n = false →
  _send_message path_exists can_open post n text photo = (false, []).
Proof. intros H. unfold _send_message. by rewrite H. Qed.

(** X20: a notifier that is switched off, or whose configuration lacks
    the token or the chat id, makes no request at all and answers
    [False], whatever it is asked to send; it does not look at its
    arguments, so it cannot raise either. *)
Theorem notifier_off (c : TelegramCfg) :
  tg_enabled c = false ∨ truthy_opt (tg_token c) = false
    ∨ truthy_opt (tg_chat_id c) = false →
  let n := TelegramNotifier_init c in
  (∀ text photo,
     _send_message path_exists can_open post n text photo = (false, [])) ∧
  (∀ current movie_title movie_id save_dir poster_path,
     send_success_notification path_exists can_open post py_str n current
       movie_title movie_id save_dir poster_path = Ok (false, [])) ∧
  (∀ movie_id error_message,
     send_error_notification path_exists can_open post n movie_id
       error_message = Ok (false, [])) ∧
  (∀ total success failed,
     send_batch_summary path_exists can_open post n total success failed
     = (false, [])).
Proof.
  intros H n.
  assert (Hoff : n_enabled n = false).
  { subst n. unfold TelegramNotifier_init. cbn [n_enabled].
    destruct (tg_enabled c); [|done].
    destruct H as [H|[H|H]]; [done| |]; rewrite H; [done|].
    by rewrite orb_true_r. }
  split; [intros; by apply send_message_off|].
  unfold send_success_notification, send_error_notification,
    send_batch_summary.
  rewrite Hoff. done.
Qed.

(** X21: [_send_message] makes at most one request.  It answers [True]
    only when that request was answered with status 200; the request
    carries the text, the token and the chat id of the notifier; a
    picture is sent only when [send_cover] is set and the path given
    exists and can be opened, and when the file exists but cannot be
    opened nothing is sent at all. *)
Theorem send_message_once (n : TelegramNotifier) (text : string)
  (photo_path : option string) :
  let r := _send_message path_exists can_open post n text photo_path in
  length r.2 ≤ 1 ∧
  (r.1 = true → ∃ q, r.2 = [q] ∧ post q = Some 200%Z) ∧
  (∀ q, q ∈ r.2 →
     rq_text q = text ∧ rq_token q = n_token n ∧
     rq_chat_id q = n_chat_id n ∧
     (rq_endpoint q = sendPhoto ↔
      n_send_cover n = true ∧
      ∃ p, photo_path = Some p ∧ p ≠ "" ∧ path_exists p = true)) ∧
  (∀ p, photo_path = Some p → p ≠ "" → path_exists p = true →
        n_send_cover n = true → can_open p = false → r = (false, [])).
Proof.
  assert (Hsend : ∀ q, length (send post q).2 ≤ 1 ∧
     ((send post q).1 = true → ∃ q', (send post q).2 = [q'] ∧
                                 post q' = Some 200%Z) ∧
     (∀ q', q' ∈ (send post q).2 → q' = q)).
  { intros q. unfold send. destruct (post q) as [st|] eqn:E; simpl.
    - split; [lia|]. split.
      + intros H%bool_decide_eq_true. subst. by exists q.
      + by intros q' ->%list_elem_of_singleton.
    - split; [lia|]. split; [done|].
      by intros q' ->%list_elem_of_singleton. }
  intros r. subst r. unfold _send_message.
  destruct (n_enabled n); cbn [negb].
  2:{ simpl. split; [lia|]. split; [done|]. split.
      - intros q Hq. by apply not_elem_of_nil in Hq.
      - done. }
  assert (Hleaf : ∀ q, match rq_endpoint q with
                       | sendPhoto =>
                           n_send_cover n = true ∧
                           ∃ p, photo_path = Some p ∧ p ≠ "" ∧
                                path_exists p = true
                       | sendMessage =>
                           ¬ (n_send_cover n = true ∧
                              ∃ p, photo_path = Some p ∧ p ≠ "" ∧
                                   path_exists p = true)
                       end →
     rq_text q = text → rq_token q = n_token n →
     rq_chat_id q = n_chat_id n →
     (∀ p, photo_path = Some p → p ≠ "" → path_exists p = true →
           n_send_cover n = true → can_open p = false → False) →
     length (send post q).2 ≤ 1 ∧
     ((send post q).1 = true →
      ∃ q', (send post q).2 = [q'] ∧ post q' = Some 200%Z) ∧
     (∀ q', q' ∈ (send post q).2 →
        rq_text q' = text ∧ rq_token q' = n_token n ∧
        rq_chat_id q' = n_chat_id n ∧
        (rq_endpoint q' = sendPhoto ↔
         n_send_cover n = true ∧
         ∃ p, photo_path = Some p ∧ p ≠ "" ∧ path_exists p = true)) ∧
     (∀ p, photo_path = Some p → p ≠ "" → path_exists p = true →
           n_send_cover n = true → can_open p = false →
           send post q = (false, []))).
  { intros q Hq Ht Hk Hc Hopen. destruct (Hsend q) as (H1 & H2 & H3).
    split; [done|]. split; [done|]. split.
    - intros q' ->%H3. repeat (split; [done|]).
      destruct (rq_endpoint q); by split.
    - intros p ? ? ? ? ?. by destruct (Hopen p). }
  destruct photo_path as [p|].
  - assert (Htr : truthy (PStr p) = true ↔ p ≠ "").
    { unfold truthy. by destruct p. }
    destruct (truthy (PStr p)) eqn:Et; cbn [andb].
    + destruct (path_exists p) eqn:Ee; cbn [andb].
      * destruct (n_send_cover n) eqn:Ec; cbn [andb].
        -- destruct (can_open p) eqn:Eo.
           ++ apply Hleaf; simpl; try done;
                try (intros p' [= <-]; congruence).
              split; [done|]. exists p. split; [done|].
              split; [by apply Htr|done].
           ++ simpl. split; [lia|]. split; [done|]. split; [|done].
              intros q Hq. by apply not_elem_of_nil in Hq.
        -- apply Hleaf; simpl; try done;
             try (intros p' [= <-]; congruence).
           by intros [? _].
      * apply Hleaf; simpl; try done;
          try (intros p' [= <-]; congruence).
        intros [_ (p' & [= <-] & _ & ?)]. congruence.
    + apply Hleaf; simpl; try done;
        try (intros p' [= <-] Hne; by apply Htr in Hne).
      intros [_ (p' & [= <-] & Hne & _)]. by apply Htr in Hne.
  - apply Hleaf; simpl; try done.
    by intros [_ (p' & ? & _)].
Qed.

(** X22: what the success notification says about the record at hand
    never makes it fail: with the notifier on, it raises (an
    [AttributeError]) exactly when the title, the identifier or the
    folder it is given is no string, whatever the record holds; so does
    the error notification for its identifier and its message. *)
Theorem notifications_need_strings (n : TelegramNotifier) :
  n_enabled n = true →
  (n_notification_level n ≠ "error" →
   ∀ current movie_title movie_id save_dir poster_path,
     let r := send_success_notification path_exists can_open post py_str n
                current movie_title movie_id save_dir poster_path in
     if is_str movie_title && is_str movie_id && is_str save_dir
     then ∃ text, r = Ok (_send_message path_exists can_open post n text
                            poster_path)
     else r = Raise AttributeError) ∧
  (n_notification_level n ≠ "success" →
   ∀ movie_id error_message,
     let r := send_error_notification path_exists can_open post n movie_id
                error_message in
     if is_str movie_id && is_str error_message
     then ∃ text, r = Ok (_send_message path_exists can_open post n text None)
     else r = Raise AttributeError).
Proof.
  intros Hon. split; intros Hlevel.
  - intros current title id_ dir poster.
    unfold send_success_notification. rewrite Hon.
    rewrite bool_decide_eq_false_2 by done. simpl negb. cbn [orb].
    destruct (extra_lines py_str current) as [[a p] d].
    destruct id_; simpl; try by destruct title.
    destruct title; simpl; try done.
    destruct dir; simpl; try done. by eexists.
  - intros id_ msg.
    unfold send_error_notification. rewrite Hon.
    rewrite bool_decide_eq_false_2 by done. simpl negb. cbn [orb].
    destruct id_; simpl; try done.
    destruct msg; simpl; try done. by eexists.
Qed.

End TelegramFacts.

(** ** The properties at work on the samples *)

Lemma javdb_genre_wins_witness :
  getattr demo_final "genre" = PList [PStr "drama"].
Proof.
  apply (javdb_genre_wins demo_attrs keep_title [] demo_merge_cfg demo_movie
           demo_sources demo_final
           (record [("title", PStr "Foo");
                    ("genre", PList [PStr "drama"]);
                    ("cover", PStr "http://y/2.jpg");
                    ("uncensored", PBool false);
                    ("dvdid", PStr "ABC-123")])
           [PStr "drama"]).
  - vm_compute. reflexivity.
  - reflexivity.
  - vm_compute. reflexivity.
  - discriminate.
Defined.

Lemma genre_never_unset_witness :
  is_none (getattr demo_final_people "genre") = false.
Proof.
  apply (genre_never_unset demo_attrs keep_title demo_alias_map
           demo_merge_cfg_aliases demo_movie demo_sources_people
           demo_final_people).
  vm_compute. reflexivity.
Defined.

Lemma aliases_need_pictures_witness :
  getattr demo_final_people "actress" = PList [PStr "Alice"].
Proof.
  destruct (aliases_need_pictures demo_attrs keep_title demo_alias_map
              demo_merge_cfg_aliases demo_movie demo_sources_people
              demo_final_people) as (_ & _ & H).
  - vm_compute. reflexivity.
  - by_decide.
  - apply (H eq_refl eq_refl [PStr "Arisu"]). vm_compute. reflexivity.
Defined.

Lemma empty_javdb_cover_raises_witness :
  info_summary demo_attrs keep_title [] demo_merge_cfg_own_id demo_movie
               demo_sources_empty_cover = Raise ValueError.
Proof.
  apply (empty_javdb_cover_raises demo_attrs keep_title [] demo_merge_cfg_own_id
           demo_movie demo_sources_empty_cover
           (record [("title", PStr "Foo"); ("cover", PStr "")])).
  - reflexivity.
  - vm_compute. reflexivity.
  - vm_compute. reflexivity.
  - discriminate.
  - reflexivity.
Defined.

Lemma merge_of_nothing_fails_witness :
  info_summary demo_attrs keep_title [] demo_merge_cfg demo_movie []
  = Ok (false, demo_movie).
Proof.
  apply (merge_of_nothing_fails demo_attrs keep_title [] demo_merge_cfg
           demo_movie "title"); by_decide.
Defined.

Lemma wrapper_marks_success_witness :
  hasattr (wrapper (titled_parser "Foo") ∅ 3).1 "success" = true.
Proof.
  destruct (wrapper_marks_success (titled_parser "Foo") ∅ 3) as [H _].
  - intros c i. unfold titled_parser, setattr. simpl.
    by apply lookup_insert_ne.
  - reflexivity.
  - apply H. vm_compute. reflexivity.
Defined.

Lemma parallel_crawler_sound_witness :
  ∃ k data0,
    (k, data0) ∈ run_workers (fun _ => titled_parser "Foo") no_raw
                             demo_crawl_cfg
                             (init_all_info demo_crawl_cfg demo_movie) ∧
    hasattr data0 "success" = true ∧ "us" = str_drop 4 k.
Proof.
  destruct (parallel_crawler_sound (fun _ => titled_parser "Foo") no_raw
              demo_crawl_cfg demo_movie demo_crawled.1 demo_crawled.2
              "us" (default ∅ (dict_get "us" demo_crawled.2)))
    as (k & data0 & H1 & H2 & H3 & _).
  - vm_compute. reflexivity.
  - by_decide.
  - by exists k, data0.
Defined.

Lemma plan_fits_or_is_cut_witness :
  ∃ c, mv_basename demo_cut_plan
       = Some (render demo_os (demo_name_cfg true) "/videos/ABC-123.mp4" c).2
       ∧ d_title c = "日本語のタ" ∧ d_rawtitle c = "日本語のタ".
Proof.
  destruct (plan_fits_or_is_cut demo_os (demo_lib 46) (demo_name_cfg true)
              demo_wide_movie demo_cut_plan
              (record [("dvdid", PStr "ABC-123");
                       ("title", PStr demo_wide_title)])
              demo_prepared_wide.1 demo_prepared_wide.2
              "/videos/ABC-123.mp4" [] [demo_wide_title] [demo_wide_title]
              ".mp4")
    as (c & _ & Hb & _ & _ & _ & [(e & s & He & Hs & -> & Hfit & _)|H]).
  - reflexivity.
  - vm_compute. reflexivity.
  - reflexivity.
  - vm_compute. reflexivity.
  - vm_compute. reflexivity.
  - exists [], []. split; [vm_compute; reflexivity|].
    split; intros y Hy; by inversion Hy.
  - vm_compute. reflexivity.
  - assert (e = 1) as -> by (simpl in He; lia).
    assert (s = 1) as -> by (simpl in Hs; lia).
    vm_compute in Hfit. discriminate.
  - destruct H as (_ & _ & _ & ->). eexists.
    split; [exact Hb|]. split; vm_compute; reflexivity.
Defined.

Lemma in_place_paths_witness :
  mv_save_dir (demo_plan false) = Some "/videos" ∧
  mv_basename (demo_plan false) = Some "ABC-123".
Proof.
  apply (in_place_paths demo_os (demo_lib 38) (demo_name_cfg false)
           demo_named_movie (demo_plan false) "/videos/ABC-123.mp4" []).
  - reflexivity.
  - vm_compute. reflexivity.
  - reflexivity.
Defined.


Lemma empty_chunks_raise_witness :
  generate_names demo_os (demo_lib 38) (demo_name_cfg true) demo_no_chunks
  = Raise UnboundLocalError.
Proof.
  apply (empty_chunks_raise demo_os (demo_lib 38) (demo_name_cfg true)
           demo_no_chunks
           (record [("dvdid", PStr "ABC-123"); ("title", PStr "Foo");
                    ("title_break", PList [])])
           demo_prepared_no_chunks.1 demo_prepared_no_chunks.2
           "/videos/ABC-123.mp4" []).
  - reflexivity.
  - vm_compute. reflexivity.
  - reflexivity.
  - right. split; [vm_compute; reflexivity|].
    exists ["Foo"]. vm_compute. reflexivity.
Defined.

Lemma download_cover_takes_first_witness :
  download_cover root_of (always PicValid) 3 [PStr "http://x/1.jpg?v=2"]
                 (Some "/out/ABC-123/fanart.jpg") []
  = (Downloaded "http://x/1.jpg?v=2" "/out/ABC-123/fanart.jpg", 1).
Proof.
  apply (download_cover_takes_first root_of (always PicValid) 3
           [PStr "http://x/1.jpg?v=2"] "/out/ABC-123/fanart.jpg" []
           "http://x/1.jpg?v=2" []).
  - lia.
  - reflexivity.
  - reflexivity.
Defined.

Lemma download_cover_cost_witness :
  download_cover root_of (always PicInvalid) 3
                 [PStr "http://x/1.jpg"] (Some "/out/fanart.jpg")
                 [PStr "http://x/big.jpg"]
  = (NoCover, 4) ∧
  download_cover root_of (always PicHTTPError) 3
                 [PStr "http://x/1.jpg"] (Some "/out/fanart.jpg")
                 [PStr "http://x/big.jpg"]
  = (NoCover, 4).
Proof.
  apply (download_cover_cost root_of 3 "/out/fanart.jpg"
           ["http://x/1.jpg"] ["http://x/big.jpg"]). lia.
Defined.

Lemma notifier_off_witness :
  send_batch_summary yes yes demo_post
    (TelegramNotifier_init (demo_telegram_cfg None)) 3 2 1 = (false, []).
Proof.
  destruct (notifier_off yes yes demo_post str_of (demo_telegram_cfg None))
    as (_ & _ & _ & H).
  - right. right. reflexivity.
  - apply H.
Defined.

Lemma notifications_need_strings_witness :
  send_error_notification yes yes demo_post
    (TelegramNotifier_init (demo_telegram_cfg (Some "42"))) PNone (PStr "x")
  = Raise AttributeError.
Proof.
  destruct (notifications_need_strings yes yes demo_post str_of
              (TelegramNotifier_init (demo_telegram_cfg (Some "42"))))
    as [_ H].
  - reflexivity.
  - apply (H ltac:(discriminate) PNone (PStr "x")).
Defined.
(** ** The loop over the items *)

Lemma download_cover_from splitext_root download retry covers fanart
      big_covers url p :
  (download_cover splitext_root download retry covers fanart big_covers).1
  = Downloaded url p →
  PStr url ∈ big_covers ++ covers ∧
  ∃ f, fanart = Some f ∧ p = get_pic_path splitext_root f url.
Proof.
  unfold download_cover.
  destruct (covers_loop_spec splitext_root download retry
              (try_big_cover download) fanart big_covers 0
              (try_big_cover_spec download)) as [_ Hd].
  destruct (covers_loop splitext_root retry (try_big_cover download)
              fanart big_covers 0) as [[url' p'| |] n] eqn:Hbig; simpl in *.
  - intros [= <- <-]. destruct (Hd url' p' eq_refl) as (Hin & Hf & _).
    split; [apply elem_of_app; by left | done].
  - destruct (covers_loop_spec splitext_root download retry
                (try_cover download) fanart covers n
                (try_cover_spec download)) as [_ Hd'].
    intros Hr. destruct (Hd' url p Hr) as (Hin & Hf & _).
    split; [apply elem_of_app; by right | done].
  - done.
Qed.

Lemma send_length post q : length (send post q).2 ≤ 1.
Proof. unfold send. destruct (post q); simpl; lia. Qed.

Lemma send_message_length path_exists can_open post n text photo :
  length (_send_message path_exists can_open post n text photo).2 ≤ 1.
Proof.
  unfold _send_message. destruct (negb (n_enabled n)); [simpl; lia|].
  destruct photo as [p|]; [|apply send_length].
  destruct (truthy (PStr p) && path_exists p && n_send_cover n);
    [|apply send_length].
  destruct (can_open p); [apply send_length | simpl; lia].
Qed.

Lemma send_success_length path_exists can_open post py_str n current
      title id_ dir poster r :
  send_success_notification path_exists can_open post py_str n current
    title id_ dir poster = Ok r →
  length r.2 ≤ 1.
Proof.
  unfold send_success_notification.
  destruct (negb (n_enabled n) || bool_decide (n_notification_level n = "error")).
  { intros [= <-]. simpl. lia. }
  destruct (extra_lines py_str current) as [[a p] d].
  intros H. apply bind_Ok in H as (x & _ & H).
  apply bind_Ok in H as (y & _ & H). apply bind_Ok in H as (z & _ & H).
  injection H as <-. apply send_message_length.
Qed.

Lemma send_error_cases path_exists can_open post n id_ text :
  match send_error_notification path_exists can_open post n id_ (PStr text)
  with
  | Ok r => length r.2 ≤ 1 ∧ (n_enabled n = false → r = (false, []))
  | Raise e =>
      e = AttributeError ∧ n_enabled n = true ∧
      n_notification_level n ≠ "success" ∧ is_str id_ = false
  end.
Proof.
  unfold send_error_notification.
  destruct (n_enabled n) eqn:En; simpl; [|split; [simpl; lia | done]].
  destruct (bool_decide (n_notification_level n = "success")) eqn:El;
    [split; [simpl; lia | done]|].
  apply bool_decide_eq_false in El.
  destruct id_; simpl; try done.
  split; [apply send_message_length | done].
Qed.

Section RunFacts.
Variable cfg : RunCfg.
Variable h : Helpers.
Variable notifier : TelegramNotifier.

Lemma with_id_Stop m f : with_id (Stop (movie_id m) f).
Proof. by exists m. Qed.

Lemma and_then_with_id s1 s2 m :
  (∀ m, with_id (s1 m)) → (∀ m, with_id (s2 m)) → with_id (and_then s1 s2 m).
Proof.
  intros H1 H2. unfold and_then. specialize (H1 m).
  destruct (s1 m); [apply H2 | done].
Qed.

Ltac with_id_cases :=
  repeat first
    [ apply with_id_Stop
    | exact I
    | match goal with
      | |- with_id (match ?x with _ => _ end) => destruct x eqn:?
      | |- with_id (if ?x then _ else _) => destruct x eqn:?
      | |- with_id (let '(_, _) := ?x in _) => destruct x eqn:?
      end ].

Lemma fanart_loop_with_id w m dir pics : ∀ i,
  with_id (fanart_loop h w m dir i pics).
Proof.
  induction pics as [|p pics IH]; intros i; simpl; [done|].
  destruct (w_fanart w i p _); [apply IH | apply with_id_Stop].
Qed.

Lemma steps_with_id w m : with_id (steps cfg h w m).
Proof.
  assert (∀ m, with_id (step_scrape cfg h w m)) as H1.
  { intros m'. unfold step_scrape, raised, checked, check_step.
    with_id_cases. }
  assert (∀ m, with_id (step_translate cfg h w m)) as H2.
  { intros m'. unfold step_translate, raised, checked, check_step.
    with_id_cases. }
  assert (∀ m, with_id (step_names cfg h w m)) as H3.
  { intros m'. unfold step_names, raised, checked, external, check_step.
    with_id_cases. }
  assert (∀ m, with_id (step_cover cfg h w m)) as H4.
  { intros m'. unfold step_cover, raised. with_id_cases. }
  assert (∀ m, with_id (step_poster w m)) as H5.
  { intros m'. unfold step_poster, external. with_id_cases. }
  assert (∀ m, with_id (step_fanarts cfg h w m)) as H6.
  { intros m'. unfold step_fanarts, raised. with_id_cases.
    apply fanart_loop_with_id. }
  assert (∀ m, with_id (step_write cfg h w m)) as H7.
  { intros m'. unfold step_write, raised. with_id_cases. }
  unfold steps. revert m.
  repeat (intros m; apply and_then_with_id; [done|]; clear m). done.
Qed.

Lemma try_item_with_id w m : with_id (try_item cfg h notifier w m).1.
Proof.
  unfold try_item. pose proof (steps_with_id w m) as H.
  destruct (steps cfg h w m) as [m'|i f]; [|done].
  unfold step_notify, raised. destruct (mv_info m'); [|apply with_id_Stop].
  destruct (send_success_notification _ _ _ _ _ _ _ _ _ _) as [[b rs]|e];
    [done | apply with_id_Stop].
Qed.

Lemma step_notify_cases w m :
  match step_notify h notifier w m with
  | (Next m', rs) => m' = m ∧ length rs ≤ 1
  | (Stop i f, rs) => rs = []
  end.
Proof.
  unfold step_notify. destruct (mv_info m) as [info|]; [|done].
  destruct (send_success_notification _ _ _ _ _ _ _ _ _ _) as [[b rs]|e] eqn:E;
    [|done].
  split; [done|]. by apply send_success_length in E.
Qed.

Lemma try_item_cases w m :
  match try_item cfg h notifier w m with
  | (Next m', rs) => length rs ≤ 1
  | (Stop i f, rs) => rs = []
  end.
Proof.
  unfold try_item. destruct (steps cfg h w m) as [m'|i f]; [|done].
  pose proof (step_notify_cases w m') as H.
  destruct (step_notify h notifier w m') as [[m''|i f] rs]; [|done].
  by destruct H.
Qed.

Lemma run_item_cases w m :
  match run_item cfg h notifier w m with
  | (Crashed e, rs) =>
      rs = [] ∧ e = AttributeError ∧ n_enabled notifier = true ∧
      n_notification_level notifier ≠ "success" ∧
      ∃ i f, try_item cfg h notifier w m = (Stop i f, []) ∧ is_str i = false
  | (_, rs) => length rs ≤ 1 ∧ (n_enabled notifier = false → rs = [])
  end.
Proof.
  unfold run_item. pose proof (try_item_cases w m) as H.
  pose proof (step_notify_cases w) as Hn.
  destruct (try_item cfg h notifier w m) as [[m'|i f] rs] eqn:Et.
  - split; [done|]. intros Hoff. unfold try_item in Et.
    destruct (steps cfg h w m) as [m1|]; [|done].
    unfold step_notify in Et. destruct (mv_info m1); [|done].
    unfold send_success_notification in Et. rewrite Hoff in Et.
    simpl in Et. by injection Et as _ <-.
  - subst rs.
    pose proof (send_error_cases (w_exists w) (w_open w) (w_post w) notifier
                  i (failure_text f)) as He.
    destruct (send_error_notification _ _ _ _ _ _) as [[b more]|e].
    + destruct He as [He Hoff]. simpl. split; [done|].
      intros Ho. specialize (Hoff Ho). by injection Hoff as _ ->.
    + destruct He as (-> & ? & ? & ?). repeat (split; [done|]).
      by exists i, f.
Qed.

Lemma run_from_spec w total : ∀ movies k ret s f rs,
  length ret = s →
  match run_from cfg h notifier w total k movies ret s f rs with
  | (Finished ms s' f', rs') =>
      s' + f' = s + f + length movies ∧ length ms = s' ∧
      length rs' ≤ length rs + length movies + 1 ∧
      (n_enabled notifier = false → rs' = rs)
  | (Aborted e, rs') =>
      e = AttributeError ∧
      length rs' < length rs + length movies ∧
      n_enabled notifier = true ∧
      n_notification_level notifier ≠ "success" ∧
      ∃ j movie i fl,
        movies !! j = Some movie ∧
        try_item cfg h notifier (w (k + j)) movie = (Stop i fl, []) ∧
        is_str i = false
  end.
Proof.
  induction movies as [|m movies IH]; intros k ret s f rs Hret; simpl.
  - split; [lia|]. split; [done|]. split.
    + rewrite length_app.
      pose proof (send_message_length (w_exists (w total)) (w_open (w total))
                    (w_post (w total)) notifier) as Hl.
      unfold send_batch_summary. destruct (negb (n_enabled notifier)).
      * simpl. lia.
      * match goal with |- context [_send_message _ _ _ _ ?t ?p] =>
          specialize (Hl t p) end. lia.
    + intros Hoff. unfold send_batch_summary. rewrite Hoff. simpl.
      by rewrite app_nil_r.
  - pose proof (run_item_cases (w k) m) as Hi.
    destruct (run_item cfg h notifier (w k) m) as [[m'|fl|e] more].
    + destruct Hi as [Hl Hoff].
      specialize (IH (S k) (ret ++ [m']) (S s) f (rs ++ more)).
      destruct (run_from _ _ _ _ _ _ _ _ _ _ _) as [[ms s' f'|e] rs'].
      * destruct IH as (H1 & H2 & H3 & H4);
          [rewrite length_app; simpl; lia|].
        split; [lia|]. split; [done|]. split.
        -- rewrite length_app in H3. lia.
        -- intros Ho. rewrite (H4 Ho), (Hoff Ho). by rewrite app_nil_r.
      * destruct IH as (H1 & H3 & H4 & H5 & j & mv & i & fl & Hj & Ht & Hs);
          [rewrite length_app; simpl; lia|].
        split; [done|].
        split; [rewrite length_app in H3; lia|].
        repeat (split; [done|]). exists (S j), mv, i, fl.
        split; [done|]. split; [|done].
        by replace (k + S j) with (S k + j) by lia.
    + destruct Hi as [Hl Hoff].
      specialize (IH (S k) ret s (S f) (rs ++ more)).
      destruct (run_from _ _ _ _ _ _ _ _ _ _ _) as [[ms s' f'|e] rs'].
      * destruct IH as (H1 & H2 & H3 & H4); [done|].
        split; [lia|]. split; [done|]. split.
        -- rewrite length_app in H3. lia.
        -- intros Ho. rewrite (H4 Ho), (Hoff Ho). by rewrite app_nil_r.
      * destruct IH as (H1 & H3 & H4 & H5 & j & mv & i & fl' & Hj & Ht & Hs);
          [done|].
        split; [done|].
        split; [rewrite length_app in H3; lia|].
        repeat (split; [done|]). exists (S j), mv, i, fl'.
        split; [done|]. split; [|done].
        by replace (k + S j) with (S k + j) by lia.
    + destruct Hi as (-> & -> & Hon & Hlev & i & fl & Ht & Hs).
      split; [done|]. rewrite app_nil_r.
      split; [simpl; lia|]. repeat (split; [done|]).
      exists 0, m, i, fl. split; [done|]. split; [|done].
      by rewrite Nat.add_0_r.
Qed.

(** X23: when [RunNormalMode] returns, every item was counted once, as a
    success or as a failure, the items returned are the successes, and
    the notifier made at most one request for each item and one for the
    summary; a notifier that is off made none. *)
Theorem run_counts_add_up (w : nat -> World) (all_movies : list Movie)
        return_movies success_count failed_count requests :
  RunNormalMode cfg h notifier w all_movies
  = (Finished return_movies success_count failed_count, requests) →
  success_count + failed_count = length all_movies ∧
  length return_movies = success_count ∧
  length requests ≤ length all_movies + 1 ∧
  (n_enabled notifier = false → requests = []).
Proof.
  unfold RunNormalMode. intros H.
  pose proof (run_from_spec w (length all_movies) all_movies 0 [] 0 0 []
                eq_refl) as Hs.
  rewrite H in Hs. destruct Hs as (H1 & H2 & H3 & H4).
  simpl in *. repeat split; try done; lia.
Qed.

(** X24: the only exception that leaves [RunNormalMode] is the
    [AttributeError] of the error notification of an item that failed
    and has neither a standard identifier nor a content id: the
    notifier is on, its level is not ["success"], and the summary is
    not sent.  With the notifier off, or at the level ["success"],
    [RunNormalMode] returns whatever happens to the items. *)
Theorem run_aborts_on_missing_id (w : nat -> World) (all_movies : list Movie) :
  (∀ e requests,
     RunNormalMode cfg h notifier w all_movies = (Aborted e, requests) →
     e = AttributeError ∧
     n_enabled notifier = true ∧ n_notification_level notifier ≠ "success" ∧
     length requests < length all_movies ∧
     ∃ k movie f,
       all_movies !! k = Some movie ∧
       try_item cfg h notifier (w k) movie = (Stop PNone f, [])) ∧
  (n_enabled notifier = false ∨ n_notification_level notifier = "success" →
   ∃ return_movies success_count failed_count,
     (RunNormalMode cfg h notifier w all_movies).1
     = Finished return_movies success_count failed_count).
Proof.
  unfold RunNormalMode.
  pose proof (run_from_spec w (length all_movies) all_movies 0 [] 0 0 []
                eq_refl) as Hs.
  destruct (run_from _ _ _ _ _ _ _ _ _ _ _) as [[ms s f|e] rs]; split.
  - done.
  - intros _. by exists ms, s, f.
  - intros e' rs' [= <- <-].
    destruct Hs as (-> & Hl & Hon & Hlev & j & mv & i & fl & Hj & Ht & Hi).
    split; [done|]. split; [done|]. split; [done|].
    split; [simpl in Hl; lia|].
    exists j, mv, fl. split; [done|].
    assert (i = PNone) as ->; [|done].
    simpl in Ht.
    pose proof (try_item_with_id (w j) mv) as Hw. rewrite Ht in Hw.
    destruct Hw as [m ->]. revert Hi. unfold movie_id, or_val.
    destruct (mv_dvdid m) as [d|], (mv_cid m) as [c|]; simpl;
      try done; by destruct (negb _).
  - destruct Hs as (_ & _ & Hon & Hlev & _).
    intros [Hoff | Hl]; congruence.
Qed.

End RunFacts.

(** ** The crawlers, seen from the loop *)

Section CrawlMore.
Variable parse_data : string -> Adapter.
Variable has_parse_data_raw : string -> bool.
Variable cfg : CrawlCfg.
Variable sys_modules : string -> option Module.

Lemma update_data_src_returns movie :
  ∃ movie' kept,
    update_data_src cfg movie
      (run_workers parse_data has_parse_data_raw cfg (init_all_info cfg movie))
    = Ok (movie', kept) ∧
    mv_files movie' = mv_files movie ∧
    (mv_data_src movie' = mv_data_src movie ∨ mv_data_src movie' = "normal") ∧
    (mv_dvdid movie' = mv_dvdid movie ∧ mv_cid movie' = mv_cid movie ∨
     mv_dvdid movie' = None ∧ mv_cid movie' = mv_cid movie ∨
     mv_dvdid movie' = mv_dvdid movie ∧ mv_cid movie' = None).
Proof.
  unfold update_data_src. destruct (second_try movie).
  - destruct (titles_of_spec
                (run_workers parse_data has_parse_data_raw cfg
                   (init_all_info cfg movie))
                (selection cfg (mv_data_src movie))) as (ts & -> & _).
    { intros k Hk. apply run_workers_keys. by apply init_all_info_keys. }
    rewrite bind_Ok_l. destruct (existsb truthy ts); eexists _, _;
      (split; [done|]); simpl; split; try done; split; auto.
  - eexists _, _. split; [done|]. split; [done|]. split; auto.
Qed.



(** When the lookups find [parse_data] and [has_parse_data_raw], the
    threads are those of [run_workers]. *)
Lemma start_workers_found all_info :
  (∀ k, k ∈ all_info.*1 →
        sys_modules ("javsp.web." +:+ k)
        = Some {| mod_parse_data := Some (parse_data k);
                  mod_has_parse_data_raw := has_parse_data_raw k |}) →
  start_workers sys_modules cfg all_info
  = Ok (run_workers parse_data has_parse_data_raw cfg all_info).
Proof.
  induction all_info as [|[k info] r IH]; intros Hall; [done|].
  cbn [start_workers]. rewrite (Hall k) by (simpl; left).
  cbn [mod_parse_data mod_has_parse_data_raw].
  rewrite IH by (intros k' Hk'; apply Hall; simpl; by right).
  by rewrite bind_Ok_l.
Qed.

(** They raise at the first record whose module is not there, or has
    no [parse_data]. *)
Lemma start_workers_missing l1 k l2 : ∀ all_info,
  all_info.*1 = l1 ++ k :: l2 →
  (∀ k', k' ∈ l1 → ∃ m, sys_modules ("javsp.web." +:+ k') = Some m ∧
                        is_Some (mod_parse_data m)) →
  start_workers sys_modules cfg all_info
  = match sys_modules ("javsp.web." +:+ k) with
    | None => Raise KeyError
    | Some m =>
        match mod_parse_data m with
        | None => Raise AttributeError
        | Some _ => start_workers sys_modules cfg all_info
        end
    end.
Proof.
  induction l1 as [|k1 l1 IH]; intros all_info Hkeys Hfound.
  - destruct all_info as [|[k0 info] r]; [done|].
    simpl in Hkeys. injection Hkeys as -> _.
    cbn [start_workers].
    destruct (sys_modules ("javsp.web." +:+ k)) as [m|]; [|done].
    by destruct (mod_parse_data m).
  - destruct all_info as [|[k0 info] r]; [done|].
    simpl in Hkeys. injection Hkeys as -> Hkeys.
    destruct (Hfound k1 ltac:(left)) as (m1 & Hm1 & [p1 Hp1]).
    specialize (IH r Hkeys ltac:(intros k' Hk'; apply Hfound; by right)).
    cbn [start_workers]. rewrite Hm1, Hp1.
    destruct (sys_modules ("javsp.web." +:+ k)) as [m|].
    + destruct (mod_parse_data m); [done|]. by rewrite IH.
    + by rewrite IH.
Qed.

(** X25: [parallel_crawler] returns when the module of every crawler it
    starts is in [sys.modules] and has a [parse_data]: it is then the
    function of the workers and the reclassification, each record the
    loop of line 202 looks up is there, the files of the item are as
    before, its kind is as before or standard, and at most one of its
    two identifiers is cleared.  It raises otherwise: [KeyError] when
    the first crawler, in the order of [all_info], for which a lookup
    fails has no module, [AttributeError] when its module has no
    [parse_data]. *)
Theorem parallel_crawler_returns_iff movie :
  ((∀ k, k ∈ (init_all_info cfg movie).*1 →
         sys_modules ("javsp.web." +:+ k)
         = Some {| mod_parse_data := Some (parse_data k);
                   mod_has_parse_data_raw := has_parse_data_raw k |}) →
   parallel_crawler_with_modules sys_modules cfg movie
   = parallel_crawler parse_data has_parse_data_raw cfg movie ∧
   ∃ movie' all_info,
     parallel_crawler_with_modules sys_modules cfg movie
     = Ok (movie', all_info) ∧
     mv_files movie' = mv_files movie ∧
     (mv_data_src movie' = mv_data_src movie ∨
      mv_data_src movie' = "normal") ∧
     (mv_dvdid movie' = mv_dvdid movie ∧ mv_cid movie' = mv_cid movie ∨
      mv_dvdid movie' = None ∧ mv_cid movie' = mv_cid movie ∨
      mv_dvdid movie' = mv_dvdid movie ∧ mv_cid movie' = None)) ∧
  (∀ l1 k l2,
     (init_all_info cfg movie).*1 = l1 ++ k :: l2 →
     (∀ k', k' ∈ l1 → ∃ m, sys_modules ("javsp.web." +:+ k') = Some m ∧
                           is_Some (mod_parse_data m)) →
     (sys_modules ("javsp.web." +:+ k) = None →
      parallel_crawler_with_modules sys_modules cfg movie = Raise KeyError) ∧
     (∀ m, sys_modules ("javsp.web." +:+ k) = Some m →
           mod_parse_data m = None →
           parallel_crawler_with_modules sys_modules cfg movie
           = Raise AttributeError)).
Proof.
  split.
  - intros Hall.
    assert (parallel_crawler_with_modules sys_modules cfg movie
            = parallel_crawler parse_data has_parse_data_raw cfg movie) as Heq.
    { unfold parallel_crawler_with_modules, parallel_crawler.
      by rewrite (start_workers_found _ Hall), bind_Ok_l. }
    split; [done|]. rewrite Heq. unfold parallel_crawler.
    destruct (update_data_src_returns movie) as (m' & kept & -> & H).
    rewrite bind_Ok_l. by eexists _, _.
  - intros l1 k l2 Hkeys Hfound.
    pose proof (start_workers_missing l1 k l2 _ Hkeys Hfound) as Hs.
    unfold parallel_crawler_with_modules. split.
    + intros Hk. rewrite Hk in Hs. by rewrite Hs.
    + intros m Hk Hp. rewrite Hk, Hp in Hs. by rewrite Hs.
Qed.


End CrawlMore.

Section ItemFacts.
Variable cfg : RunCfg.
Variable h : Helpers.
Variable notifier : TelegramNotifier.
Variable w : World.


(** X27: an item is among the returned ones exactly when every step
    before the notification went through and the success notification
    did not raise: the notifier is off or at the level ["error"], or
    the title of the record, the identifier and the folder of the item
    are strings.  An item whose record has no title is counted as
    failed by a notifier that is on, after its files were written. *)
Theorem item_done_iff movie movie' :
  (run_item cfg h notifier w movie).1 = Done movie' ↔
  steps cfg h w movie = Next movie' ∧
  ∃ info, mv_info movie' = Some info ∧
    (n_enabled notifier = false ∨ n_notification_level notifier = "error" ∨
     (is_str (getattr info "title") = true ∧
      is_str (movie_id movie') = true ∧
      is_str (of_opt (mv_save_dir movie')) = true)).
Proof.
  unfold run_item, try_item.
  destruct (steps cfg h w movie) as [m1|i f].
  2:{ split.
      - destruct (send_error_notification _ _ _ _ _ _) as [[b more]|e]; done.
      - by intros [? _]. }
  unfold step_notify. destruct (mv_info m1) as [info|] eqn:Ei.
  2:{ simpl. split.
      - destruct (send_error_notification _ _ _ _ _ _) as [[b more]|e]; done.
      - intros [[= <-] (info & Hi & _)]. congruence. }
  unfold send_success_notification.
  destruct (n_enabled notifier) eqn:En; simpl.
  2:{ split.
      - intros [= <-]. split; [done|]. exists info. split; [done|]. by left.
      - by intros [[= <-] _]. }
  destruct (bool_decide (n_notification_level notifier = "error")) eqn:El.
  { apply bool_decide_eq_true in El. split.
    - intros [= <-]. split; [done|]. exists info. split; [done|].
      right. by left.
    - by intros [[= <-] _]. }
  apply bool_decide_eq_false in El.
  destruct (extra_lines (h_str h) (w_current_movie_info w)) as [[a p] d].
  assert (Hraise : ∀ r : stepped * list request,
            (match r with
             | (Next m, rs) => (Done m, rs)
             | (Stop i f, rs) =>
                 match send_error_notification (w_exists w) (w_open w)
                         (w_post w) notifier i (PStr (failure_text f)) with
                 | Ok (_, more) => (Failed f, rs ++ more)
                 | Raise e => (Crashed e, rs)
                 end
             end).1 = Done movie' → ∃ rs, r = (Next movie', rs)).
  { intros [[m|i f] rs]; simpl.
    - intros [= <-]. by exists rs.
    - destruct (send_error_notification _ _ _ _ _ _) as [[b more]|e]; done. }
  split.
  - intros H. apply Hraise in H as [rs H].
    destruct (movie_id m1) eqn:Eid; simpl in H; try done.
    destruct (getattr info "title") eqn:Et; simpl in H; try done.
    destruct (mv_save_dir m1) eqn:Ed; simpl in H; try done.
    destruct (_send_message _ _ _ _ _ _) as [b rq].
    injection H as <- _. split; [done|]. exists info. split; [done|].
    right. right. by rewrite Et, Eid, Ed.
  - intros [[= <-] (info' & Hi & Hc)].
    rewrite Ei in Hi. injection Hi as <-.
    destruct Hc as [?|[?|(Ht & Hid & Hd)]]; [done|done|].
    destruct (movie_id m1); try done.
    destruct (getattr info "title"); try done.
    destruct (mv_save_dir m1); try done. simpl.
    by destruct (_send_message _ _ _ _ _ _) as [b rq].
Qed.

(** X28: after the cover step the item agrees with the download: the
    cover of its record is the address that was downloaded, one of the
    candidates of the record, and its fanart file is the path
    [get_pic_path] derives from the fanart file of the Namer and that
    address; nothing else of the record changes, and of the item only
    the poster file may. *)
Theorem step_cover_agrees movie movie' :
  step_cover cfg h w movie = Next movie' →
  ∃ info info' f cover candidates,
    mv_info movie = Some info ∧ mv_fanart_file movie = Some f ∧
    (py_iter (getattr info "covers") = Ok candidates ∨
     cover_highres cfg = true ∧
     py_iter (getattr info "big_covers") = Ok candidates) ∧
    PStr cover ∈ candidates ∧
    mv_info movie' = Some info' ∧
    getattr info' "cover" = PStr cover ∧
    (∀ a, a ≠ "cover" → info' !! a = info !! a) ∧
    mv_fanart_file movie'
    = Some (get_pic_path (h_splitext_root h) f cover) ∧
    mv_save_dir movie' = mv_save_dir movie ∧
    mv_basename movie' = mv_basename movie ∧
    mv_nfo_file movie' = mv_nfo_file movie ∧
    movie_id movie' = movie_id movie.
Proof.
  unfold step_cover. destruct (mv_info movie) as [info|] eqn:Ei; [|done].
  destruct (cover_download cfg h w info (mv_fanart_file movie))
    as [[cover pic| |]|e] eqn:Ec; try done.
  intros Hn.
  assert (Hcand : ∃ f candidates,
    mv_fanart_file movie = Some f ∧
    (py_iter (getattr info "covers") = Ok candidates ∨
     cover_highres cfg = true ∧
     py_iter (getattr info "big_covers") = Ok candidates) ∧
    PStr cover ∈ candidates ∧
    pic = get_pic_path (h_splitext_root h) f cover).
  { unfold cover_download in Ec.
    destruct (negb (hasattr info "covers") || _); [done|].
    apply bind_Ok in Ec as (bl & Hbl & Ec).
    destruct (download_cover _ _ _ [] _ bl).1 as [u p| |] eqn:Eb.
    - injection Ec as -> ->.
      apply download_cover_from in Eb as (Hin & f & Hf & ->).
      rewrite app_nil_r in Hin.
      destruct (cover_highres cfg) eqn:Eh.
      + exists f, bl. split; [done|]. split; [by right|]. done.
      + injection Hbl as <-. by apply not_elem_of_nil in Hin.
    - apply bind_Ok in Ec as (cl & Hcl & Ec). injection Ec as Ec.
      apply download_cover_from in Ec as (Hin & f & Hf & ->).
      apply elem_of_app in Hin as [Hin|Hin].
      + destruct (cover_highres cfg) eqn:Eh.
        * exists f, bl. split; [done|]. split; [by right|]. done.
        * injection Hbl as <-. by apply not_elem_of_nil in Hin.
      + exists f, cl. split; [done|]. split; [by left|]. done.
    - done. }
  destruct Hcand as (f & cands & Hf & Hc & Hin & ->).
  set (info' := if decide (PStr cover ≠ getattr info "cover")
                then setattr info "cover" (PStr cover) else info) in *.
  assert (Hinfo : getattr info' "cover" = PStr cover ∧
                  ∀ a, a ≠ "cover" → info' !! a = info !! a).
  { subst info'. destruct (decide (PStr cover ≠ getattr info "cover")) as [H|H].
    - split; [apply getattr_setattr_eq|]. intros a Ha.
      unfold setattr. by rewrite lookup_insert_ne.
    - split; [|done]. by apply dec_stable in H. }
  destruct Hinfo as [Hi1 Hi2].
  exists info, info', f, cover, cands.
  destruct (decide (Some (get_pic_path (h_splitext_root h) f cover)
                    ≠ mv_fanart_file (set_info movie (Some info'))))
    as [Hne|Heq].
  - destruct (mv_poster_file (set_info movie (Some info'))); [|done].
    injection Hn as <-. simpl. by repeat split.
  - apply dec_stable in Heq. injection Hn as <-. simpl.
    simpl in Heq. by repeat split.
Qed.

End ItemFacts.

(** ** The loop at work on the samples *)

Lemma parallel_crawler_returns_iff_witness :
  parallel_crawler_with_modules demo_modules demo_crawl_cfg demo_movie
  = Raise KeyError ∧
  parallel_crawler_with_modules demo_modules demo_crawl_cfg
    demo_cid_only_movie
  = Raise AttributeError.
Proof.
  split.
  - apply (proj2 (parallel_crawler_returns_iff
                    (fun _ => titled_parser "Foo") no_raw demo_crawl_cfg
                    demo_modules demo_movie)
             ["javbus"] "javdb" []).
    + reflexivity.
    + intros k' Hk'. apply list_elem_of_singleton in Hk' as ->.
      eexists. split; [reflexivity|]. by eexists.
    + reflexivity.
  - apply (proj2 (proj2 (parallel_crawler_returns_iff
                    (fun _ => titled_parser "Foo") no_raw demo_crawl_cfg
                    demo_modules demo_cid_only_movie)
             [] "fanza" [] eq_refl
             ltac:(intros k' Hk'; by inversion Hk'))
             {| mod_parse_data := None; mod_has_parse_data_raw := false |});
      reflexivity.
Defined.

Lemma run_counts_add_up_witness :
  match RunNormalMode demo_run_cfg demo_helpers demo_notifier
          (fun k => demo_world (if (k =? 0)%nat then cover_parser
                                else silent_parser))
          [demo_movie; demo_cid_movie] with
  | (Finished ms s f, rs) => s + f = 2 ∧ length ms = s
  | (Aborted _, _) => False
  end.
Proof.
  pose proof (run_counts_add_up demo_run_cfg demo_helpers demo_notifier
                (fun k => demo_world (if (k =? 0)%nat then cover_parser
                                      else silent_parser))
                [demo_movie; demo_cid_movie]) as H.
  destruct (RunNormalMode _ _ _ _ _) as [[ms s f|e] rs] eqn:E.
  - destruct (H ms s f rs eq_refl) as (H1 & H2 & _). by split.
  - vm_compute in E. discriminate.
Defined.


Lemma step_cover_agrees_witness :
  ∃ cover, mv_fanart_file demo_after_cover
           = Some (get_pic_path root_of "/out/ABC-123/ABC-123-fanart.jpg"
                                cover).
Proof.
  destruct (step_cover_agrees demo_run_cfg demo_helpers
              (demo_world cover_parser) demo_before_cover demo_after_cover)
    as (info & info' & f & cover & cands & _ & Hf & _ & _ & _ & _ & _ & H & _).
  - vm_compute. reflexivity.
  - injection Hf as <-. by exists cover.
Defined.

(** ** The count of the scanner *)

Section ScannerFacts.
Variable extensions : list string.
Variable subtitle_extensions : list string.
Variable ignored_folders : list string.
Variable lower : string -> string.
Variable relpath : list string -> string.
Variable is_yesterday : Z -> bool.

Local Abbreviation is_video :=
  (fun f : file => has_extension lower extensions f = true).
Local Abbreviation is_subtitle :=
  (fun f : file => has_extension lower subtitle_extensions f = true).

Lemma scan_files_new fs : ∀ acc,
  acc.2 ≤ (foldl (scan_file is_yesterday) acc fs).2 ≤ acc.2 + length fs.
Proof.
  induction fs as [|f fs IH]; intros acc; simpl; [lia|].
  specialize (IH (scan_file is_yesterday acc f)).
  assert (acc.2 ≤ (scan_file is_yesterday acc f).2 ≤ S acc.2) as Hf.
  { unfold scan_file. destruct (f_size f); [|lia].
    destruct (f_mtime f) as [t|]; simpl; [|lia].
    destruct (is_yesterday t); lia. }
  lia.
Qed.

Lemma scan_folder_counts stats folder :
  let stats' := scan_folder extensions subtitle_extensions lower relpath
                            is_yesterday stats folder in
  total stats' = total stats + length (filter is_video folder.2) ∧
  subtitle_count stats'
  = subtitle_count stats + length (filter is_subtitle folder.2) ∧
  new_today stats ≤ new_today stats' ∧
  new_today stats' - new_today stats
  ≤ length (filter is_video folder.2) + length (filter is_subtitle folder.2).
Proof.
  unfold scan_folder.
  destruct ((0 <? length (filter is_video folder.2))%nat
            || (0 <? length (filter is_subtitle folder.2))%nat) eqn:E.
  - pose proof (scan_files_new
                  (filter is_video folder.2 ++ filter is_subtitle folder.2)
                  (0%Z, 0)) as Hn.
    destruct (foldl (scan_file is_yesterday) (0%Z, 0) _) as [size new].
    simpl in *. rewrite length_app in Hn. lia.
  - apply orb_false_elim in E as [E1 E2].
    apply Nat.ltb_ge in E1, E2. simpl. lia.
Qed.

Lemma scan_folders_counts folders : ∀ stats,
  let stats' := foldl (scan_folder extensions subtitle_extensions lower
                                   relpath is_yesterday) stats folders in
  total stats'
  = total stats + length (filter is_video (concat (map snd folders))) ∧
  subtitle_count stats'
  = subtitle_count stats
    + length (filter is_subtitle (concat (map snd folders))) ∧
  new_today stats ≤ new_today stats' ∧
  new_today stats' - new_today stats
  ≤ length (filter is_video (concat (map snd folders)))
    + length (filter is_subtitle (concat (map snd folders))).
Proof.
  induction folders as [|folder folders IH]; intros stats; simpl.
  - repeat split; lia.
  - destruct (scan_folder_counts stats folder) as (H1 & H2 & H3 & H4).
    specialize (IH (scan_folder extensions subtitle_extensions lower relpath
                                is_yesterday stats folder)).
    destruct IH as (I1 & I2 & I3 & I4).
    rewrite !filter_app, !length_app. simpl in *. repeat split; lia.
Qed.

(** X29: the scanner counts every file of the folders it walks whose
    lowered name ends with a configured extension, the videos and the
    subtitles apart, so that a file of both kinds is counted twice; no
    more files are new than were counted. *)
Theorem count_videos_counts (t : tree) :
  let stats := count_videos extensions subtitle_extensions ignored_folders
                            lower relpath is_yesterday (Some t) in
  total stats
  = length (filter is_video (walked_files ignored_folders t)) ∧
  subtitle_count stats
  = length (filter is_subtitle (walked_files ignored_folders t)) ∧
  new_today stats ≤ total stats + subtitle_count stats.
Proof.
  unfold count_videos, walked_files.
  destruct (scan_folders_counts (walk_tree ignored_folders t []) no_stats)
    as (H1 & H2 & H3 & H4).
  simpl in *. repeat split; lia.
Qed.

Lemma walk_tree_prune : ∀ t path,
  walk_tree ignored_folders (prune ignored_folders t) path
  = walk_tree ignored_folders t path.
Proof.
  fix IH 1. intros [files dirs] path. simpl. f_equal.
  induction dirs as [|[d sub] r IHr]; simpl; [done|].
  destruct (_should_ignore_folder ignored_folders d) eqn:E; [apply IHr|].
  simpl. rewrite E. by rewrite IH, IHr.
Qed.

(** X30: what lies in an ignored folder, at any depth, plays no part in
    the count: the scanner gives the same statistics for a directory
    and for that directory without its ignored folders.  The input
    directory itself is walked whatever its name. *)
Theorem count_videos_ignores (t : tree) :
  count_videos extensions subtitle_extensions ignored_folders lower relpath
               is_yesterday (Some (prune ignored_folders t))
  = count_videos extensions subtitle_extensions ignored_folders lower relpath
                 is_yesterday (Some t).
Proof. unfold count_videos. by rewrite walk_tree_prune. Qed.

End ScannerFacts.
